(** * FunctionMaxima (Task 5): a function store with an incrementally
      maintained index of local maxima, strong exception guarantee and
      copy-on-write handles.

    Embedding of [src/Task 5/function_maxima.h].

    - [std::less<A>] and [std::less<V>] are section variables [lessA] and
      [lessV]; the properties of a strict weak ordering are stated as the
      record [StrictWeak] and assumed only where a proof needs them.
    - [std::multiset<point_type, ComparePointsByArguments>] is a list kept in
      argument order; an [iterator] is a position in it, [None] being
      [end()].  A multiset inserts a new element at the upper bound of its
      equivalence range, so positions below the insertion point keep their
      meaning, exactly as the node iterators of the source do.
    - [std::set<point_type, ComparePointsByMaximaOrder>] is a list kept in
      maxima order; its nodes are pairwise inequivalent, hence an
      [mx_iterator] is modelled by the point held in the node it designates
      ([None] being [mx_end()]).
    - Exceptions: code runs in a state-and-exception monad.  State changes
      made before a throw persist (as in C++); destructors and catch blocks
      are written out with [on_unwind].  Every operation of the source that
      may throw (an allocation, a call of a comparator, a container lookup or
      insertion) passes through [fallible], which consults a fault plan: the
      number of fallible steps that still succeed before one throws. *)

From stdpp Require Import base option list sorting gmap.
From Stdlib Require Import ZArith Lia.

Set Implicit Arguments.
Set Warnings "-clear-no-such-hyp".

(** ** Exceptions and the fault-injecting state monad *)

Inductive exn : Type :=
| InvalidArg   (* class InvalidArg, thrown by value_at *)
| Failure.     (* std::bad_alloc or whatever a comparator or copy throws *)

Inductive outcome (X : Type) : Type :=
| Returns (x : X)
| Throws (e : exn).
Arguments Returns {X} x.
Arguments Throws {X} e.

(** [None]: no fault is injected.  [Some n]: the next [n] fallible steps
    succeed and the one after them throws; the fault is then spent. *)
Definition faults : Type := option nat.

Definition M (St X : Type) : Type := St -> faults -> outcome X * St * faults.

Definition ret {St X} (x : X) : M St X := fun s k => (Returns x, s, k).

Definition bind {St X Y} (m : M St X) (f : X -> M St Y) : M St Y :=
  fun s k =>
    match m s k with
    | (Returns x, s', k') => f x s' k'
    | (Throws e, s', k') => (Throws e, s', k')
    end.

Definition throw {St X} (e : exn) : M St X := fun s k => (Throws e, s, k).

Definition fallible {St} : M St unit :=
  fun s k =>
    match k with
    | None => (Returns tt, s, None)
    | Some 0 => (Throws Failure, s, None)
    | Some (S n) => (Returns tt, s, Some n)
    end.

Definition gets {St X} (f : St -> X) : M St X := fun s k => (Returns (f s), s, k).

Definition modify {St} (f : St -> St) : M St unit := fun s k => (Returns tt, f s, k).

(** Stack unwinding: when [m] throws, the non-throwing clean-up [h] (a
    destructor or the body of a [catch (...)] that rethrows) runs on the state
    reached so far and the exception propagates. *)
Definition on_unwind {St X} (m : M St X) (h : St -> St) : M St X :=
  fun s k =>
    match m s k with
    | (Throws e, s', k') => (Throws e, h s', k')
    | r => r
    end.

Declare Scope fm_scope.
Delimit Scope fm_scope with fm.
Notation "x <- m ;; k" := (bind m (fun x => k))
  (at level 100, m at next level, right associativity) : fm_scope.
Notation "m ;;; k" := (bind m (fun _ => k))
  (at level 100, right associativity) : fm_scope.
Open Scope fm_scope.

(** A call that computes [x] but may throw while doing so. *)
Definition may_throw {St X} (x : X) : M St X := fallible ;;; ret x.

Definition run_out {X St} (r : outcome X * St * faults) : outcome X := r.1.1.
Definition run_state {X St} (r : outcome X * St * faults) : St := r.1.2.
Definition run_plan {X St} (r : outcome X * St * faults) : faults := r.2.

(** ** The implementation class [detail::FunctionMaximaImpl<A, V>] *)

Section Impl.
Context {A V : Type}.
Variable lessA : A -> A -> bool.   (* std::less<A>() *)
Variable lessV : V -> V -> bool.   (* std::less<V>() *)

Record point_type : Type := Point { arg : A; value : V }.

(** [point_type(a, v)]: two [std::make_shared] calls. *)
Definition new_point {St} (a : A) (v : V) : M St point_type :=
  fallible ;;; fallible ;;; ret (Point a v).

(** *** Comparators *)

Definition equivalentArguments (a b : A) : bool :=
  negb (lessA a b) && negb (lessA b a).

Definition equivalentValues (a b : V) : bool :=
  negb (lessV a b) && negb (lessV b a).

Definition equivalentPoints (pt1 pt2 : point_type) : bool :=
  equivalentArguments (arg pt1) (arg pt2) && equivalentValues (value pt1) (value pt2).

Definition valueLessOrEqual (v1 v2 : V) : bool :=
  lessV v1 v2 || equivalentValues v1 v2.

Definition ComparePointsByArguments (a b : point_type) : bool :=
  lessA (arg a) (arg b).

Definition ComparePointsByMaximaOrder (a b : point_type) : bool :=
  lessV (value b) (value a) ||
  (equivalentValues (value a) (value b) && lessA (arg a) (arg b)).

(** *** The two containers *)

Record FunctionMaximaImpl : Type := Impl {
  function : list point_type;      (* FunctionType function *)
  localMaxima : list point_type    (* LocalMaximaSetType localMaxima *)
}.

Definition empty_impl : FunctionMaximaImpl := Impl [] [].

Definition iterator : Type := option nat.
Definition mx_iterator : Type := option point_type.

Definition deref (f : list point_type) (it : iterator) : option point_type :=
  match it with
  | Some i => f !! i
  | None => None
  end.

(** [function.cbegin()]; equal to [end()] on an empty container. *)
Definition fn_begin (f : list point_type) : iterator :=
  match f with
  | [] => None
  | _ :: _ => Some 0
  end.

(** [std::next(it)], called on iterators other than [end()]. *)
Definition iter_next (f : list point_type) (it : iterator) : iterator :=
  match it with
  | Some i => if decide (S i < length f) then Some (S i) else None
  | None => None
  end.

(** [std::prev(it)], called on iterators that are neither [begin()] nor
    [end()]. *)
Definition iter_prev (it : iterator) : iterator :=
  match it with
  | Some (S i) => Some i
  | _ => None
  end.

(** Position of the first element whose argument is not less than [a]. *)
Fixpoint fn_lower_bound (a : A) (f : list point_type) : nat :=
  match f with
  | [] => 0
  | p :: f' => if lessA (arg p) a then S (fn_lower_bound a f') else 0
  end.

(** Position of the first element whose argument is greater than [a]. *)
Fixpoint fn_upper_bound (a : A) (f : list point_type) : nat :=
  match f with
  | [] => 0
  | p :: f' => if lessA a (arg p) then 0 else S (fn_upper_bound a f')
  end.

(** [function.find(a)] with the transparent comparator. *)
Definition fn_find (a : A) (f : list point_type) : iterator :=
  let i := fn_lower_bound a f in
  match f !! i with
  | Some p => if lessA a (arg p) then None else Some i
  | None => None
  end.

Definition insert_at (k : nat) (pt : point_type) (f : list point_type) : list point_type :=
  take k f ++ pt :: drop k f.

(** [function.erase(it)]: never throws. *)
Definition fn_erase (it : iterator) (s : FunctionMaximaImpl) : FunctionMaximaImpl :=
  match it with
  | Some i => Impl (delete i (function s)) (localMaxima s)
  | None => s
  end.

(** [localMaxima.find(p)]. *)
Fixpoint mx_find (p : point_type) (m : list point_type) : mx_iterator :=
  match m with
  | [] => None
  | q :: m' =>
      if ComparePointsByMaximaOrder q p then mx_find p m'
      else if ComparePointsByMaximaOrder p q then None
      else Some q
  end.

(** [localMaxima.insert(p)]: the new contents and the iterator returned
    in [.first]; an equivalent element blocks the insertion. *)
Fixpoint mx_insert (p : point_type) (m : list point_type) : list point_type * mx_iterator :=
  match m with
  | [] => ([p], Some p)
  | q :: m' =>
      if ComparePointsByMaximaOrder q p then
        let r := mx_insert p m' in (q :: r.1, r.2)
      else if ComparePointsByMaximaOrder p q then (p :: q :: m', Some p)
      else (q :: m', Some q)
  end.

Definition mx_equiv (p q : point_type) : bool :=
  negb (ComparePointsByMaximaOrder p q) && negb (ComparePointsByMaximaOrder q p).

(** [localMaxima.erase(mxIt)]: unlinks the node [mxIt] designates; never
    throws. *)
Definition mx_erase (mxIt : mx_iterator) (s : FunctionMaximaImpl) : FunctionMaximaImpl :=
  match mxIt with
  | Some q => Impl (function s) (filter (fun x => mx_equiv q x = false) (localMaxima s))
  | None => s
  end.

Local Abbreviation MI := (M FunctionMaximaImpl).

(** *** Public read accessors *)

Definition find (a : A) : MI iterator :=
  f <- gets function ;; may_throw (fn_find a f).

Definition value_at (a : A) : MI V :=
  it <- find a ;;
  f <- gets function ;;
  match deref f it with
  | None => throw InvalidArg
  | Some p => ret (value p)
  end.

Definition size (s : FunctionMaximaImpl) : nat := length (function s).

(** The sequences [begin() .. end()] and [mx_begin() .. mx_end()]. *)
Definition traversal (s : FunctionMaximaImpl) : list point_type := function s.
Definition mx_traversal (s : FunctionMaximaImpl) : list point_type := localMaxima s.

(** *** Private helpers *)

Definition safePrev (f : list point_type) (it : iterator) : iterator :=
  if decide (it ≠ fn_begin f ∧ it ≠ None) then iter_prev it else None.

Definition safeNext (f : list point_type) (it : iterator) : iterator :=
  if decide (it ≠ None) then iter_next f it else it.

Definition safePrevWithAvoid (f : list point_type) (it ignore : iterator) : iterator :=
  let prevIt := safePrev f it in
  if decide (prevIt = ignore) then safePrev f prevIt else prevIt.

Definition safeNextWithAvoid (f : list point_type) (it ignore : iterator) : iterator :=
  let nextIt := safeNext f it in
  if decide (nextIt = ignore) then safeNext f nextIt else nextIt.

Definition mxFind (it : iterator) : MI mx_iterator :=
  f <- gets function ;;
  match deref f it with
  | Some p => m <- gets localMaxima ;; may_throw (mx_find p m)
  | None => ret None
  end.

Definition mxEraseIfNotEnd (mxIt : mx_iterator) (s : FunctionMaximaImpl) : FunctionMaximaImpl :=
  mx_erase mxIt s.

(** [leftIt == end() || valueLessOrEqual(leftIt->value(), it->value())]
    and its mirror image: the comparison is made, and may throw, only when
    the neighbour exists. *)
Definition neighbourCondition (nb : option point_type) (p : point_type) : MI bool :=
  match nb with
  | None => ret true
  | Some q => may_throw (valueLessOrEqual (value q) (value p))
  end.

Definition firstMaximaCondition (it ignore : iterator) : MI bool :=
  f <- gets function ;;
  match deref f it with
  | None => ret false                               (* it == end() *)
  | Some p =>
      if decide (it = fn_begin f) then ret true
      else
        let leftIt := iter_prev it in
        let leftIt := if decide (leftIt = ignore) then safePrev f leftIt else leftIt in
        neighbourCondition (deref f leftIt) p
  end.

Definition secondMaximaCondition (it ignore : iterator) : MI bool :=
  f <- gets function ;;
  match deref f it with
  | None => ret false                               (* it == end() *)
  | Some p =>
      let rightIt := iter_next f it in
      let rightIt := if decide (rightIt = ignore) then safeNext f rightIt else rightIt in
      neighbourCondition (deref f rightIt) p
  end.

Definition isLocalMaxima (it ignore : iterator) : MI bool :=
  if decide (it = ignore) then ret false
  else
    c1 <- firstMaximaCondition it ignore ;;
    if c1 then secondMaximaCondition it ignore else ret false.

(** *** The transaction guard [ChangeLocalMaximaGuard] *)

Record ChangeLocalMaximaGuard : Type := Guard {
  guard_reverse : bool;
  guard_erase : bool;
  guard_insert : bool;
  guard_mxIt : mx_iterator
}.

Definition localMaxima_insert (p : point_type) : MI mx_iterator :=
  fallible ;;;
  m <- gets localMaxima ;;
  modify (fun s => Impl (function s) (mx_insert p m).1) ;;;
  ret (mx_insert p m).2.

(** The constructor.  A constructor that throws leaves no object behind,
    so no destructor runs for it. *)
Definition guard_ctor (it ignore : iterator) : MI ChangeLocalMaximaGuard :=
  if decide (it = ignore) then ret (Guard true false false None)
  else
    mxIt <- mxFind it ;;
    let wasLocalMaxima := bool_decide (mxIt ≠ None) in
    isMax <- isLocalMaxima it ignore ;;
    if isMax then
      if negb wasLocalMaxima then
        f <- gets function ;;
        match deref f it with
        | Some p =>
            mxIt' <- localMaxima_insert p ;;
            ret (Guard true false true mxIt')
        | None => ret (Guard true false false mxIt)   (* isLocalMaxima excludes end() *)
        end
      else ret (Guard true false false mxIt)
    else if wasLocalMaxima then ret (Guard true true false mxIt)
    else ret (Guard true false false mxIt).

Definition done (g : ChangeLocalMaximaGuard) : ChangeLocalMaximaGuard :=
  Guard false (guard_erase g) (guard_insert g) (guard_mxIt g).

(** The destructor: never throws. *)
Definition guard_dtor (g : ChangeLocalMaximaGuard) (s : FunctionMaximaImpl) : FunctionMaximaImpl :=
  if guard_reverse g then
    if guard_insert g then mx_erase (guard_mxIt g) s else s
  else
    if guard_erase g then mx_erase (guard_mxIt g) s else s.

(** *** Mutators *)

Definition function_insert (pt : point_type) : MI iterator :=
  fallible ;;;
  f <- gets function ;;
  let k := fn_upper_bound (arg pt) f in
  modify (fun s => Impl (insert_at k pt f) (localMaxima s)) ;;;
  ret (Some k).

(** The body of the [try] block of [set_value]. *)
Definition set_value_try (fnIt it : iterator) : MI unit :=
  nextPos <- gets (fun s => safeNextWithAvoid (function s) fnIt it) ;;
  nextElementGuard <- guard_ctor nextPos it ;;
  on_unwind (
    currElementGuard <- guard_ctor fnIt it ;;
    on_unwind (
      prevPos <- gets (fun s => safePrevWithAvoid (function s) fnIt it) ;;
      prevElementGuard <- guard_ctor prevPos it ;;
      (* done() on the three guards, then the block is left and they are
         destroyed in reverse order of construction *)
      modify (guard_dtor (done prevElementGuard)) ;;;
      modify (guard_dtor (done currElementGuard)) ;;;
      modify (guard_dtor (done nextElementGuard)))
    (guard_dtor currElementGuard))
  (guard_dtor nextElementGuard).

Definition set_value (a : A) (v : V) : MI unit :=
  it <- find a ;;
  pt <- new_point a v ;;
  f <- gets function ;;
  same <- match deref f it with
          | Some old => may_throw (equivalentPoints old pt)
          | None => ret false
          end ;;
  if (same : bool) then ret tt
  else
    mxIt <- mxFind it ;;
    fnIt <- function_insert pt ;;
    on_unwind (set_value_try fnIt it) (fn_erase fnIt) ;;;
    if decide (it ≠ None) then
      modify (fn_erase it) ;;;
      modify (mxEraseIfNotEnd mxIt)
    else ret tt.

Definition erase (a : A) : MI unit :=
  it <- find a ;;
  mxIt <- mxFind it ;;
  if decide (it ≠ None) then
    nextPos <- gets (fun s => safeNext (function s) it) ;;
    nextElementGuard <- guard_ctor nextPos it ;;
    on_unwind (
      prevPos <- gets (fun s => safePrev (function s) it) ;;
      prevElementGuard <- guard_ctor prevPos it ;;
      modify (fn_erase it) ;;;
      modify (mxEraseIfNotEnd mxIt) ;;;
      modify (guard_dtor (done prevElementGuard)) ;;;
      modify (guard_dtor (done nextElementGuard)))
    (guard_dtor nextElementGuard)
  else ret tt.

End Impl.

Arguments point_type : clear implicits.
Arguments FunctionMaximaImpl : clear implicits.
Arguments ChangeLocalMaximaGuard : clear implicits.
Arguments empty_impl : clear implicits.

(** ** Strict weak orderings *)

Record StrictWeak {X : Type} (lt : X -> X -> bool) : Prop := {
  sw_irrefl : forall x, lt x x = false;
  sw_trans : forall x y z, lt x y = true -> lt y z = true -> lt x z = true;
  sw_negtrans : forall x y z, lt x y = false -> lt y z = false -> lt x z = false
}.

Section OrderFacts.
Context {X : Type} (lt : X -> X -> bool) (Hlt : StrictWeak lt).

Lemma sw_asym x y : lt x y = true -> lt y x = false.
Proof.
  intros H. destruct (lt y x) eqn:E; [|done].
  pose proof (sw_trans Hlt _ _ _ H E) as Hxx.
  rewrite (sw_irrefl Hlt) in Hxx. done.
Qed.

Lemma sw_lt_incomp_l x y z : lt x y = true -> lt z y = false -> lt x z = true.
Proof.
  intros Hxy Hzy. destruct (lt x z) eqn:E; [done|].
  pose proof (sw_negtrans Hlt _ _ _ E Hzy). congruence.
Qed.

Lemma sw_lt_incomp_r x y z : lt x y = true -> lt x z = false -> lt z y = true.
Proof.
  intros Hxy Hxz. destruct (lt z y) eqn:E; [done|].
  pose proof (sw_negtrans Hlt _ _ _ Hxz E). congruence.
Qed.
End OrderFacts.

Lemma Zltb_StrictWeak : StrictWeak Z.ltb.
Proof.
  split.
  - intros x. apply Z.ltb_irrefl.
  - intros x y z H1%Z.ltb_lt H2%Z.ltb_lt. apply Z.ltb_lt. lia.
  - intros x y z H1%Z.ltb_ge H2%Z.ltb_ge. apply Z.ltb_ge. lia.
Qed.

Section MaximaOrder.
Context {A V : Type} (lessA : A -> A -> bool) (lessV : V -> V -> bool).
Context (HA : StrictWeak lessA) (HV : StrictWeak lessV).

Local Abbreviation mxlt := (ComparePointsByMaximaOrder lessA lessV).

Lemma mxlt_StrictWeak : StrictWeak mxlt.
Proof.
  split.
  - intros [a v]. unfold ComparePointsByMaximaOrder, equivalentValues. simpl.
    by rewrite (sw_irrefl HV), (sw_irrefl HA).
  - intros [a1 v1] [a2 v2] [a3 v3].
    unfold ComparePointsByMaximaOrder, equivalentValues. simpl.
    intros H1 H2.
    destruct (lessV v2 v1) eqn:E21; destruct (lessV v3 v2) eqn:E32; simpl in *.
    + by rewrite (sw_trans HV _ _ _ E32 E21).
    + destruct (lessV v2 v3) eqn:E23; simpl in *; [done|].
      by rewrite (sw_lt_incomp_r HV _ _ _ E21 E23).
    + destruct (lessV v1 v2) eqn:E12; simpl in *; [done|].
      by rewrite (sw_lt_incomp_l HV _ _ _ E32 E12).
    + destruct (lessV v1 v2) eqn:E12; simpl in *; [done|].
      destruct (lessV v2 v3) eqn:E23; simpl in *; [done|].
      rewrite (sw_negtrans HV _ _ _ E32 E21), (sw_negtrans HV _ _ _ E12 E23).
      simpl. apply (sw_trans HA _ _ _ H1 H2).
  - intros [a1 v1] [a2 v2] [a3 v3].
    unfold ComparePointsByMaximaOrder, equivalentValues. simpl.
    intros H1 H2.
    apply orb_false_iff in H1 as [E21 H1]. apply orb_false_iff in H2 as [E32 H2].
    rewrite E21 in H1. rewrite E32 in H2. simpl in *.
    rewrite (sw_negtrans HV _ _ _ E32 E21). simpl.
    destruct (lessV v1 v3) eqn:E13; simpl; [done|].
    destruct (lessV v1 v2) eqn:E12; simpl in *.
    + pose proof (sw_lt_incomp_r HV _ _ _ E12 E13). congruence.
    + destruct (lessV v2 v3) eqn:E23; simpl in *.
      * pose proof (sw_lt_incomp_l HV _ _ _ E23 E13). congruence.
      * by rewrite (sw_negtrans HA _ _ _ H1 H2).
Qed.
End MaximaOrder.

Unset Implicit Arguments.
(** ** Facts about the two containers *)

Section Containers.
Context {A V : Type} (lessA : A -> A -> bool) (lessV : V -> V -> bool).
Context (HA : StrictWeak lessA) (HV : StrictWeak lessV).

Local Abbreviation point := (point_type A V).
Local Abbreviation mxlt := (ComparePointsByMaximaOrder lessA lessV).
Local Abbreviation mxeq := (mx_equiv lessA lessV).

(** The container invariants: the multiset is ordered by its comparator;
    after a completed operation the order is strict, so that arguments are
    unique.  The set is strictly ordered by the maxima order. *)
Definition arg_lt (p q : point) : Prop := lessA (arg p) (arg q) = true.
Definition fn_sorted (f : list point) : Prop := StronglySorted arg_lt f.
Definition mx_lt (p q : point) : Prop := mxlt p q = true.
Definition mx_sorted (m : list point) : Prop := StronglySorted mx_lt m.

Definition below (a : A) (l : list point) : Prop :=
  Forall (fun p => lessA (arg p) a = true) l.
Definition above (a : A) (l : list point) : Prop :=
  Forall (fun p => lessA a (arg p) = true) l.

Lemma mx_equiv_refl p : mxeq p p = true.
Proof.
  unfold mx_equiv. by rewrite (sw_irrefl (mxlt_StrictWeak HA HV)).
Qed.

Lemma mx_equiv_args p q : mxeq p q = true -> equivalentArguments lessA (arg p) (arg q) = true.
Proof.
  unfold mx_equiv, ComparePointsByMaximaOrder, equivalentValues, equivalentArguments.
  destruct (lessV (value q) (value p)), (lessV (value p) (value q)),
    (lessA (arg p) (arg q)), (lessA (arg q) (arg p)); simpl; done.
Qed.

Lemma mx_equiv_values p q : mxeq p q = true -> equivalentValues lessV (value p) (value q) = true.
Proof.
  unfold mx_equiv, ComparePointsByMaximaOrder, equivalentValues.
  destruct (lessV (value q) (value p)), (lessV (value p) (value q)); simpl; done.
Qed.

Lemma mx_lt_not_equiv p q : mxlt p q = true -> mxeq p q = false.
Proof. unfold mx_equiv. by intros ->. Qed.

Lemma mx_gt_not_equiv p q : mxlt q p = true -> mxeq p q = false.
Proof. unfold mx_equiv. intros ->. by rewrite andb_false_r. Qed.

Lemma arg_lt_not_equiv a b : lessA a b = true -> equivalentArguments lessA a b = false.
Proof. unfold equivalentArguments. by intros ->. Qed.

Lemma arg_gt_not_equiv a b : lessA b a = true -> equivalentArguments lessA a b = false.
Proof. unfold equivalentArguments. intros ->. by rewrite andb_false_r. Qed.

Lemma equivalentArguments_sym a b :
  equivalentArguments lessA a b = equivalentArguments lessA b a.
Proof. unfold equivalentArguments. apply andb_comm. Qed.

(** *** The function store *)

Lemma fn_upper_bound_le a (f : list point) : fn_upper_bound lessA a f <= length f.
Proof. induction f as [|p f IH]; simpl; [lia|]. destruct (lessA a (arg p)); lia. Qed.

Lemma delete_insert_at k pt (f : list point) :
  k <= length f -> delete k (insert_at k pt f) = f.
Proof.
  intros Hk. unfold insert_at.
  replace k with (length (take k f)) at 1 by (rewrite length_take; lia).
  rewrite delete_middle. apply take_drop.
Qed.

Lemma above_head a (f : list point) :
  fn_sorted f ->
  match f with
  | [] => True
  | p :: _ => lessA a (arg p) = true \/ (lessA a (arg p) = false /\ lessA (arg p) a = false)
  end ->
  match f with
  | [] => True
  | p :: f' => above a f'
  end.
Proof.
  destruct f as [|p f']; [done|].
  intros [Hp Hs]%StronglySorted_cons Ha.
  unfold above. eapply Forall_impl; [exact Hp|].
  intros q Hq. unfold arg_lt in Hq. simpl in Hq.
  destruct Ha as [Ha|[Ha1 Ha2]].
  - by apply (sw_trans HA _ _ _ Ha).
  - by apply (sw_lt_incomp_r HA _ _ _ Hq).
Qed.

(** How [find] and the insertion point split a strictly ordered store. *)
Inductive fn_split (a : A) (f : list point) : Prop :=
| fn_split_absent l1 l2 :
    f = l1 ++ l2 ->
    fn_find lessA a f = None ->
    fn_upper_bound lessA a f = length l1 ->
    below a l1 -> above a l2 ->
    fn_split a f
| fn_split_present l1 old l2 :
    f = l1 ++ old :: l2 ->
    fn_find lessA a f = Some (length l1) ->
    fn_upper_bound lessA a f = S (length l1) ->
    equivalentArguments lessA a (arg old) = true ->
    below a l1 -> above a l2 ->
    fn_split a f.

Lemma fn_find_cons_lt a p (f : list point) :
  lessA (arg p) a = true ->
  fn_find lessA a (p :: f) = S <$> fn_find lessA a f.
Proof.
  intros Hp. unfold fn_find. simpl. rewrite Hp. simpl.
  destruct (f !! fn_lower_bound lessA a f) as [q|]; [|done].
  by destruct (lessA a (arg q)).
Qed.

Lemma fn_split_total a (f : list point) : fn_sorted f -> fn_split a f.
Proof.
  induction f as [|p f IH]; intros Hs.
  { by apply fn_split_absent with (l1:=[]) (l2:=[]); try constructor. }
  pose proof Hs as [Hp Hs']%StronglySorted_cons.
  destruct (lessA (arg p) a) eqn:Hpa.
  - pose proof (sw_asym HA _ _ Hpa) as Hap.
    destruct (IH Hs') as [l1 l2 -> Hf Hu Hb Habove|l1 old l2 -> Hf Hu He Hb Habove].
    + apply fn_split_absent with (l1:=p :: l1) (l2:=l2); try done.
      * by rewrite fn_find_cons_lt, Hf.
      * simpl. by rewrite Hap, Hu.
      * by constructor.
    + apply fn_split_present with (l1:=p :: l1) (old:=old) (l2:=l2); try done.
      * by rewrite fn_find_cons_lt, Hf.
      * simpl. by rewrite Hap, Hu.
      * by constructor.
  - destruct (lessA a (arg p)) eqn:Hap.
    + apply fn_split_absent with (l1:=[]) (l2:=p :: f); try done.
      * unfold fn_find. simpl. rewrite Hpa. simpl. by rewrite Hap.
      * simpl. by rewrite Hap.
      * constructor.
      * constructor; [done|].
        apply (above_head a _ Hs). by left.
    + pose proof (above_head a _ Hs) as Hab. simpl in Hab.
      specialize (Hab (or_intror (conj Hap Hpa))).
      apply fn_split_present with (l1:=[]) (old:=p) (l2:=f); try done.
      * unfold fn_find. simpl. rewrite Hpa. simpl. by rewrite Hap.
      * simpl. rewrite Hap. f_equal.
        destruct f as [|q f']; [done|]. simpl.
        apply Forall_cons in Hab as [-> _]. done.
      * unfold equivalentArguments. by rewrite Hap, Hpa.
      * constructor.
Qed.

Lemma insert_at_app l1 pt (l2 : list point) :
  insert_at (length l1) pt (l1 ++ l2) = l1 ++ pt :: l2.
Proof.
  unfold insert_at. by rewrite take_app_length, drop_app_length.
Qed.

Lemma insert_at_after l1 old pt (l2 : list point) :
  insert_at (S (length l1)) pt (l1 ++ old :: l2) = l1 ++ old :: pt :: l2.
Proof.
  replace (l1 ++ old :: l2) with ((l1 ++ [old]) ++ l2) by (by rewrite <- app_assoc).
  replace (S (length l1)) with (length (l1 ++ [old])) by (rewrite length_app; simpl; lia).
  rewrite insert_at_app. by rewrite <- app_assoc.
Qed.

Lemma fn_sorted_replace a pt (l1 mid l2 : list point) :
  fn_sorted (l1 ++ mid ++ l2) ->
  below a l1 -> above a l2 ->
  equivalentArguments lessA a (arg pt) = true ->
  fn_sorted (l1 ++ pt :: l2).
Proof.
  intros Hs Hb Ha He.
  apply StronglySorted_app in Hs as (H12 & Hs1 & Hs2).
  apply StronglySorted_app in Hs2 as (_ & _ & Hs2).
  unfold equivalentArguments in He.
  apply andb_true_iff in He as [He1%negb_true_iff He2%negb_true_iff].
  apply StronglySorted_app. split_and!; [|done|].
  - intros x1 x2 Hx1 [->|Hx2]%elem_of_cons.
    + unfold below in Hb. rewrite Forall_forall in Hb.
      unfold arg_lt. apply (sw_lt_incomp_l HA _ _ _ (Hb _ Hx1) He2).
    + apply H12; [done|]. apply elem_of_app. by right.
  - apply StronglySorted_cons. split; [|done].
    unfold above in Ha. eapply Forall_impl; [exact Ha|].
    intros q Hq. unfold arg_lt. apply (sw_lt_incomp_r HA _ _ _ Hq He1).
Qed.

Lemma fn_sorted_remove (l1 mid l2 : list point) :
  fn_sorted (l1 ++ mid ++ l2) -> fn_sorted (l1 ++ l2).
Proof.
  intros Hs.
  apply StronglySorted_app in Hs as (H12 & Hs1 & Hs2).
  apply StronglySorted_app in Hs2 as (_ & _ & Hs2).
  apply StronglySorted_app. split_and!; [|done..].
  intros x1 x2 Hx1 Hx2. apply H12; [done|]. apply elem_of_app. by right.
Qed.

(** In a strictly ordered store a point is determined by its argument. *)
Lemma fn_sorted_lookup_lt (f : list point) i j p q :
  fn_sorted f -> f !! i = Some p -> f !! j = Some q -> i < j ->
  lessA (arg p) (arg q) = true.
Proof.
  intros Hs Hi Hj Hij.
  rewrite <- (take_drop j f) in Hs.
  apply StronglySorted_app in Hs as (H12 & _ & _).
  apply H12.
  - apply list_elem_of_lookup. exists i. by rewrite lookup_take_lt.
  - apply list_elem_of_lookup. exists 0. rewrite lookup_drop.
    by replace (j + 0) with j by lia.
Qed.

Lemma fn_sorted_lookup_inj (f : list point) i j p q :
  fn_sorted f -> f !! i = Some p -> f !! j = Some q ->
  equivalentArguments lessA (arg p) (arg q) = true -> i = j.
Proof.
  intros Hs Hi Hj He.
  destruct (decide (i = j)) as [|Hne]; [done|].
  destruct (decide (i < j)).
  - rewrite arg_lt_not_equiv in He; [done|]. by eapply fn_sorted_lookup_lt.
  - rewrite arg_gt_not_equiv in He; [done|].
    eapply (fn_sorted_lookup_lt _ j i); eauto. lia.
Qed.

Lemma fn_sorted_elem_inj (f : list point) p q :
  fn_sorted f -> p ∈ f -> q ∈ f ->
  equivalentArguments lessA (arg p) (arg q) = true -> p = q.
Proof.
  intros Hs [i Hi]%list_elem_of_lookup [j Hj]%list_elem_of_lookup He.
  assert (i = j) as -> by (by eapply fn_sorted_lookup_inj).
  congruence.
Qed.

(** *** The set of local maxima *)

Lemma mx_find_Some p q (m : list point) : mx_find lessA lessV p m = Some q -> q ∈ m /\ mxeq p q = true.
Proof.
  induction m as [|x m IH]; simpl; [done|].
  destruct (mxlt x p) eqn:E1.
  - intros [? ?]%IH. split; [by right|done].
  - destruct (mxlt p x) eqn:E2; [done|].
    intros [= ->]. split; [by left|]. unfold mx_equiv. by rewrite E1, E2.
Qed.

Lemma mx_find_None p (m : list point) :
  mx_sorted m -> mx_find lessA lessV p m = None ->
  Forall (fun q => mxeq p q = false) m.
Proof.
  induction m as [|x m IH]; simpl; [by constructor|].
  intros [Hx Hs]%StronglySorted_cons.
  destruct (mxlt x p) eqn:E1.
  - intros Hf. constructor; [by apply mx_gt_not_equiv|by apply IH].
  - destruct (mxlt p x) eqn:E2; [|done].
    intros _. constructor; [by apply mx_lt_not_equiv|].
    eapply Forall_impl; [exact Hx|].
    intros q Hq. apply mx_lt_not_equiv.
    apply (sw_trans (mxlt_StrictWeak HA HV) _ _ _ E2 Hq).
Qed.

Lemma mx_find_is_None p (m : list point) :
  Forall (fun q => mxeq p q = false) m -> mx_find lessA lessV p m = None.
Proof.
  intros Hall. destruct (mx_find lessA lessV p m) as [q|] eqn:E; [|done].
  apply mx_find_Some in E as [Hq He].
  rewrite Forall_forall in Hall. rewrite (Hall _ Hq) in He. done.
Qed.

Lemma mx_find_elem p (m : list point) :
  mx_sorted m -> p ∈ m -> mx_find lessA lessV p m = Some p.
Proof.
  induction m as [|x m IH]; simpl; [by intros _ ?%elem_of_nil|].
  intros [Hx Hs]%StronglySorted_cons [->|Hp]%elem_of_cons.
  - by rewrite (sw_irrefl (mxlt_StrictWeak HA HV)).
  - rewrite Forall_forall in Hx. pose proof (Hx _ Hp) as Hxp.
    unfold mx_lt in Hxp. rewrite Hxp. by apply IH.
Qed.

Lemma mx_insert_elem p (m : list point) x :
  mx_find lessA lessV p m = None ->
  x ∈ (mx_insert lessA lessV p m).1 <-> x = p \/ x ∈ m.
Proof.
  induction m as [|q m IH]; simpl.
  { intros _. set_solver. }
  destruct (mxlt q p) eqn:E1; simpl.
  - intros Hf. rewrite !elem_of_cons, (IH Hf). tauto.
  - destruct (mxlt p q) eqn:E2; [|done].
    intros _. simpl. by rewrite !elem_of_cons.
Qed.

Lemma mx_insert_iter p (m : list point) :
  mx_find lessA lessV p m = None -> (mx_insert lessA lessV p m).2 = Some p.
Proof.
  induction m as [|q m IH]; simpl; [done|].
  destruct (mxlt q p) eqn:E1; simpl; [done|].
  by destruct (mxlt p q) eqn:E2.
Qed.

Lemma mx_insert_sorted p (m : list point) :
  mx_sorted m -> mx_find lessA lessV p m = None ->
  mx_sorted (mx_insert lessA lessV p m).1.
Proof.
  induction m as [|q m IH]; simpl.
  { intros _ _. repeat constructor. }
  intros Hs. pose proof Hs as [Hq Hs']%StronglySorted_cons.
  destruct (mxlt q p) eqn:E1; simpl.
  - intros Hf. apply StronglySorted_cons. split; [|by apply IH].
    apply Forall_forall. intros x [->|Hx]%(mx_insert_elem _ _ _ Hf); [done|].
    rewrite Forall_forall in Hq. by apply Hq.
  - destruct (mxlt p q) eqn:E2; [|done].
    intros _. simpl. apply StronglySorted_cons. split; [|done].
    constructor; [done|].
    eapply Forall_impl; [exact Hq|].
    intros x Hx. apply (sw_trans (mxlt_StrictWeak HA HV) _ _ _ E2 Hx).
Qed.

Lemma filter_all {X} (P : X -> Prop) `{!forall x, Decision (P x)} (l : list X) :
  Forall P l -> filter P l = l.
Proof.
  induction 1 as [|x l Hx Hl IH]; [done|].
  rewrite filter_cons_True by done. by rewrite IH.
Qed.

(** Erasing what was just inserted restores the set: the roll-back of a
    guard. *)
Lemma mx_insert_rollback p (m : list point) :
  mx_sorted m -> mx_find lessA lessV p m = None ->
  filter (fun x => mxeq p x = false) (mx_insert lessA lessV p m).1 = m.
Proof.
  induction m as [|q m IH]; simpl.
  { intros _ _. rewrite filter_cons_False; [done|]. by rewrite mx_equiv_refl. }
  intros Hs. pose proof Hs as [Hq Hs']%StronglySorted_cons.
  destruct (mxlt q p) eqn:E1; simpl.
  - intros Hf. rewrite filter_cons_True by (by apply mx_gt_not_equiv).
    by rewrite IH.
  - destruct (mxlt p q) eqn:E2; [|done].
    intros _. simpl.
    rewrite filter_cons_False by (by rewrite mx_equiv_refl).
    apply filter_all. apply mx_find_None; [done|]. simpl. by rewrite E1, E2.
Qed.

Lemma mx_sorted_filter (P : point -> Prop) `{!forall x, Decision (P x)} m :
  mx_sorted m -> mx_sorted (filter P m).
Proof.
  induction 1 as [|x l Hs IH Hx]; [constructor|].
  rewrite filter_cons. destruct (decide (P x)); [|done].
  constructor; [done|].
  apply Forall_forall. intros y [_ Hy]%list_elem_of_filter.
  rewrite Forall_forall in Hx. by apply Hx.
Qed.

Lemma mx_sorted_elem_inj (m : list point) p q :
  mx_sorted m -> p ∈ m -> q ∈ m -> mxeq p q = true -> p = q.
Proof.
  induction 1 as [|x l Hs IH Hx]; intros Hp Hq He; [by apply elem_of_nil in Hp|].
  rewrite Forall_forall in Hx.
  apply elem_of_cons in Hp as [->|Hp]; apply elem_of_cons in Hq as [->|Hq].
  - done.
  - rewrite mx_lt_not_equiv in He; [done|]. by apply Hx.
  - rewrite mx_gt_not_equiv in He; [done|]. by apply Hx.
  - by apply IH.
Qed.

Lemma mx_sorted_unique (m1 m2 : list point) :
  mx_sorted m1 -> mx_sorted m2 -> (forall x, x ∈ m1 <-> x ∈ m2) -> m1 = m2.
Proof.
  intros Hs1. revert m2.
  induction Hs1 as [|x1 l1 Hs1 IH Hx1]; intros m2 Hs2 Hiff.
  { destruct m2 as [|y m2]; [done|].
    exfalso. eapply elem_of_nil. apply Hiff. by left. }
  destruct Hs2 as [|x2 l2 Hs2 Hx2].
  { exfalso. eapply elem_of_nil. apply Hiff. by left. }
  rewrite Forall_forall in Hx1, Hx2.
  pose proof (sw_irrefl (mxlt_StrictWeak HA HV)) as Hirr.
  assert (x1 = x2) as ->.
  { assert (x1 ∈ x2 :: l2) as [->|H1]%elem_of_cons by (apply Hiff; by left); [done|].
    assert (x2 ∈ x1 :: l1) as [->|H2]%elem_of_cons by (apply Hiff; by left); [done|].
    pose proof (Hx1 _ H2) as Ha. pose proof (Hx2 _ H1) as Hb.
    unfold mx_lt in *.
    rewrite (sw_asym (mxlt_StrictWeak HA HV) _ _ Ha) in Hb. done. }
  f_equal. apply IH; [done|].
  intros x. split; intros Hx.
  - assert (x ∈ x2 :: l2) as [->|H]%elem_of_cons by (apply Hiff; by right); [|done].
    pose proof (Hx1 _ Hx) as Ha. unfold mx_lt in Ha. by rewrite Hirr in Ha.
  - assert (x ∈ x2 :: l1) as [->|H]%elem_of_cons by (apply Hiff; by right); [|done].
    pose proof (Hx2 _ Hx) as Ha. unfold mx_lt in Ha. by rewrite Hirr in Ha.
Qed.

End Containers.

(** ** A program logic for the fault-injecting monad

    [spec m s Q R]: started in [s] without faults, [m] returns a result and a
    state satisfying [Q]; under a fault plan it either returns that same
    result and state with the fault still pending, or the fault fires, [m]
    throws [Failure] and leaves a state that satisfies [R]. *)

Section Logic.
Context {St : Type}.

Definition spec {X} (m : M St X) (s : St) (Q : X -> St -> Prop) (R : St -> Prop) : Prop :=
  exists x s',
    m s None = (Returns x, s', None) /\ Q x s' /\
    forall n,
      (exists n', m s (Some n) = (Returns x, s', Some n')) \/
      (exists sf, m s (Some n) = (Throws Failure, sf, None) /\ R sf).

Lemma spec_ret {X} (x : X) s (Q : X -> St -> Prop) R :
  Q x s -> spec (ret x) s Q R.
Proof. intros HQ. exists x, s. split_and!; [done..|]. intros n. left. by exists n. Qed.

Lemma spec_gets {X} (f : St -> X) s (Q : X -> St -> Prop) R :
  Q (f s) s -> spec (gets f) s Q R.
Proof. intros HQ. exists (f s), s. split_and!; [done..|]. intros n. left. by exists n. Qed.

Lemma spec_modify (f : St -> St) s (Q : unit -> St -> Prop) R :
  Q tt (f s) -> spec (modify f) s Q R.
Proof. intros HQ. exists tt, (f s). split_and!; [done..|]. intros n. left. by exists n. Qed.

Lemma spec_fallible s (Q : unit -> St -> Prop) (R : St -> Prop) :
  Q tt s -> R s -> spec fallible s Q R.
Proof.
  intros HQ HR. exists tt, s. split_and!; [done..|].
  intros [|n]; simpl.
  - right. by exists s.
  - left. by exists n.
Qed.

Lemma spec_ret_eq {X} (x : X) s R :
  spec (ret x) s (fun r s' => s' = s /\ r = x) R.
Proof. by apply spec_ret. Qed.

Lemma spec_gets_eq {X} (f : St -> X) s R :
  spec (gets f) s (fun r s' => s' = s /\ r = f s) R.
Proof. by apply spec_gets. Qed.

Lemma spec_modify_eq (f : St -> St) s R :
  spec (modify f) s (fun _ s' => s' = f s) R.
Proof. by apply spec_modify. Qed.

Lemma spec_fallible_eq s (R : St -> Prop) :
  R s -> spec fallible s (fun _ s' => s' = s) R.
Proof. intros HR. by apply spec_fallible. Qed.

Lemma spec_bind {X Y} (m : M St X) (f : X -> M St Y) s Q1 (Q : Y -> St -> Prop) R :
  spec m s Q1 R ->
  (forall x s', Q1 x s' -> spec (f x) s' Q R) ->
  spec (bind m f) s Q R.
Proof.
  intros (x & s1 & Hm & HQ1 & Hk) Hf.
  destruct (Hf x s1 HQ1) as (y & s2 & Hfy & HQ & Hfk).
  exists y, s2. split_and!; [|done|].
  - unfold bind. by rewrite Hm.
  - intros n. unfold bind.
    destruct (Hk n) as [[n1 Hr]|(sf & Ht & HR)].
    + rewrite Hr. apply Hfk.
    + rewrite Ht. right. by exists sf.
Qed.

Lemma spec_on_unwind {X} (m : M St X) (h : St -> St) s (Q : X -> St -> Prop) R :
  spec m s Q (fun sf => R (h sf)) -> spec (on_unwind m h) s Q R.
Proof.
  intros (x & s1 & Hm & HQ & Hk).
  exists x, s1. split_and!; [|done|].
  - unfold on_unwind. by rewrite Hm.
  - intros n. unfold on_unwind.
    destruct (Hk n) as [[n1 Hr]|(sf & Ht & HR)].
    + rewrite Hr. left. by exists n1.
    + rewrite Ht. right. by exists (h sf).
Qed.

Lemma spec_conseq {X} (m : M St X) s (Q Q' : X -> St -> Prop) (R R' : St -> Prop) :
  spec m s Q R ->
  (forall x s', Q x s' -> Q' x s') ->
  (forall sf, R sf -> R' sf) ->
  spec m s Q' R'.
Proof.
  intros (x & s1 & Hm & HQ & Hk) HQQ HRR.
  exists x, s1. split_and!; [done|by apply HQQ|].
  intros n. destruct (Hk n) as [[n1 Hr]|(sf & Ht & HR)]; [left; by exists n1|].
  right. exists sf. split; [done|by apply HRR].
Qed.

(** Read-only steps: lookups and comparisons.  They leave the state alone
    and, when they return, return what the fault-free run returns. *)
Definition readonly {X} (m : M St X) : Prop :=
  forall s, spec m s (fun _ s' => s' = s) (fun sf => sf = s).

Lemma readonly_ret {X} (x : X) : readonly (ret x).
Proof. intros s. by apply spec_ret. Qed.

Lemma readonly_gets {X} (f : St -> X) : readonly (gets f).
Proof. intros s. by apply spec_gets. Qed.

Lemma readonly_fallible : readonly (@fallible St).
Proof. intros s. by apply spec_fallible. Qed.

Lemma readonly_bind {X Y} (m : M St X) (f : X -> M St Y) :
  readonly m -> (forall x, readonly (f x)) -> readonly (bind m f).
Proof.
  intros Hm Hf s. eapply spec_bind; [apply Hm|].
  intros x s' ->. apply Hf.
Qed.

Lemma readonly_may_throw {X} (x : X) : readonly (@may_throw St X x).
Proof. apply readonly_bind; [apply readonly_fallible|]. intros _. apply readonly_ret. Qed.

(** Using a read-only step inside a larger program: the state is unchanged
    and the result is the one of the fault-free run. *)
Lemma spec_readonly {X} (m : M St X) s (R : St -> Prop) :
  readonly m -> R s ->
  spec m s (fun x s' => s' = s /\ m s None = (Returns x, s, None)) R.
Proof.
  intros Hm HR. destruct (Hm s) as (x & s1 & Hrun & -> & Hk).
  exists x, s. split_and!; [done..|].
  intros n. destruct (Hk n) as [[n1 Hr]|(sf & Ht & ->)]; [left; by exists n1|].
  right. by exists s.
Qed.

(** What [spec] says about the run under a given fault plan: the run
    returns, as the fault-free run does, and the fault (if any) is still
    pending; or the fault has fired and the run throws [Failure]. *)
Inductive run_cases {X} (m : M St X) (s : St) (Q : X -> St -> Prop) (R : St -> Prop)
    (k : faults) : Prop :=
| run_returns x s' k' :
    m s k = (Returns x, s', k') ->
    m s None = (Returns x, s', None) ->
    Q x s' ->
    (k = None <-> k' = None) ->
    run_cases m s Q R k
| run_throws sf :
    m s k = (Throws Failure, sf, None) ->
    R sf ->
    k <> None ->
    run_cases m s Q R k.

Lemma spec_run {X} (m : M St X) s (Q : X -> St -> Prop) R k :
  spec m s Q R -> run_cases m s Q R k.
Proof.
  intros (x & s1 & Hm & HQ & Hk).
  destruct k as [n|].
  - destruct (Hk n) as [[n1 Hr]|(sf & Ht & HR)].
    + by eapply run_returns.
    + by eapply run_throws.
  - by eapply run_returns.
Qed.
End Logic.

(** ** The local-maximum predicate of the specification *)

Section LocalMaximum.
Context {A V : Type} (lessA : A -> A -> bool) (lessV : V -> V -> bool).

Local Abbreviation point := (point_type A V).
Local Abbreviation impl := (FunctionMaximaImpl A V).

Definition left_neighbour (f : list point) (i : nat) : option point :=
  match i with
  | 0 => None
  | S j => f !! j
  end.

Definition right_neighbour (f : list point) (i : nat) : option point := f !! S i.

(** "[P] has no neighbour on that side, or the neighbour's value is [<=]
    [P]'s value". *)
Definition not_above (nb : option point) (p : point) : bool :=
  match nb with
  | None => true
  | Some q => valueLessOrEqual lessV (value q) (value p)
  end.

Definition local_maximum (f : list point) (i : nat) : bool :=
  match f !! i with
  | Some p => not_above (left_neighbour f i) p && not_above (right_neighbour f i) p
  | None => false
  end.

(** The full rescan of the store: the local maxima, put in maxima order. *)
Definition maxima_of (f : list point) : list point :=
  omap (fun i => if local_maximum f i then f !! i else None) (seq 0 (length f)).

Definition rescan (f : list point) : list point :=
  foldr (fun p acc => (mx_insert lessA lessV p acc).1) [] (maxima_of f).

Definition is_maximum_of (f : list point) (x : point) : Prop :=
  exists i, f !! i = Some x /\ local_maximum f i = true.

(** The store seen when the element at [ignore] is left out, and where a
    position of the store lands in it. *)
Definition without (ignore : iterator) (f : list point) : list point :=
  match ignore with
  | Some i => delete i f
  | None => f
  end.

Definition shift (ignore : iterator) (j : nat) : nat :=
  match ignore with
  | Some i => if decide (j < i) then j else pred j
  | None => j
  end.

Definition valid_iter (f : list point) (it : iterator) : Prop :=
  match it with
  | Some i => i < length f
  | None => True
  end.

Lemma lookup_without f ig j :
  Some j <> ig -> without ig f !! shift ig j = f !! j.
Proof.
  destruct ig as [i|]; simpl; [|done].
  intros Hne. assert (j <> i) by congruence.
  destruct (decide (j < i)).
  - by apply list_lookup_delete_lt.
  - rewrite list_lookup_delete_ge by lia. f_equal. lia.
Qed.

(** *** Fault-free runs of the read-only helpers *)

Lemma find_nofault a (s : impl) :
  find lessA a s None = (Returns (fn_find lessA a (function s)), s, None).
Proof. done. Qed.

Lemma mxFind_nofault it (s : impl) :
  mxFind lessA lessV it s None =
    (Returns (match deref (function s) it with
              | Some p => mx_find lessA lessV p (localMaxima s)
              | None => None
              end), s, None).
Proof. unfold mxFind, bind, gets. by destruct (deref (function s) it). Qed.

Lemma neighbourCondition_nofault nb p (s : impl) :
  neighbourCondition lessV nb p s None = (Returns (not_above nb p), s, None).
Proof. by destruct nb. Qed.

Lemma firstMaximaCondition_nofault j ig (s : impl) p :
  Some j <> ig -> valid_iter (function s) ig ->
  function s !! j = Some p ->
  firstMaximaCondition lessV (Some j) ig s None =
    (Returns (not_above (left_neighbour (without ig (function s)) (shift ig j)) p), s, None).
Proof.
  intros Hne Hv Hp. unfold firstMaximaCondition, bind, gets. simpl. rewrite Hp.
  destruct s as [f m]. simpl in *.
  destruct j as [|j].
  { assert (fn_begin f = Some 0) as -> by (by destruct f).
    rewrite decide_True by done.
    destruct ig as [i|]; simpl; [|done].
    destruct (decide (0 < i)); done. }
  rewrite decide_False by (destruct f; simpl; congruence).
  rewrite neighbourCondition_nofault. simpl. do 3 f_equal.
  destruct ig as [i|]; simpl.
  - assert (S j <> i) by congruence.
    destruct (decide (j = i)) as [->|Hji].
    + rewrite decide_True by done. rewrite decide_False by lia. simpl.
      unfold safePrev. destruct i as [|i]; simpl.
      * assert (fn_begin f = Some 0) as -> by (destruct f; simpl in *; [lia|done]).
        rewrite decide_False by tauto. done.
      * rewrite decide_True by (destruct f; simpl; naive_solver).
        simpl. by rewrite list_lookup_delete_lt by lia.
    + rewrite decide_False by congruence. simpl.
      destruct (decide (S j < i)).
      * simpl. by rewrite list_lookup_delete_lt by lia.
      * simpl. assert (i < j) by lia. destruct j as [|j]; [lia|]. simpl.
        by rewrite list_lookup_delete_ge by lia.
  - done.
Qed.

Lemma secondMaximaCondition_nofault j ig (s : impl) p :
  Some j <> ig -> valid_iter (function s) ig ->
  function s !! j = Some p ->
  secondMaximaCondition lessV (Some j) ig s None =
    (Returns (not_above (right_neighbour (without ig (function s)) (shift ig j)) p), s, None).
Proof.
  intros Hne Hv Hp. unfold secondMaximaCondition, bind, gets. simpl. rewrite Hp.
  destruct s as [f m]. simpl in *.
  rewrite neighbourCondition_nofault. do 3 f_equal.
  unfold right_neighbour. f_equal.
  destruct ig as [i|]; simpl in *.
  - assert (j <> i) by congruence.
    destruct (decide (S j < length f)) as [Hlt|Hge].
    + destruct (decide (S j = i)) as [<-|Hji].
      * rewrite decide_True by done. rewrite decide_True by lia.
        unfold safeNext. rewrite decide_True by done. simpl.
        rewrite list_lookup_delete_ge by lia.
        destruct (decide (S (S j) < length f)); simpl; [done|].
        symmetry. apply lookup_ge_None. lia.
      * rewrite decide_False by congruence. simpl.
        destruct (decide (j < i)).
        -- by rewrite list_lookup_delete_lt by lia.
        -- rewrite list_lookup_delete_ge by lia. f_equal. lia.
    + rewrite decide_False by done. unfold safeNext. simpl.
      symmetry. apply lookup_ge_None. rewrite length_delete by (apply lookup_lt_is_Some; lia).
      destruct (decide (j < i)); lia.
  - destruct (decide (S j < length f)) as [Hlt|Hge].
    + by rewrite decide_False by done.
    + rewrite decide_True by done. unfold safeNext. simpl.
      symmetry. apply lookup_ge_None. lia.
Qed.

Lemma isLocalMaxima_end ig (s : impl) :
  isLocalMaxima lessV None ig s None = (Returns false, s, None).
Proof. unfold isLocalMaxima. by case_decide. Qed.

Lemma isLocalMaxima_nofault j ig (s : impl) :
  Some j <> ig -> valid_iter (function s) ig ->
  isLocalMaxima lessV (Some j) ig s None =
    (Returns (local_maximum (without ig (function s)) (shift ig j)), s, None).
Proof.
  intros Hne Hv. unfold isLocalMaxima. rewrite decide_False by done.
  unfold local_maximum. rewrite lookup_without by done.
  destruct (function s !! j) as [p|] eqn:Hp.
  - unfold bind. rewrite (firstMaximaCondition_nofault _ _ _ p) by done.
    destruct (not_above _ p); simpl; [|done].
    by rewrite (secondMaximaCondition_nofault _ _ _ p) by done.
  - unfold bind, firstMaximaCondition, bind, gets. simpl. by rewrite Hp.
Qed.

(** *** The helpers are read-only *)

Lemma readonly_find a : readonly (find lessA (V:=V) a).
Proof.
  apply readonly_bind; [apply readonly_gets|]. intros f. apply readonly_may_throw.
Qed.

Lemma readonly_new_point a v : readonly (@new_point A V impl a v).
Proof.
  repeat (apply readonly_bind; [apply readonly_fallible|]; intros _).
  apply readonly_ret.
Qed.

Lemma readonly_mxFind it : readonly (mxFind lessA lessV it).
Proof.
  apply readonly_bind; [apply readonly_gets|]. intros f.
  destruct (deref f it); [|apply readonly_ret].
  apply readonly_bind; [apply readonly_gets|]. intros m. apply readonly_may_throw.
Qed.

Lemma readonly_neighbourCondition nb p : readonly (@neighbourCondition A V lessV nb p).
Proof. destruct nb; [apply readonly_may_throw|apply readonly_ret]. Qed.

Lemma readonly_isLocalMaxima it ig : readonly (@isLocalMaxima A V lessV it ig).
Proof.
  unfold isLocalMaxima. destruct (decide (it = ig)); [apply readonly_ret|].
  apply readonly_bind.
  - apply readonly_bind; [apply readonly_gets|]. intros f.
    destruct (deref f it); [|apply readonly_ret].
    destruct (decide _); [apply readonly_ret|apply readonly_neighbourCondition].
  - intros [|]; [|apply readonly_ret].
    apply readonly_bind; [apply readonly_gets|]. intros f.
    destruct (deref f it); [|apply readonly_ret].
    apply readonly_neighbourCondition.
Qed.

End LocalMaximum.

(** ** The transaction guard *)

Section Guard.
Context {A V : Type} (lessA : A -> A -> bool) (lessV : V -> V -> bool).
Context (HA : StrictWeak lessA) (HV : StrictWeak lessV).

Local Abbreviation point := (point_type A V).
Local Abbreviation impl := (FunctionMaximaImpl A V).
Local Abbreviation mxeq := (mx_equiv lessA lessV).

(** What a guard for the point [tgt], whose status after the update is
    [b], does to the set of maxima: at construction ([guard_in]) and which
    node it erases once [done()] was called ([guard_out]). *)
Definition guard_in (b : bool) (tgt : option point) (m : list point) : list point :=
  match tgt with
  | Some p =>
      if b && bool_decide (mx_find lessA lessV p m = None)
      then (mx_insert lessA lessV p m).1 else m
  | None => m
  end.

Definition guard_out (b : bool) (tgt : option point) (m : list point) : mx_iterator :=
  match tgt with
  | Some p => if b then None else mx_find lessA lessV p m
  | None => None
  end.

Definition erase_node (q : mx_iterator) (m : list point) : list point :=
  match q with
  | Some q => filter (fun x => mxeq q x = false) m
  | None => m
  end.

Lemma mx_erase_eq q (s : impl) :
  mx_erase lessA lessV q s = Impl (function s) (erase_node q (localMaxima s)).
Proof. destruct q, s; done. Qed.

Lemma guard_in_sorted b tgt m : mx_sorted lessA lessV m -> mx_sorted lessA lessV (guard_in b tgt m).
Proof.
  intros Hm. destruct tgt as [p|]; simpl; [|done].
  destruct b; simpl; [|done].
  case_bool_decide; [|done]. by apply mx_insert_sorted.
Qed.

Lemma erase_node_sorted q m : mx_sorted lessA lessV m -> mx_sorted lessA lessV (erase_node q m).
Proof.
  intros Hm. destruct q as [q|]; simpl; [|done].
  by apply mx_sorted_filter.
Qed.

(** The status the guard computes for the position [it]. *)
Definition status_at (f : list point) (it ignore : iterator) : bool :=
  match it with
  | Some j => local_maximum lessV (without ignore f) (shift ignore j)
  | None => false
  end.

Lemma isLocalMaxima_status it ig (s : impl) :
  it <> ig -> valid_iter (function s) ig ->
  isLocalMaxima lessV it ig s None = (Returns (status_at (function s) it ig), s, None).
Proof.
  intros Hne Hv. destruct it as [j|]; simpl.
  - by apply isLocalMaxima_nofault.
  - apply isLocalMaxima_end.
Qed.

Lemma status_at_deref f it ig :
  it <> ig -> status_at f it ig = true -> is_Some (deref f it).
Proof.
  destruct it as [j|]; simpl; [|done].
  intros Hne. unfold local_maximum. rewrite lookup_without by done.
  by destruct (f !! j).
Qed.

Lemma spec_localMaxima_insert p (s : impl) (R : impl -> Prop) :
  R s ->
  spec (localMaxima_insert lessA lessV p) s
    (fun r s' => s' = Impl (function s) (mx_insert lessA lessV p (localMaxima s)).1 /\
                 r = (mx_insert lessA lessV p (localMaxima s)).2) R.
Proof.
  intros HR. unfold localMaxima_insert.
  eapply spec_bind; [by apply spec_fallible_eq|].
  intros [] ? ->.
  eapply spec_bind; [apply spec_gets_eq|].
  intros m ? [-> ->].
  eapply spec_bind; [apply spec_modify_eq|].
  intros [] ? ->. by apply spec_ret.
Qed.

(** The constructor either throws and changes nothing, or returns a guard
    whose destructor, as long as [done()] was not called, undoes what the
    constructor did. *)
Lemma guard_ctor_spec it ig (s : impl) (R : impl -> Prop) :
  mx_sorted lessA lessV (localMaxima s) ->
  valid_iter (function s) ig ->
  (it = ig -> it = None) ->
  R s ->
  spec (guard_ctor lessA lessV it ig) s
    (fun g s' =>
       let b := status_at (function s) it ig in
       let tgt := deref (function s) it in
       s' = Impl (function s) (guard_in b tgt (localMaxima s)) /\
       guard_dtor lessA lessV g s' = s /\
       forall s'', guard_dtor lessA lessV (done g) s'' =
                   mx_erase lessA lessV (guard_out b tgt (localMaxima s)) s'')
    R.
Proof.
  intros Hm Hv Hit HR. unfold guard_ctor.
  destruct s as [f m]. simpl in *.
  destruct (decide (it = ig)) as [Heq|Hne].
  { rewrite (Hit Heq). apply spec_ret. simpl. done. }
  eapply spec_bind; [apply spec_readonly; [apply readonly_mxFind|exact HR]|].
  intros mxIt ? [-> HmxIt]. rewrite mxFind_nofault in HmxIt. simpl in HmxIt.
  injection HmxIt as <-.
  eapply spec_bind; [apply spec_readonly; [apply readonly_isLocalMaxima|exact HR]|].
  intros isMax ? [-> HisMax]. rewrite isLocalMaxima_status in HisMax by done.
  simpl in HisMax. injection HisMax as <-.
  destruct (status_at f it ig) eqn:Hb.
  - destruct (status_at_deref _ _ _ Hne Hb) as [p Hp]. rewrite Hp.
    destruct (mx_find lessA lessV p m) as [q|] eqn:Hfind.
    + rewrite bool_decide_true by done. simpl.
      apply spec_ret. simpl. rewrite Hfind.
      rewrite bool_decide_false by done. done.
    + rewrite bool_decide_false by (intros H; by apply H). simpl.
      eapply spec_bind; [apply spec_gets_eq|].
      intros ? ? [-> ->]. simpl. rewrite Hp.
      eapply spec_bind; [by apply spec_localMaxima_insert|].
      intros r ? [-> ->]. simpl.
      apply spec_ret. simpl. rewrite Hfind.
      rewrite bool_decide_true by done. split_and!; [done| |done].
      rewrite mx_insert_iter by done. unfold guard_dtor. simpl.
      by rewrite mx_insert_rollback.
  - destruct (deref f it) as [p|] eqn:Hp.
    + destruct (mx_find lessA lessV p m) as [q|] eqn:Hfind.
      * rewrite bool_decide_true by done. simpl.
        apply spec_ret. simpl. by rewrite Hfind.
      * rewrite bool_decide_false by (intros H; by apply H). simpl.
        apply spec_ret. simpl. by rewrite Hfind.
    + rewrite bool_decide_false by (intros H; by apply H). simpl.
      by apply spec_ret.
Qed.

(** *** The [try] block of [set_value] *)

Definition adjust3 (m : list point)
    (tN : option point) (bN : bool) (tC : option point) (bC : bool)
    (tP : option point) (bP : bool) : list point :=
  let m1 := guard_in bN tN m in
  let m2 := guard_in bC tC m1 in
  let m3 := guard_in bP tP m2 in
  erase_node (guard_out bN tN m)
    (erase_node (guard_out bC tC m1)
       (erase_node (guard_out bP tP m2) m3)).

Definition three_guards (f : list point) (m : list point)
    (posN posC posP ig : iterator) : list point :=
  adjust3 m (deref f posN) (status_at f posN ig)
            (deref f posC) (status_at f posC ig)
            (deref f posP) (status_at f posP ig).

Lemma set_value_try_spec fnIt it (s : impl) :
  let posN := safeNextWithAvoid (function s) fnIt it in
  let posP := safePrevWithAvoid (function s) fnIt it in
  mx_sorted lessA lessV (localMaxima s) ->
  valid_iter (function s) it ->
  (posN = it -> posN = None) ->
  (fnIt = it -> fnIt = None) ->
  (posP = it -> posP = None) ->
  spec (set_value_try lessA lessV fnIt it) s
    (fun _ s' => s' = Impl (function s)
                         (three_guards (function s) (localMaxima s) posN fnIt posP it))
    (fun sf => sf = s).
Proof.
  intros posN posP Hm Hv HN HC HP. unfold set_value_try.
  destruct s as [f m]. simpl in *.
  eapply spec_bind; [apply spec_gets_eq|].
  intros ? ? [-> ->]. simpl.
  eapply spec_bind; [by apply guard_ctor_spec|].
  intros g1 s1 (-> & Hr1 & Hd1). simpl in *.
  apply spec_on_unwind.
  eapply spec_bind.
  { apply guard_ctor_spec; simpl; [by apply guard_in_sorted|done..]. }
  intros g2 s2 (-> & Hr2 & Hd2). simpl in *.
  apply spec_on_unwind.
  eapply spec_bind; [apply spec_gets_eq|].
  intros ? ? [-> ->]. simpl.
  eapply spec_bind.
  { apply guard_ctor_spec; simpl; [by do 2 apply guard_in_sorted|done..|].
    by rewrite Hr2. }
  intros g3 s3 (-> & Hr3 & Hd3). simpl in *.
  eapply spec_bind; [apply spec_modify_eq|].
  intros [] ? ->.
  eapply spec_bind; [apply spec_modify_eq|].
  intros [] ? ->.
  apply spec_modify.
  rewrite Hd1, Hd2, Hd3. by rewrite !mx_erase_eq.
Qed.

End Guard.

(** ** What the guards do to the set of maxima *)

Section GuardEffect.
Context {A V : Type} (lessA : A -> A -> bool) (lessV : V -> V -> bool).
Context (HA : StrictWeak lessA) (HV : StrictWeak lessV).

Local Abbreviation point := (point_type A V).
Local Abbreviation mxeq := (mx_equiv lessA lessV).
Local Abbreviation msorted := (mx_sorted lessA lessV).
Local Abbreviation gin := (guard_in lessA lessV).
Local Abbreviation gout := (guard_out lessA lessV).
Local Abbreviation enode := (erase_node lessA lessV).

(** A universe of points in which equivalent points are equal: the points
    of the store before and after an update. *)
Definition coherent (U : list point) : Prop :=
  forall x y, x ∈ U -> y ∈ U -> mxeq x y = true -> x = y.

Definition within (U : list point) (t : option point) : Prop :=
  forall p, t = Some p -> p ∈ U.

Section Universe.
Context (U : list point) (HU : coherent U).

Lemma coherent_eq_dec x y : x ∈ U -> y ∈ U -> x = y \/ x <> y.
Proof.
  intros Hx Hy. destruct (mxeq x y) eqn:E.
  - left. by apply HU.
  - right. intros ->. by rewrite mx_equiv_refl in E by done.
Qed.

Lemma target_dec t x : within U t -> x ∈ U -> t = Some x \/ t <> Some x.
Proof.
  intros Ht Hx. destruct t as [p|]; [|by right].
  destruct (coherent_eq_dec p x) as [->|Hne]; [by apply Ht|done|by left|].
  right. congruence.
Qed.

Lemma mx_find_coherent p m :
  msorted m -> m ⊆ U -> p ∈ U ->
  (p ∈ m /\ mx_find lessA lessV p m = Some p) \/
  ((p ∉ m) /\ mx_find lessA lessV p m = None).
Proof.
  intros Hm Hsub Hp.
  destruct (mx_find lessA lessV p m) as [q|] eqn:E.
  - left. apply mx_find_Some in E as [Hq He].
    assert (p = q) as <- by (apply HU; [done|by apply Hsub|done]). done.
  - right. split; [|done]. intros Hin.
    rewrite mx_find_elem in E by done. done.
Qed.

Lemma guard_in_elem b t m x :
  msorted m -> m ⊆ U -> within U t ->
  x ∈ gin b t m <-> x ∈ m \/ (t = Some x /\ b = true).
Proof.
  intros Hm Hsub Ht. destruct t as [p|]; simpl; [|naive_solver].
  destruct b; simpl; [|naive_solver].
  destruct (mx_find_coherent p m) as [[Hin ->]|[Hnin Hf]]; [done|done|by apply Ht|..].
  - rewrite bool_decide_false by done. naive_solver.
  - rewrite Hf, bool_decide_true by done.
    rewrite mx_insert_elem by done. naive_solver.
Qed.

Lemma guard_in_within b t m :
  msorted m -> m ⊆ U -> within U t -> gin b t m ⊆ U.
Proof.
  intros Hm Hsub Ht x [Hx|[Hx _]]%guard_in_elem; [by apply Hsub|by apply Ht|done..].
Qed.

Lemma erase_node_subseteq q (m : list point) : enode q m ⊆ m.
Proof.
  destruct q as [q|]; simpl; [|done].
  intros x [_ Hx]%list_elem_of_filter. done.
Qed.

Lemma guard_out_elem b t m m' x :
  msorted m -> m ⊆ U -> m' ⊆ U -> within U t ->
  x ∈ enode (gout b t m) m' <-> x ∈ m' /\ ~ (t = Some x /\ b = false /\ x ∈ m).
Proof.
  intros Hm Hsub Hsub' Ht. destruct t as [p|]; simpl; [|naive_solver].
  destruct b; simpl; [naive_solver|].
  destruct (mx_find_coherent p m) as [[Hin ->]|[Hnin ->]]; [done|done|by apply Ht|..].
  - simpl. rewrite list_elem_of_filter. split.
    + intros [He Hx]. split; [done|]. intros ([= ->] & _ & _).
      by rewrite mx_equiv_refl in He by done.
    + intros [Hx Hn]. split; [|done].
      destruct (mxeq p x) eqn:E; [|done].
      exfalso. apply Hn. assert (p = x) as -> by (apply HU; [by apply Ht|by apply Hsub'|done]).
      done.
  - simpl. naive_solver.
Qed.

(** The three guards of an update, once committed: each touched point
    is in the set exactly when its new status says so, and no other
    point is affected. *)
Lemma adjust3_elem m tN bN tC bC tP bP x :
  msorted m -> m ⊆ U ->
  within U tN -> within U tC -> within U tP ->
  (forall p, tN = Some p -> tC <> Some p /\ tP <> Some p) ->
  (forall p, tC = Some p -> tP <> Some p) ->
  x ∈ adjust3 lessA lessV m tN bN tC bC tP bP <->
    (tN = Some x /\ bN = true) \/ (tC = Some x /\ bC = true) \/ (tP = Some x /\ bP = true) \/
    (x ∈ m /\ tN <> Some x /\ tC <> Some x /\ tP <> Some x).
Proof.
  intros Hm Hsub HtN HtC HtP HdN HdC. unfold adjust3.
  assert (msorted (gin bN tN m)) as Hm1 by (by apply guard_in_sorted).
  pose proof (guard_in_within bN tN m Hm Hsub HtN) as Hs1.
  assert (msorted (gin bC tC (gin bN tN m))) as Hm2 by (by apply guard_in_sorted).
  pose proof (guard_in_within bC tC _ Hm1 Hs1 HtC) as Hs2.
  assert (msorted (gin bP tP (gin bC tC (gin bN tN m)))) as Hm3 by (by apply guard_in_sorted).
  pose proof (guard_in_within bP tP _ Hm2 Hs2 HtP) as Hs3.
  assert (enode (gout bP tP (gin bC tC (gin bN tN m)))
            (gin bP tP (gin bC tC (gin bN tN m))) ⊆ U) as Hs4.
  { etrans; [apply erase_node_subseteq|done]. }
  assert (enode (gout bC tC (gin bN tN m))
            (enode (gout bP tP (gin bC tC (gin bN tN m)))
               (gin bP tP (gin bC tC (gin bN tN m)))) ⊆ U) as Hs5.
  { etrans; [apply erase_node_subseteq|done]. }
  rewrite guard_out_elem by done.
  rewrite guard_out_elem by done.
  rewrite guard_out_elem by done.
  rewrite !guard_in_elem by done.
  split.
  - intros [[[Hx HnP] HnC] HnN].
    assert (x ∈ U) as HxU.
    { destruct Hx as [[[Hx|[Hx _]]|[Hx _]]|[Hx _]];
        [by apply Hsub|by apply HtN|by apply HtC|by apply HtP]. }
    destruct (target_dec tN x HtN HxU) as [HN|HN].
    { left. split; [done|]. destruct (HdN _ HN) as [HC HP].
      destruct bN; [done|]. exfalso. apply HnN. naive_solver. }
    destruct (target_dec tC x HtC HxU) as [HC|HC].
    { right. left. split; [done|]. pose proof (HdC _ HC) as HP.
      destruct bC; [done|]. exfalso. apply HnC. naive_solver. }
    destruct (target_dec tP x HtP HxU) as [HP|HP].
    { right. right. left. split; [done|].
      destruct bP; [done|]. exfalso. apply HnP. naive_solver. }
    right. right. right. naive_solver.
  - intros [[HN ->]|[[HC ->]|[[HP ->]|(Hx & HN & HC & HP)]]].
    + destruct (HdN _ HN). naive_solver.
    + pose proof (HdC _ HC).
      assert (tN <> Some x) by (intros HN; by destruct (HdN _ HN)).
      naive_solver.
    + assert (tN <> Some x) by (intros HN; by destruct (HdN _ HN)).
      assert (tC <> Some x) by (intros HC; by apply (HdC _ HC)).
      naive_solver.
    + naive_solver.
Qed.

Lemma adjust3_sorted m tN bN tC bC tP bP :
  msorted m -> msorted (adjust3 lessA lessV m tN bN tC bC tP bP).
Proof.
  intros Hm. unfold adjust3.
  do 3 (apply erase_node_sorted; try done). do 3 (apply guard_in_sorted; try done).
Qed.

Lemma adjust3_within m tN bN tC bC tP bP :
  msorted m -> m ⊆ U ->
  within U tN -> within U tC -> within U tP ->
  adjust3 lessA lessV m tN bN tC bC tP bP ⊆ U.
Proof.
  intros Hm Hsub HtN HtC HtP. unfold adjust3.
  do 3 (etrans; [apply erase_node_subseteq|]).
  apply guard_in_within; [do 2 (apply guard_in_sorted; try done)| |done].
  apply guard_in_within; [by apply guard_in_sorted| |done].
  by apply guard_in_within.
Qed.

(** Erasing the entry of the superseded or erased point. *)
Lemma erase_old_elem old m m' x :
  msorted m -> m ⊆ U -> m' ⊆ U -> old ∈ U ->
  x ∈ enode (mx_find lessA lessV old m) m' <-> x ∈ m' /\ ~ (x = old /\ old ∈ m).
Proof.
  intros Hm Hsub Hsub' Hold.
  change (mx_find lessA lessV old m) with (gout false (Some old) m).
  rewrite guard_out_elem; [|done|done|done|by intros ? [= <-]].
  naive_solver.
Qed.
End Universe.

Lemma erase_node_comm q1 q2 (m : list point) :
  enode q1 (enode q2 m) = enode q2 (enode q1 m).
Proof.
  destruct q1 as [q1|], q2 as [q2|]; simpl; try done.
  induction m as [|x m IH]; [done|].
  rewrite !filter_cons.
  destruct (decide (mxeq q2 x = false)), (decide (mxeq q1 x = false));
    rewrite ?filter_cons; repeat case_decide; try done; by rewrite IH.
Qed.

End GuardEffect.

(** ** Replacing the middle of the store *)

Section Frame.
Context {A V : Type} (lessA : A -> A -> bool) (lessV : V -> V -> bool).
Context (HA : StrictWeak lessA) (HV : StrictWeak lessV).

Local Abbreviation point := (point_type A V).
Local Abbreviation lmax := (local_maximum lessV).
Local Abbreviation fsorted := (fn_sorted lessA).

Lemma lookup_app_plus (l1 l2 : list point) i : (l1 ++ l2) !! (length l1 + i) = l2 !! i.
Proof. rewrite lookup_app_r by lia. f_equal. lia. Qed.

Lemma local_maximum_prefix (l1 r r' : list point) j :
  S j < length l1 -> lmax (l1 ++ r) j = lmax (l1 ++ r') j.
Proof.
  intros Hj. unfold local_maximum, right_neighbour.
  rewrite !(lookup_app_l l1) by lia.
  destruct j as [|j]; simpl; [done|].
  by rewrite !(lookup_app_l l1) by lia.
Qed.

Lemma local_maximum_suffix (l l' r : list point) j :
  1 <= j -> lmax (l ++ r) (length l + j) = lmax (l' ++ r) (length l' + j).
Proof.
  intros Hj. unfold local_maximum, right_neighbour.
  rewrite !lookup_app_plus.
  replace (S (length l + j)) with (length l + S j) by lia.
  replace (S (length l' + j)) with (length l' + S j) by lia.
  rewrite !lookup_app_plus.
  destruct j as [|j]; [lia|].
  replace (length l + S j) with (S (length l + j)) by lia.
  replace (length l' + S j) with (S (length l' + j)) by lia.
  simpl. by rewrite !lookup_app_plus.
Qed.

Lemma fn_sorted_lookup_eq (f : list point) i j x :
  fsorted f -> f !! i = Some x -> f !! j = Some x -> i = j.
Proof.
  intros Hs Hi Hj. eapply fn_sorted_lookup_inj; eauto.
  unfold equivalentArguments. by rewrite (sw_irrefl HA).
Qed.

(** The store [f = l1 ++ olds ++ l2] becomes [F = l1 ++ news ++ l2].  A
    point of [F] is a local maximum of [F] iff it lies in the window
    around [news] and is one, or it lies outside and was a local maximum
    of [f]. *)
Lemma maxima_update (l1 olds news l2 : list point) (m : list point) x :
  let f := l1 ++ olds ++ l2 in
  let F := l1 ++ news ++ l2 in
  let c := length l1 in
  fsorted f -> fsorted F ->
  (forall y, y ∈ m <-> is_maximum_of lessV f y) ->
  is_maximum_of lessV F x <->
    (exists j, c <= S j /\ j <= c + length news /\ F !! j = Some x /\ lmax F j = true) \/
    (x ∈ m /\ (x ∉ olds) /\
     forall j, c <= S j -> j <= c + length news -> F !! j <> Some x).
Proof.
  intros f F c Hf HF Hm. split.
  - intros (j & Hj & Hmax).
    destruct (decide (c <= S j /\ j <= c + length news)) as [Hw|Hw].
    { left. exists j. naive_solver. }
    right.
    assert (exists j', f !! j' = Some x /\ lmax f j' = true /\
                       (S j' < c \/ c + length olds < j')) as (j' & Hj' & Hmax' & Hout).
    { destruct (decide (S j < c)) as [Hlt|Hge].
      - exists j. split_and!; [| |by left].
        + unfold f, F in *. rewrite lookup_app_l in Hj by lia. by rewrite lookup_app_l by lia.
        + unfold f, F in *. by rewrite (local_maximum_prefix _ _ (news ++ l2)).
      - assert (exists d, 1 <= d /\ j = length (l1 ++ news) + d) as (d & Hd & ->).
        { exists (j - (c + length news)). rewrite length_app. unfold c in *. lia. }
        exists (length (l1 ++ olds) + d). split_and!.
        + unfold f, F in *. rewrite (assoc app) in Hj. rewrite lookup_app_plus in Hj.
          by rewrite (assoc app), lookup_app_plus.
        + unfold f, F in *. rewrite (assoc app) in Hmax. rewrite (assoc app).
          by rewrite (local_maximum_suffix _ (l1 ++ news)).
        + right. rewrite length_app. unfold c. lia. }
    split_and!.
    + apply Hm. by exists j'.
    + intros [i Hi]%list_elem_of_lookup.
      assert (f !! (c + i) = Some x) as Hci.
      { unfold f, c. rewrite lookup_app_plus. by apply lookup_app_l_Some. }
      pose proof (fn_sorted_lookup_eq _ _ _ _ Hf Hj' Hci) as ->.
      apply lookup_lt_Some in Hi. lia.
    + intros w Hw1 Hw2 Hx.
      pose proof (fn_sorted_lookup_eq _ _ _ _ HF Hj Hx) as ->. tauto.
  - intros [(j & _ & _ & Hj & Hmax)|(Hx & Hold & Hwin)]; [by exists j|].
    apply Hm in Hx as (j' & Hj' & Hmax').
    destruct (decide (S j' < c)) as [Hlt|Hge].
    { exists j'. split.
      - unfold f, F in *. rewrite lookup_app_l in Hj' by lia. by rewrite lookup_app_l by lia.
      - unfold f, F in *. by rewrite (local_maximum_prefix _ _ (olds ++ l2)). }
    destruct (decide (c + length olds < j')) as [Hgt|Hle].
    { assert (exists d, 1 <= d /\ j' = length (l1 ++ olds) + d) as (d & Hd & ->).
      { exists (j' - (c + length olds)). rewrite length_app. unfold c in *. lia. }
      exists (length (l1 ++ news) + d). split.
      - unfold f, F in *. rewrite (assoc app) in Hj'. rewrite lookup_app_plus in Hj'.
        by rewrite (assoc app), lookup_app_plus.
      - unfold f, F in *. rewrite (assoc app) in Hmax'. rewrite (assoc app).
        by rewrite (local_maximum_suffix _ (l1 ++ olds)). }
    exfalso.
    destruct (decide (S j' = c)) as [Hp|Hnp].
    { apply (Hwin j'); [lia|lia|].
      unfold f, F in *. rewrite lookup_app_l in Hj' by lia. by rewrite lookup_app_l by lia. }
    destruct (decide (j' = c + length olds)) as [Hn|Hnn].
    { apply (Hwin (c + length news)); [lia|lia|].
      unfold f, F, c in *. subst j'.
      rewrite lookup_app_plus in Hj'.
      replace (length olds) with (length olds + 0) in Hj' by lia.
      rewrite lookup_app_plus in Hj'.
      rewrite lookup_app_plus.
      replace (length news) with (length news + 0) by lia.
      by rewrite lookup_app_plus. }
    apply Hold. apply list_elem_of_lookup. exists (j' - c).
    unfold f, c in *.
    replace j' with (length l1 + (j' - length l1)) in Hj' by lia.
    rewrite lookup_app_plus in Hj'.
    rewrite lookup_app_l in Hj' by lia. done.
Qed.

End Frame.

(** ** The invariant and its preservation *)

Section Invariant.
Context {A V : Type} (lessA : A -> A -> bool) (lessV : V -> V -> bool).
Context (HA : StrictWeak lessA) (HV : StrictWeak lessV).

Local Abbreviation point := (point_type A V).
Local Abbreviation impl := (FunctionMaximaImpl A V).
Local Abbreviation mxeq := (mx_equiv lessA lessV).
Local Abbreviation msorted := (mx_sorted lessA lessV).
Local Abbreviation fsorted := (fn_sorted lessA).
Local Abbreviation lmax := (local_maximum lessV).
Local Abbreviation eqA := (equivalentArguments lessA).
Local Abbreviation eqV := (equivalentValues lessV).

(** The store is strictly ordered by argument (so arguments are unique),
    the set of maxima is strictly ordered by the maxima order, and it holds
    exactly the local maxima of the store. *)
Record Inv (s : impl) : Prop := {
  inv_fn : fsorted (function s);
  inv_mx : msorted (localMaxima s);
  inv_max : forall x, x ∈ localMaxima s <-> is_maximum_of lessV (function s) x
}.

Lemma Inv_empty : Inv (empty_impl A V).
Proof.
  split; simpl; [constructor..|].
  intros x. split; [by intros ?%elem_of_nil|].
  intros (i & Hi & _). by rewrite lookup_nil in Hi.
Qed.

Lemma is_maximum_of_elem (f : list point) x : is_maximum_of lessV f x -> x ∈ f.
Proof. intros (i & Hi & _). by eapply list_elem_of_lookup_2. Qed.

Lemma Inv_maxima_subseteq s : Inv s -> localMaxima s ⊆ function s.
Proof. intros Hs x Hx. apply is_maximum_of_elem. by apply Hs. Qed.

(** *** Positions visited by the guards *)

Lemma deref_iter_next (f : list point) j : deref f (iter_next f (Some j)) = f !! S j.
Proof.
  simpl. case_decide; simpl; [done|]. symmetry. apply lookup_ge_None. lia.
Qed.

Lemma safeNext_Some (f : list point) j : safeNext f (Some j) = iter_next f (Some j).
Proof. unfold safeNext. by case_decide. Qed.

Lemma iter_next_neq (f : list point) j i : i <= j -> iter_next f (Some j) <> Some i.
Proof. simpl. case_decide; [|done]. intros ? [= ?]. lia. Qed.

Lemma status_iter_next (f : list point) j ig :
  (forall i, ig = Some i -> i <= j) ->
  status_at lessV f (iter_next f (Some j)) ig = lmax (without ig f) (shift ig (S j)).
Proof.
  intros Hig. simpl. case_decide as Hj; simpl; [done|].
  symmetry. unfold local_maximum.
  rewrite lookup_without by (intros <-; specialize (Hig _ eq_refl); lia).
  rewrite lookup_ge_None_2 by lia. done.
Qed.

Definition prev_pos (c : nat) : iterator :=
  match c with
  | 0 => None
  | S c' => Some c'
  end.

Lemma safePrev_Some (f : list point) c : c < length f -> safePrev f (Some c) = prev_pos c.
Proof.
  intros Hc. unfold safePrev.
  assert (fn_begin f = Some 0) as -> by (destruct f; simpl in *; [lia|done]).
  by destruct c as [|c].
Qed.

Lemma deref_prev_pos (f : list point) c : deref f (prev_pos c) = left_neighbour f c.
Proof. by destruct c. Qed.

Definition prev_status (F : list point) (c : nat) : bool :=
  match c with
  | 0 => false
  | S c' => lmax F c'
  end.

(** The new point is inserted where no point with its argument was. *)
Lemma three_guards_absent l1 pt l2 (m : list point) :
  let f' := l1 ++ pt :: l2 in
  let c := length l1 in
  let posN := safeNextWithAvoid f' (Some c) None in
  let posP := safePrevWithAvoid f' (Some c) None in
  (posN = None -> posN = None) /\ (posP = None -> posP = None) /\
  three_guards lessA lessV f' m posN (Some c) posP None =
    adjust3 lessA lessV m (f' !! S c) (lmax f' (S c))
      (Some pt) (lmax f' c) (left_neighbour f' c) (prev_status f' c).
Proof.
  intros f' c posN posP. split_and!; [done..|].
  assert (c < length f') as Hc by (unfold f', c; rewrite length_app; simpl; lia).
  assert (posN = iter_next f' (Some c)) as ->.
  { unfold posN, safeNextWithAvoid. rewrite safeNext_Some.
    case_decide as Hn; [|done]. by rewrite Hn. }
  assert (posP = prev_pos c) as ->.
  { unfold posP, safePrevWithAvoid. rewrite safePrev_Some by done.
    case_decide as Hn; [|done]. rewrite Hn. unfold safePrev.
    by case_decide as Hd; [destruct Hd|]. }
  unfold three_guards. rewrite deref_iter_next, deref_prev_pos.
  rewrite status_iter_next by done. simpl.
  assert (f' !! c = Some pt) as -> by (unfold f', c; apply list_lookup_middle; done).
  f_equal. by destruct c.
Qed.

(** The new point is inserted right after the point it supersedes. *)
Lemma three_guards_present l1 old pt l2 (m : list point) :
  let f' := l1 ++ old :: pt :: l2 in
  let F := l1 ++ pt :: l2 in
  let c := length l1 in
  let posN := safeNextWithAvoid f' (Some (S c)) (Some c) in
  let posP := safePrevWithAvoid f' (Some (S c)) (Some c) in
  (posN = Some c -> posN = None) /\ (posP = Some c -> posP = None) /\
  three_guards lessA lessV f' m posN (Some (S c)) posP (Some c) =
    adjust3 lessA lessV m (F !! S c) (lmax F (S c))
      (Some pt) (lmax F c) (left_neighbour F c) (prev_status F c).
Proof.
  intros f' F c posN posP.
  assert (S c < length f') as Hc by (unfold f', c; rewrite length_app; simpl; lia).
  assert (delete c f' = F) as HF by apply delete_middle.
  assert (posN = iter_next f' (Some (S c))) as ->.
  { unfold posN, safeNextWithAvoid. rewrite safeNext_Some.
    case_decide as H2; [|done]. by apply iter_next_neq in H2; [|lia]. }
  assert (posP = prev_pos c) as ->.
  { unfold posP, safePrevWithAvoid. rewrite safePrev_Some by lia. simpl.
    rewrite decide_True by done. apply safePrev_Some. lia. }
  split_and!.
  - intros H. by apply iter_next_neq in H; [|lia].
  - destruct c; simpl; [done|]. intros [= ?]. lia.
  - unfold three_guards. rewrite deref_iter_next, deref_prev_pos.
    rewrite status_iter_next by (intros ? [= <-]; lia).
    simpl. rewrite HF.
    rewrite decide_False by lia. rewrite decide_False by lia. simpl.
    assert (f' !! S (S c) = F !! S c) as ->.
    { rewrite <- HF. by rewrite list_lookup_delete_ge by lia. }
    assert (f' !! S c = Some pt) as ->.
    { unfold f', c. rewrite lookup_app_r by lia.
      by replace (S (length l1) - length l1) with 1 by lia. }
    assert (left_neighbour f' c = left_neighbour F c) as ->.
    { destruct c as [|c']; simpl; [done|].
      rewrite <- HF. by rewrite list_lookup_delete_lt by lia. }
    f_equal. destruct c as [|c']; simpl; [done|].
    rewrite HF. by rewrite decide_True by lia.
Qed.

(** The point at [c] is erased. *)
Lemma erase_guards l1 old l2 :
  let f := l1 ++ old :: l2 in
  let F := l1 ++ l2 in
  let c := length l1 in
  let posN := safeNext f (Some c) in
  let posP := safePrev f (Some c) in
  (posN = Some c -> posN = None) /\ (posP = Some c -> posP = None) /\
  deref f posN = F !! c /\ status_at lessV f posN (Some c) = lmax F c /\
  deref f posP = left_neighbour F c /\ status_at lessV f posP (Some c) = prev_status F c.
Proof.
  intros f F c posN posP.
  assert (c < length f) as Hc by (unfold f, c; rewrite length_app; simpl; lia).
  assert (delete c f = F) as HF by apply delete_middle.
  assert (posN = iter_next f (Some c)) as ->.
  { apply safeNext_Some. }
  assert (posP = prev_pos c) as -> by (by apply safePrev_Some).
  split_and!.
  - intros H. by apply iter_next_neq in H; [|lia].
  - destruct c; simpl; [done|]. intros [= ?]. lia.
  - rewrite deref_iter_next. rewrite <- HF. by rewrite list_lookup_delete_ge by lia.
  - rewrite status_iter_next by (intros ? [= <-]; lia).
    simpl. rewrite HF. by rewrite decide_False by lia.
  - rewrite deref_prev_pos. destruct c as [|c']; simpl; [done|].
    rewrite <- HF. by rewrite list_lookup_delete_lt by lia.
  - destruct c as [|c']; simpl; [done|].
    rewrite HF. by rewrite decide_True by lia.
Qed.

End Invariant.

(** ** An update re-establishes the invariant *)

Section Update.
Context {A V : Type} (lessA : A -> A -> bool) (lessV : V -> V -> bool).
Context (HA : StrictWeak lessA) (HV : StrictWeak lessV).

Local Abbreviation point := (point_type A V).
Local Abbreviation impl := (FunctionMaximaImpl A V).
Local Abbreviation mxeq := (mx_equiv lessA lessV).
Local Abbreviation msorted := (mx_sorted lessA lessV).
Local Abbreviation fsorted := (fn_sorted lessA).
Local Abbreviation lmax := (local_maximum lessV).
Local Abbreviation eqA := (equivalentArguments lessA).
Local Abbreviation eqV := (equivalentValues lessV).
Local Abbreviation enode := (erase_node lessA lessV).

Lemma mx_equiv_sym p q : mxeq p q = mxeq q p.
Proof. unfold mx_equiv. apply andb_comm. Qed.

Lemma coherent_store (f : list point) : fsorted f -> coherent lessA lessV f.
Proof.
  intros Hf x y Hx Hy He. eapply fn_sorted_elem_inj; eauto.
  by apply (mx_equiv_args lessA lessV).
Qed.

Lemma coherent_store_new (f news : list point) :
  fsorted f -> length news <= 1 ->
  (forall y p, y ∈ f -> p ∈ news -> mxeq y p = false) ->
  coherent lessA lessV (f ++ news).
Proof.
  intros Hf Hlen Hnew x y Hx Hy He.
  apply elem_of_app in Hx as [Hx|Hx]; apply elem_of_app in Hy as [Hy|Hy].
  - by apply (coherent_store f Hf).
  - by rewrite (Hnew x y) in He.
  - rewrite mx_equiv_sym in He. by rewrite (Hnew y x) in He.
  - destruct news as [|p [|? ?]]; simpl in *; [by apply elem_of_nil in Hx| |lia].
    apply list_elem_of_singleton in Hx, Hy. congruence.
Qed.

Lemma below_not_equiv a l (x : point) b :
  below lessA a l -> x ∈ l -> eqA a b = true -> eqA (arg x) b = false.
Proof.
  intros Hb Hx He. unfold below in Hb. rewrite Forall_forall in Hb.
  apply arg_lt_not_equiv.
  unfold equivalentArguments in He.
  apply andb_true_iff in He as [_ He%negb_true_iff].
  eapply sw_lt_incomp_l; eauto.
Qed.

Lemma above_not_equiv a l (x : point) b :
  above lessA a l -> x ∈ l -> eqA a b = true -> eqA (arg x) b = false.
Proof.
  intros Hb Hx He. unfold above in Hb. rewrite Forall_forall in Hb.
  apply arg_gt_not_equiv.
  unfold equivalentArguments in He.
  apply andb_true_iff in He as [He%negb_true_iff _].
  eapply sw_lt_incomp_r; eauto.
Qed.

Definition old_node (olds m : list point) : mx_iterator :=
  match olds with
  | o :: _ => mx_find lessA lessV o m
  | [] => None
  end.

(** The store [l1 ++ olds ++ l2] with maxima [m] becomes [l1 ++ news ++ l2];
    the guards adjust the window around [news] and the entry of the
    superseded point is erased. *)
Lemma update_correct (l1 olds news l2 m : list point) :
  let f := l1 ++ olds ++ l2 in
  let F := l1 ++ news ++ l2 in
  let c := length l1 in
  Inv lessA lessV (Impl f m) ->
  fsorted F ->
  length olds <= 1 -> length news <= 1 ->
  coherent lessA lessV (f ++ news) ->
  (forall x, x ∈ olds -> x ∉ F) ->
  Inv lessA lessV
    (Impl F
       (enode (old_node olds m)
          (adjust3 lessA lessV m
             (F !! (c + length news)) (lmax F (c + length news))
             (head news) (lmax F c)
             (left_neighbour F c) (prev_status lessV F c)))).
Proof.
  intros f F c.
  assert (f = l1 ++ olds ++ l2) as Hfdef by done.
  assert (F = l1 ++ news ++ l2) as HFdef by done.
  assert (c = length l1) as Hcdef by done.
  clearbody f F c.
  intros [Hf Hm Hmax] HF Holds Hnews HU Hold. simpl in *.
  pose proof (maxima_update lessA lessV HA l1 olds news l2 m) as Hupd.
  simpl in Hupd. rewrite <- Hfdef, <- HFdef, <- Hcdef in Hupd.
  set (U := f ++ news) in *.
  assert (m ⊆ U) as HmU.
  { intros x Hx. apply elem_of_app. left.
    apply (is_maximum_of_elem lessV). by apply Hmax. }
  assert (forall j x, F !! j = Some x -> x ∈ U) as HFU.
  { intros j x Hj%list_elem_of_lookup_2. unfold U. rewrite Hfdef. rewrite HFdef in Hj.
    rewrite !elem_of_app in Hj. rewrite !elem_of_app. tauto. }
  assert (forall p, head news = Some p -> F !! c = Some p /\ length news = 1) as HC.
  { intros p Hp. destruct news as [|q [|? ?]]; simpl in *; [done| |lia].
    injection Hp as ->. split; [|done]. rewrite HFdef, Hcdef. simpl.
    by apply list_lookup_middle. }
  assert (forall p, left_neighbour F c = Some p -> exists c', c = S c' /\ F !! c' = Some p) as HP.
  { intros p Hp. destruct c as [|c']; simpl in Hp; [done|]. by exists c'. }
  assert (within U (F !! (c + length news))) as HwN by (intros p Hp; by eapply HFU).
  assert (within U (head news)) as HwC.
  { intros p [Hp _]%HC. by eapply HFU. }
  assert (within U (left_neighbour F c)) as HwP.
  { intros p (c' & _ & Hp)%HP. by eapply HFU. }
  assert (forall p, F !! (c + length news) = Some p ->
                    head news <> Some p /\ left_neighbour F c <> Some p) as HdN.
  { intros p Hp. split.
    - intros [Hc Hl]%HC. pose proof (fn_sorted_lookup_eq lessA HA _ _ _ _ HF Hp Hc). lia.
    - intros (c' & Hc & Hl)%HP. pose proof (fn_sorted_lookup_eq lessA HA _ _ _ _ HF Hp Hl). lia. }
  assert (forall p, head news = Some p -> left_neighbour F c <> Some p) as HdC.
  { intros p [Hc Hl]%HC (c' & Hc' & Hl')%HP.
    pose proof (fn_sorted_lookup_eq lessA HA _ _ _ _ HF Hc Hl'). lia. }
  pose proof (adjust3_within lessA lessV HA HV U HU m
    (F !! (c + length news)) (lmax F (c + length news)) (head news) (lmax F c)
    (left_neighbour F c) (prev_status lessV F c) Hm HmU HwN HwC HwP) as HaU.
  split; simpl.
  - done.
  - apply erase_node_sorted. apply adjust3_sorted; done.
  - intros x.
    rewrite (Hupd x Hf HF Hmax).
    assert (x ∈ enode (old_node olds m)
              (adjust3 lessA lessV m
                 (F !! (c + length news)) (lmax F (c + length news))
                 (head news) (lmax F c)
                 (left_neighbour F c) (prev_status lessV F c)) <->
            x ∈ adjust3 lessA lessV m
                 (F !! (c + length news)) (lmax F (c + length news))
                 (head news) (lmax F c)
                 (left_neighbour F c) (prev_status lessV F c) /\
            ~ (x ∈ olds /\ x ∈ m)) as ->.
    { destruct olds as [|old [|? ?]]; simpl in *; [|..|lia].
      - split; [|tauto]. intros Hx. split; [done|]. by intros [?%elem_of_nil _].
      - rewrite (erase_old_elem lessA lessV HA HV U HU old m); [|done..|].
        + rewrite list_elem_of_singleton. split; intros [? Hn]; (split; [done|]);
            intros [-> ?]; by apply Hn.
        + apply elem_of_app. left. rewrite Hfdef. rewrite !elem_of_app, elem_of_cons. tauto. }
    rewrite (adjust3_elem lessA lessV HA HV U HU) by done.
    split.
    + intros [[[HN Hb]|[[Hc Hb]|[[Hp Hb]|(Hx & HnN & HnC & HnP)]]] Hno].
      * left. exists (c + length news). split_and!; [lia|lia|done..].
      * left. exists c. apply HC in Hc as [Hc _]. split_and!; [lia|lia|done..].
      * left. apply HP in Hp as (c' & Hc' & Hp). exists c'.
        split_and!; [lia|lia|done|]. unfold prev_status in Hb. by rewrite Hc' in Hb.
      * right. split_and!; [done|tauto|].
        intros j Hj1 Hj2 Hj.
        destruct (decide (j = c + length news)) as [->|]; [done|].
        destruct (decide (S j = c)) as [Hjc|].
        { apply HnP. rewrite <- Hjc. done. }
        destruct news as [|p [|? ?]]; simpl in *; [lia| |lia].
        assert (j = c) as -> by lia.
        apply HnC. destruct (HC p eq_refl) as [Hc _]. congruence.
    + intros [(j & Hj1 & Hj2 & Hj & Hb)|(Hx & Hno & Hwin)].
      * split; [|intros [Ho _]; apply (Hold _ Ho); by eapply list_elem_of_lookup_2].
        destruct (decide (j = c + length news)) as [->|]; [by left|].
        destruct (decide (S j = c)) as [Hjc|].
        { right. right. left. rewrite <- Hjc. simpl. done. }
        destruct news as [|p [|? ?]]; simpl in *; [lia| |lia].
        assert (j = c) as -> by lia.
        right. left. destruct (HC p eq_refl) as [Hc _]. split; [congruence|done].
      * split; [|tauto]. right. right. right. split_and!; [done|..].
        -- apply Hwin; lia.
        -- intros [Hc Hl]%HC. apply (Hwin c); [lia|lia|done].
        -- intros (c' & Hc & Hl)%HP. apply (Hwin c'); [lia|lia|done].
Qed.

End Update.

(** ** Specifications of [set_value] and [erase] *)

Section Mutators.
Context {A V : Type} (lessA : A -> A -> bool) (lessV : V -> V -> bool).
Context (HA : StrictWeak lessA) (HV : StrictWeak lessV).

Local Abbreviation point := (point_type A V).
Local Abbreviation impl := (FunctionMaximaImpl A V).
Local Abbreviation mxeq := (mx_equiv lessA lessV).
Local Abbreviation msorted := (mx_sorted lessA lessV).
Local Abbreviation fsorted := (fn_sorted lessA).
Local Abbreviation lmax := (local_maximum lessV).
Local Abbreviation eqA := (equivalentArguments lessA).
Local Abbreviation eqV := (equivalentValues lessV).
Local Abbreviation enode := (erase_node lessA lessV).
Local Abbreviation inv := (Inv lessA lessV).

Lemma eqA_refl a : eqA a a = true.
Proof. unfold equivalentArguments. by rewrite (sw_irrefl HA). Qed.

Lemma eqV_refl v : eqV v v = true.
Proof. unfold equivalentValues. by rewrite (sw_irrefl HV). Qed.

Lemma mx_equiv_false_args (p q : point) : eqA (arg p) (arg q) = false -> mxeq p q = false.
Proof.
  intros He. destruct (mxeq p q) eqn:E; [|done].
  apply (mx_equiv_args lessA lessV) in E. congruence.
Qed.

Lemma mx_equiv_false_values (p q : point) : eqV (value p) (value q) = false -> mxeq p q = false.
Proof.
  intros He. destruct (mxeq p q) eqn:E; [|done].
  apply (mx_equiv_values lessA lessV) in E. congruence.
Qed.

Lemma spec_function_insert pt (s : impl) (R : impl -> Prop) :
  R s ->
  spec (function_insert lessA pt) s
    (fun r s' =>
       s' = Impl (insert_at (fn_upper_bound lessA (arg pt) (function s)) pt (function s))
                 (localMaxima s) /\
       r = Some (fn_upper_bound lessA (arg pt) (function s))) R.
Proof.
  intros HR. unfold function_insert.
  eapply spec_bind; [by apply spec_fallible_eq|].
  intros [] ? ->.
  eapply spec_bind; [apply spec_gets_eq|].
  intros ? ? [-> ->].
  eapply spec_bind; [apply spec_modify_eq|].
  intros [] ? ->. by apply spec_ret.
Qed.

(** The state a successful [set_value a v] leaves behind. *)
Inductive set_value_post (a : A) (v : V) (s s' : impl) : Prop :=
| sv_same l1 old l2 :
    function s = l1 ++ old :: l2 ->
    below lessA a l1 -> above lessA a l2 ->
    equivalentPoints lessA lessV old (Point a v) = true ->
    s' = s ->
    set_value_post a v s s'
| sv_new l1 olds l2 :
    function s = l1 ++ olds ++ l2 ->
    below lessA a l1 -> above lessA a l2 ->
    length olds <= 1 ->
    (forall o, o ∈ olds -> eqA a (arg o) = true /\ eqV (value o) v = false) ->
    function s' = l1 ++ Point a v :: l2 ->
    inv s' ->
    set_value_post a v s s'.

(** The state a successful [erase a] leaves behind. *)
Inductive erase_post (a : A) (s s' : impl) : Prop :=
| er_absent l1 l2 :
    function s = l1 ++ l2 ->
    below lessA a l1 -> above lessA a l2 ->
    s' = s ->
    erase_post a s s'
| er_present l1 old l2 :
    function s = l1 ++ old :: l2 ->
    below lessA a l1 -> above lessA a l2 ->
    eqA a (arg old) = true ->
    function s' = l1 ++ l2 ->
    inv s' ->
    erase_post a s s'.

Lemma new_point_coherent a v (l1 olds l2 : list point) :
  fsorted (l1 ++ olds ++ l2) ->
  below lessA a l1 -> above lessA a l2 ->
  (forall o, o ∈ olds -> eqV (value o) v = false) ->
  coherent lessA lessV ((l1 ++ olds ++ l2) ++ [Point a v]).
Proof.
  intros Hf Hb Ha Ho. apply coherent_store_new; [done..|simpl; lia|].
  intros y p Hy ->%list_elem_of_singleton.
  rewrite !elem_of_app in Hy. destruct Hy as [Hy|[Hy|Hy]].
  - apply mx_equiv_false_args. simpl.
    eapply below_not_equiv; eauto. apply eqA_refl.
  - apply mx_equiv_false_values. simpl. by apply Ho.
  - apply mx_equiv_false_args. simpl.
    eapply above_not_equiv; eauto. apply eqA_refl.
Qed.

Lemma old_not_in_new a (l1 l2 news : list point) (old : point) :
  below lessA a l1 -> above lessA a l2 ->
  eqA a (arg old) = true ->
  (forall p, p ∈ news -> eqV (value old) (value p) = false) ->
  old ∉ l1 ++ news ++ l2.
Proof.
  intros Hb Ha He Hn. rewrite !elem_of_app. intros [H|[H|H]].
  - pose proof (below_not_equiv lessA HA a l1 old (arg old) Hb H He) as E.
    by rewrite eqA_refl in E.
  - specialize (Hn _ H). by rewrite eqV_refl in Hn.
  - pose proof (above_not_equiv lessA HA a l2 old (arg old) Ha H He) as E.
    by rewrite eqA_refl in E.
Qed.

Lemma set_value_spec a v (s : impl) :
  inv s ->
  spec (set_value lessA lessV a v) s
    (fun _ s' => set_value_post a v s s') (fun sf => sf = s).
Proof.
  intros Hinv. pose proof Hinv as [Hf Hm Hmax].
  destruct s as [f m]; simpl in *.
  unfold set_value.
  eapply spec_bind; [apply spec_readonly; [apply readonly_find|done]|].
  intros it ? [-> Hit]. rewrite find_nofault in Hit. injection Hit as <-.
  eapply spec_bind; [apply spec_readonly; [apply readonly_new_point|done]|].
  intros pt ? [-> Hpt]. injection Hpt as <-.
  eapply spec_bind; [apply spec_gets_eq|].
  intros ? ? [-> ->]. simpl.
  destruct (fn_split_total lessA HA a f Hf)
    as [l1 l2 Hfeq Hfind Hub Hbelow Habove|l1 old l2 Hfeq Hfind Hub Heq Hbelow Habove].
  - (* no point at [a] *)
    rewrite Hfind. simpl.
    eapply spec_bind; [apply spec_ret_eq|].
    intros ? ? [-> ->].
    eapply spec_bind; [apply spec_readonly; [apply readonly_mxFind|done]|].
    intros mxIt ? [-> HmxIt]. rewrite mxFind_nofault in HmxIt. simpl in HmxIt.
    injection HmxIt as <-.
    eapply spec_bind; [by apply spec_function_insert|].
    intros fnIt ? [-> ->]. simpl. rewrite Hub. subst f. rewrite insert_at_app.
    destruct (three_guards_absent lessA lessV l1 (Point a v) l2 m) as (HN & HP & Hthree).
    eapply spec_bind.
    { apply spec_on_unwind.
      eapply spec_conseq; [by apply (set_value_try_spec lessA lessV HA HV)| |].
      - intros x s' Hs'. exact Hs'.
      - intros sf ->. simpl. by rewrite delete_middle. }
    intros [] ? ->. simpl. apply spec_ret.
    rewrite Hthree.
    apply sv_new with (l1 := l1) (olds := []) (l2 := l2); simpl; try done; try lia.
    { by intros o ?%elem_of_nil. }
    pose proof (update_correct lessA lessV HA HV l1 [] [Point a v] l2 m) as Hupd.
    simpl in Hupd. rewrite Nat.add_1_r in Hupd. apply Hupd; try done; try lia.
    + eapply (fn_sorted_replace lessA HA a (Point a v) l1 []); try done.
      simpl. apply eqA_refl.
    + apply (new_point_coherent a v l1 [] l2); try done.
      by intros o ?%elem_of_nil.
    + by intros o ?%elem_of_nil.
  - (* a point [old] at [a] *)
    rewrite Hfind. simpl.
    assert (f !! length l1 = Some old) as Hold by (rewrite Hfeq; by apply list_lookup_middle).
    rewrite Hold.
    eapply spec_bind; [apply spec_readonly; [apply readonly_may_throw|done]|].
    intros same ? [-> Hsame]. injection Hsame as <-.
    destruct (equivalentPoints lessA lessV old (Point a v)) eqn:Esame.
    { apply spec_ret. by apply sv_same with (l1 := l1) (old := old) (l2 := l2). }
    assert (eqV (value old) v = false) as HoldV.
    { unfold equivalentPoints in Esame. simpl in Esame.
      rewrite equivalentArguments_sym, Heq in Esame. done. }
    eapply spec_bind; [apply spec_readonly; [apply readonly_mxFind|done]|].
    intros mxIt ? [-> HmxIt]. rewrite mxFind_nofault in HmxIt. simpl in HmxIt.
    rewrite Hold in HmxIt. injection HmxIt as <-.
    eapply spec_bind; [by apply spec_function_insert|].
    intros fnIt ? [-> ->]. simpl. rewrite Hub. subst f. rewrite insert_at_after.
    destruct (three_guards_present lessA lessV l1 old (Point a v) l2 m) as (HN & HP & Hthree).
    eapply spec_bind.
    { apply spec_on_unwind.
      eapply spec_conseq; [apply (set_value_try_spec lessA lessV HA HV); simpl; try done| |].
      - rewrite length_app. simpl. lia.
      - intros [=]. lia.
      - intros x s' Hs'. exact Hs'.
      - intros sf ->. simpl.
        replace (l1 ++ old :: Point a v :: l2) with ((l1 ++ [old]) ++ Point a v :: l2)
          by (by rewrite <- (assoc app)).
        replace (S (length l1)) with (length (l1 ++ [old])) by (rewrite length_app; simpl; lia).
        by rewrite delete_middle, <- (assoc app). }
    intros [] ? ->. simpl.
    eapply spec_bind; [apply spec_modify_eq|].
    intros [] ? ->.
    apply spec_modify. simpl. rewrite delete_middle. rewrite Hthree.
    unfold mxEraseIfNotEnd. rewrite mx_erase_eq. simpl.
    apply sv_new with (l1 := l1) (olds := [old]) (l2 := l2); simpl; try done; try lia.
    { by intros o ->%list_elem_of_singleton. }
    pose proof (update_correct lessA lessV HA HV l1 [old] [Point a v] l2 m) as Hupd.
    simpl in Hupd. rewrite Nat.add_1_r in Hupd. apply Hupd; try done; try lia.
    + eapply (fn_sorted_replace lessA HA a (Point a v) l1 [old]); try done.
      simpl. apply eqA_refl.
    + apply (new_point_coherent a v l1 [old] l2); try done.
      by intros o ->%list_elem_of_singleton.
    + intros x ->%list_elem_of_singleton.
      apply (old_not_in_new a l1 l2 [Point a v] old); try done.
      by intros p ->%list_elem_of_singleton.
Qed.

Lemma erase_spec a (s : impl) :
  inv s ->
  spec (erase lessA lessV a) s (fun _ s' => erase_post a s s') (fun sf => sf = s).
Proof.
  intros Hinv. pose proof Hinv as [Hf Hm Hmax].
  destruct s as [f m]; simpl in *.
  unfold erase.
  eapply spec_bind; [apply spec_readonly; [apply readonly_find|done]|].
  intros it ? [-> Hit]. rewrite find_nofault in Hit. injection Hit as <-.
  eapply spec_bind; [apply spec_readonly; [apply readonly_mxFind|done]|].
  intros mxIt ? [-> HmxIt]. rewrite mxFind_nofault in HmxIt. simpl in HmxIt.
  injection HmxIt as <-.
  destruct (fn_split_total lessA HA a f Hf)
    as [l1 l2 Hfeq Hfind Hub Hbelow Habove|l1 old l2 Hfeq Hfind Hub Heq Hbelow Habove].
  - rewrite Hfind. simpl. apply spec_ret.
    by apply er_absent with (l1 := l1) (l2 := l2).
  - rewrite Hfind. simpl.
    assert (f !! length l1 = Some old) as Hold by (rewrite Hfeq; by apply list_lookup_middle).
    rewrite Hold. subst f.
    assert (length l1 < length (l1 ++ old :: l2)) as Hlen by (rewrite length_app; simpl; lia).
    destruct (erase_guards lessV l1 old l2) as (HN & HP & HdN & HsN & HdP & HsP).
    eapply spec_bind; [apply spec_gets_eq|].
    intros ? ? [-> ->]. simpl.
    eapply spec_bind; [by apply (guard_ctor_spec lessA lessV HA HV)|].
    intros g1 s1 (-> & Hr1 & Hd1). simpl in *.
    apply spec_on_unwind.
    eapply spec_bind; [apply spec_gets_eq|].
    intros ? ? [-> ->]. simpl.
    eapply spec_bind.
    { apply (guard_ctor_spec lessA lessV HA HV); simpl; try done.
      by apply guard_in_sorted. }
    intros g2 s2 (-> & Hr2 & Hd2). simpl in *.
    eapply spec_bind; [apply spec_modify_eq|].
    intros [] ? ->.
    eapply spec_bind; [apply spec_modify_eq|].
    intros [] ? ->.
    eapply spec_bind; [apply spec_modify_eq|].
    intros [] ? ->.
    apply spec_modify.
    rewrite Hd1, Hd2. unfold mxEraseIfNotEnd. rewrite !mx_erase_eq. simpl.
    rewrite delete_middle. rewrite HdN, HsN, HdP, HsP.
    apply er_present with (l1 := l1) (old := old) (l2 := l2); simpl; try done.
    rewrite (erase_node_comm lessA lessV _ (mx_find lessA lessV old m)).
    rewrite (erase_node_comm lessA lessV _ (mx_find lessA lessV old m)).
    pose proof (update_correct lessA lessV HA HV l1 [old] [] l2 m) as Hupd.
    simpl in Hupd. rewrite Nat.add_0_r in Hupd. apply Hupd; try done; try lia.
    + by apply (fn_sorted_remove lessA l1 [old] l2).
    + rewrite app_nil_r. by apply coherent_store.
    + intros x ->%list_elem_of_singleton.
      apply (old_not_in_new a l1 l2 [] old); try done.
      by intros p ?%elem_of_nil.
Qed.

End Mutators.

(** ** Reachable states *)

Section Reachable.
Context {A V : Type} (lessA : A -> A -> bool) (lessV : V -> V -> bool).
Context (HA : StrictWeak lessA) (HV : StrictWeak lessV).

Local Abbreviation point := (point_type A V).
Local Abbreviation impl := (FunctionMaximaImpl A V).
Local Abbreviation mxeq := (mx_equiv lessA lessV).
Local Abbreviation msorted := (mx_sorted lessA lessV).
Local Abbreviation fsorted := (fn_sorted lessA).
Local Abbreviation lmax := (local_maximum lessV).
Local Abbreviation eqA := (equivalentArguments lessA).
Local Abbreviation eqV := (equivalentValues lessV).
Local Abbreviation inv := (Inv lessA lessV).

(** The states an implementation object can be in: it starts empty and is
    changed by calls of its member functions, whatever their outcome. *)
Inductive reachable : impl -> Prop :=
| reach_empty : reachable (empty_impl A V)
| reach_set_value s a v k :
    reachable s -> reachable (run_state (set_value lessA lessV a v s k))
| reach_erase s a k :
    reachable s -> reachable (run_state (erase lessA lessV a s k))
| reach_value_at s a k :
    reachable s -> reachable (run_state (value_at lessA a s k)).

(** No point of the store has an argument equivalent to [a]. *)
Definition absent (a : A) (s : impl) : Prop :=
  forall p, p ∈ function s -> eqA a (arg p) = false.

(** *** [value_at] *)

Lemma value_at_run a (s : impl) k :
  value_at lessA a s k =
    match k with
    | Some 0 => (Throws Failure, s, None)
    | _ =>
        (match deref (function s) (fn_find lessA a (function s)) with
         | Some p => Returns (value p)
         | None => Throws InvalidArg
         end, s, match k with Some (S n) => Some n | _ => None end)
    end.
Proof.
  unfold value_at, find, bind, gets, may_throw, fallible, ret, throw, bind.
  destruct k as [[|n]|]; try done;
    by destruct (deref (function s) (fn_find lessA a (function s))).
Qed.

Lemma value_at_state a (s : impl) k : run_state (value_at lessA a s k) = s.
Proof.
  rewrite value_at_run. destruct k as [[|n]|]; try done;
    by destruct (deref (function s) (fn_find lessA a (function s))).
Qed.

Lemma fn_find_middle a (l1 l2 : list point) p :
  below lessA a l1 -> eqA a (arg p) = true ->
  fn_find lessA a (l1 ++ p :: l2) = Some (length l1).
Proof.
  intros Hb He. unfold equivalentArguments in He.
  apply andb_true_iff in He as [He1%negb_true_iff He2%negb_true_iff].
  induction Hb as [|q l1 Hq Hb IH]; simpl.
  - unfold fn_find. simpl. rewrite He2. simpl. by rewrite He1.
  - rewrite fn_find_cons_lt by done. by rewrite IH.
Qed.

Lemma absent_split a (l1 l2 : list point) :
  below lessA a l1 -> above lessA a l2 -> forall p, p ∈ l1 ++ l2 -> eqA a (arg p) = false.
Proof.
  intros Hb Ha p [Hp|Hp]%elem_of_app.
  - rewrite equivalentArguments_sym. eapply below_not_equiv; eauto. by apply eqA_refl.
  - rewrite equivalentArguments_sym. eapply above_not_equiv; eauto. by apply eqA_refl.
Qed.

Lemma fn_find_absent a (f : list point) :
  fsorted f -> (forall p, p ∈ f -> eqA a (arg p) = false) -> fn_find lessA a f = None.
Proof.
  intros Hf Habs.
  destruct (fn_split_total lessA HA a f Hf) as [l1 l2 -> Hfind _ _ _|l1 old l2 -> _ _ He _ _];
    [done|].
  rewrite Habs in He; [done|]. rewrite elem_of_app, elem_of_cons. tauto.
Qed.

Lemma fn_find_present a (f : list point) p :
  fsorted f -> p ∈ f -> eqA a (arg p) = true ->
  exists i, fn_find lessA a f = Some i /\ f !! i = Some p.
Proof.
  intros Hf Hp He.
  destruct (fn_split_total lessA HA a f Hf)
    as [l1 l2 -> _ _ Hb Ha|l1 old l2 -> Hfind _ Heo Hb Ha].
  - by rewrite (absent_split a l1 l2 Hb Ha p Hp) in He.
  - exists (length l1). split; [done|].
    rewrite list_lookup_middle by done. f_equal.
    rewrite elem_of_app, elem_of_cons in Hp. destruct Hp as [Hp|[->|Hp]]; [|done|].
    + pose proof (absent_split a l1 [] Hb (Forall_nil_2 _) p) as Hn.
      rewrite app_nil_r in Hn. by rewrite Hn in He.
    + pose proof (absent_split a [] l2 (Forall_nil_2 _) Ha p Hp) as Hn.
      by rewrite Hn in He.
Qed.

(** *** Every reachable state satisfies the invariant *)

Lemma set_value_run a v (s : impl) k :
  inv s ->
  run_cases (set_value lessA lessV a v) s
    (fun _ s' => set_value_post lessA lessV a v s s') (fun sf => sf = s) k.
Proof. intros Hs. apply spec_run. by apply set_value_spec. Qed.

Lemma erase_run a (s : impl) k :
  inv s ->
  run_cases (erase lessA lessV a) s
    (fun _ s' => erase_post lessA lessV a s s') (fun sf => sf = s) k.
Proof. intros Hs. apply spec_run. by apply erase_spec. Qed.

Lemma set_value_post_inv a v (s s' : impl) :
  inv s -> set_value_post lessA lessV a v s s' -> inv s'.
Proof. intros Hs [? ? ? _ _ _ _ ->|? ? ? _ _ _ _ _ _ Hs']; done. Qed.

Lemma erase_post_inv a (s s' : impl) :
  inv s -> erase_post lessA lessV a s s' -> inv s'.
Proof. intros Hs [? ? _ _ _ ->|? ? ? _ _ _ _ _ Hs']; done. Qed.

Lemma set_value_inv a v (s : impl) k :
  inv s -> inv (run_state (set_value lessA lessV a v s k)).
Proof.
  intros Hs.
  destruct (set_value_run a v s k Hs) as [x s' k' -> _ Hpost _|sf -> -> _]; simpl; [|done].
  by eapply set_value_post_inv.
Qed.

Lemma erase_inv a (s : impl) k :
  inv s -> inv (run_state (erase lessA lessV a s k)).
Proof.
  intros Hs.
  destruct (erase_run a s k Hs) as [x s' k' -> _ Hpost _|sf -> -> _]; simpl; [|done].
  by eapply erase_post_inv.
Qed.

Lemma reachable_inv (s : impl) : reachable s -> inv s.
Proof.
  induction 1 as [|s a v k _ IH|s a k _ IH|s a k _ IH].
  - apply Inv_empty.
  - by apply set_value_inv.
  - by apply erase_inv.
  - by rewrite value_at_state.
Qed.

(** *** The rescan oracle *)

Lemma mx_insert_found p q (m : list point) :
  mx_find lessA lessV p m = Some q -> (mx_insert lessA lessV p m).1 = m.
Proof.
  induction m as [|x m IH]; simpl; [done|].
  destruct (ComparePointsByMaximaOrder lessA lessV x p); simpl.
  - intros Hf. by rewrite IH.
  - by destruct (ComparePointsByMaximaOrder lessA lessV p x).
Qed.

Lemma mx_insert_guard_in p (m : list point) :
  (mx_insert lessA lessV p m).1 = guard_in lessA lessV true (Some p) m.
Proof.
  simpl. destruct (mx_find lessA lessV p m) as [q|] eqn:E.
  - rewrite bool_decide_false by done. by eapply mx_insert_found.
  - by rewrite bool_decide_true by done.
Qed.

Lemma maxima_of_elem (f : list point) x :
  x ∈ maxima_of lessV f <-> is_maximum_of lessV f x.
Proof.
  unfold maxima_of, is_maximum_of. rewrite list_elem_of_omap. split.
  - intros (i & _ & Hi). exists i. by destruct (lmax f i).
  - intros (i & Hi & Hmax). exists i. split.
    + apply elem_of_seq. apply lookup_lt_Some in Hi. lia.
    + by rewrite Hmax.
Qed.

Lemma rescan_spec (f : list point) :
  fsorted f ->
  msorted (rescan lessA lessV f) /\
  forall x, x ∈ rescan lessA lessV f <-> is_maximum_of lessV f x.
Proof.
  intros Hf. unfold rescan.
  assert (maxima_of lessV f ⊆ f) as Hsub.
  { intros x Hx%maxima_of_elem. by eapply is_maximum_of_elem. }
  assert (coherent lessA lessV f) as HU by (by apply coherent_store).
  assert (forall l, l ⊆ f ->
    let r := foldr (fun p acc => (mx_insert lessA lessV p acc).1) [] l in
    msorted r /\ r ⊆ f /\ forall x, x ∈ r <-> x ∈ l) as Hgen.
  { induction l as [|p l IH]; intros Hl; simpl.
    - split_and!; [constructor|done|done].
    - destruct IH as (Hs & Hrf & Hel); [set_solver|].
      assert (within f (Some p)) as Hw by (intros ? [= <-]; set_solver).
      rewrite mx_insert_guard_in. split_and!.
      + by apply guard_in_sorted.
      + by eapply guard_in_within.
      + intros x. rewrite (guard_in_elem lessA lessV HA HV f HU) by done.
        rewrite Hel, elem_of_cons. naive_solver. }
  destruct (Hgen _ Hsub) as (Hs & _ & Hel). split; [done|].
  intros x. by rewrite Hel, maxima_of_elem.
Qed.

Lemma inv_rescan (s : impl) : inv s -> localMaxima s = rescan lessA lessV (function s).
Proof.
  intros [Hf Hm Hmax]. destruct (rescan_spec (function s) Hf) as [Hs Hel].
  apply (mx_sorted_unique lessA lessV HA HV); [done..|].
  intros x. by rewrite Hmax, Hel.
Qed.

(** *** Consequences for lookups after a mutation *)

Lemma set_value_post_lookup a v (s s' : impl) :
  inv s -> set_value_post lessA lessV a v s s' ->
  exists p, deref (function s') (fn_find lessA a (function s')) = Some p /\
            p ∈ function s' /\ eqA a (arg p) = true /\ eqV (value p) v = true.
Proof.
  intros Hs [l1 old l2 Hf Hb Ha He ->|l1 olds l2 Hf Hb Ha _ _ Hf' _].
  - unfold equivalentPoints in He. simpl in He.
    apply andb_true_iff in He as [He1 He2]. rewrite equivalentArguments_sym in He1.
    exists old. rewrite Hf, fn_find_middle by done. simpl.
    rewrite list_lookup_middle by done. split_and!; try done.
    rewrite elem_of_app, elem_of_cons. tauto.
  - exists (Point a v). rewrite Hf', fn_find_middle by (done || apply eqA_refl; done).
    simpl. rewrite list_lookup_middle by done. split_and!; try done.
    + rewrite elem_of_app, elem_of_cons. tauto.
    + by apply eqA_refl.
    + by apply eqV_refl.
Qed.

Lemma set_value_post_absent a b v (s s' : impl) :
  eqA a b = false -> absent a s -> set_value_post lessA lessV b v s s' -> absent a s'.
Proof.
  intros Hab Habs [l1 old l2 Hf Hb Ha He ->|l1 olds l2 Hf Hb Ha _ _ Hf' _]; [done|].
  intros p. rewrite Hf', elem_of_app, elem_of_cons. intros [Hp|[->|Hp]]; [|done|].
  - apply Habs. rewrite Hf, !elem_of_app. tauto.
  - apply Habs. rewrite Hf, !elem_of_app. tauto.
Qed.

Lemma erase_post_absent a b (s s' : impl) :
  absent a s -> erase_post lessA lessV b s s' -> absent a s'.
Proof.
  intros Habs [l1 l2 Hf Hb Ha ->|l1 old l2 Hf Hb Ha He Hf' _]; [done|].
  intros p. rewrite Hf', elem_of_app. intros Hp.
  apply Habs. rewrite Hf, elem_of_app, elem_of_cons. tauto.
Qed.

Lemma erase_post_erased a (s s' : impl) :
  inv s -> erase_post lessA lessV a s s' -> absent a s'.
Proof.
  intros Hs [l1 l2 Hf Hb Ha ->|l1 old l2 Hf Hb Ha He Hf' _].
  - intros p. rewrite Hf. by apply absent_split.
  - intros p. rewrite Hf'. by apply absent_split.
Qed.

End Reachable.

(** ** The copy-on-write handle [FunctionMaxima<A, V>]

    Implementation objects live in a heap.  A handle is a
    [std::shared_ptr<Impl>]: the address of the object it co-owns.  Handles
    are named by numbers; [use_count] counts the handles that hold a given
    address. *)

Section Handles.
Context {A V : Type}.
Variable lessA : A -> A -> bool.
Variable lessV : V -> V -> bool.

Local Abbreviation impl := (FunctionMaximaImpl A V).

Record World : Type := MkWorld {
  heap : gmap nat impl;
  handles : gmap nat nat
}.

Definition empty_world : World := MkWorld ∅ ∅.

Definition use_count (w : World) (p : nat) : nat :=
  base.size (filter (fun hp : nat * nat => hp.2 = p) (handles w)).

Definition set_handle (h p : nat) (w : World) : World :=
  MkWorld (heap w) (<[h := p]> (handles w)).

(** The implementation object seen through the handle [h]. *)
Definition view (w : World) (h : nat) : option impl :=
  match handles w !! h with
  | Some p => heap w !! p
  | None => None
  end.

(** [std::make_shared<Impl>(s)]: allocates; may throw. *)
Definition make_shared (s : impl) : M World nat :=
  fallible ;;;
  hp <- gets heap ;;
  let p := fresh (dom hp) in
  modify (fun w => MkWorld (<[p := s]> (heap w)) (handles w)) ;;;
  ret p.

(** A call of a member function on the object at address [p].  A shared
    pointer never dangles, so the object is there. *)
Definition call {X} (p : nat) (m : M impl X) : M World X :=
  fun w k =>
    match heap w !! p with
    | Some s =>
        let r := m s k in
        (run_out r, MkWorld (<[p := run_state r]> (heap w)) (handles w), run_plan r)
    | None => (Throws Failure, w, k)
    end.

(** [FunctionMaxima() : cow(std::make_shared<Impl>())]; [h] names the
    handle being constructed. *)
Definition construct (h : nat) : M World unit :=
  p <- make_shared (empty_impl A V) ;;
  modify (set_handle h p).

(** The implicit copy constructor: [h'] becomes a co-owner of the
    implementation of [h]; copying a shared pointer does not throw. *)
Definition copy_construct (h h' : nat) : M World unit :=
  hs <- gets handles ;;
  match hs !! h with
  | Some p => modify (set_handle h' p)
  | None => ret tt
  end.

(** The [catch (...)] of [cowMutator]: [cow = cowBackup].  If a clone was
    made it loses its only owner and is destroyed. *)
Definition cow_restore (h p : nat) (w : World) : World :=
  match handles w !! h with
  | Some p' =>
      if decide (p' = p) then w
      else MkWorld (delete p' (heap w)) (<[h := p]> (handles w))
  | None => w
  end.

Definition cowMutator (f : M impl unit) (h : nat) : M World unit :=
  w <- gets id ;;
  match handles w !! h, view w h with
  | Some p, Some s =>
      if decide (1 < use_count w p) then
        on_unwind (
          p' <- make_shared s ;;
          modify (set_handle h p') ;;;
          call p' f)
        (cow_restore h p)
      else call p f
  | _, _ => ret tt
  end.

Definition h_set_value (h : nat) (a : A) (v : V) : M World unit :=
  cowMutator (set_value lessA lessV a v) h.

Definition h_erase (h : nat) (a : A) : M World unit :=
  cowMutator (erase lessA lessV a) h.

Definition h_value_at (h : nat) (a : A) : M World V :=
  hs <- gets handles ;;
  match hs !! h with
  | Some p => call p (value_at lessA a)
  | None => throw Failure
  end.

Definition h_size (w : World) (h : nat) : option nat := size <$> view w h.
Definition h_traversal (w : World) (h : nat) : option (list (point_type A V)) :=
  traversal <$> view w h.
Definition h_mx_traversal (w : World) (h : nat) : option (list (point_type A V)) :=
  mx_traversal <$> view w h.

(** Every handle owns a live object. *)
Definition wf (w : World) : Prop :=
  forall h p, handles w !! h = Some p -> is_Some (heap w !! p).

Lemma use_count_shared (w : World) h h' p :
  h <> h' -> handles w !! h = Some p -> handles w !! h' = Some p -> 1 < use_count w p.
Proof.
  intros Hne Hh Hh'. unfold use_count.
  assert (({[h := p; h' := p]} : gmap nat nat) ⊆
          filter (fun hp : nat * nat => hp.2 = p) (handles w)) as Hsub.
  { apply map_subseteq_spec. intros i x Hi.
    apply map_lookup_filter_Some.
    destruct (decide (i = h)) as [->|Hih].
    - rewrite lookup_insert_eq in Hi. injection Hi as <-. done.
    - rewrite lookup_insert_ne in Hi by done.
      apply lookup_singleton_Some in Hi as [<- <-]. done. }
  apply map_subseteq_size in Hsub.
  rewrite map_size_insert_None in Hsub by (by rewrite lookup_singleton_ne).
  rewrite map_size_singleton in Hsub. lia.
Qed.

Lemma view_call_other {X} (w : World) p (m : M impl X) k h' :
  handles w !! h' <> Some p ->
  view (run_state (call p m w k)) h' = view w h'.
Proof.
  intros Hne. unfold call, view.
  destruct (heap w !! p) as [s|] eqn:Hp; simpl; [|done].
  destruct (handles w !! h') as [q|] eqn:Hq; [|done].
  rewrite lookup_insert_ne; [done|]. congruence.
Qed.

(** The fault plan left once the allocation of the clone succeeded. *)
Definition after_alloc (k : faults) : faults :=
  match k with
  | Some (S n) => Some n
  | _ => None
  end.

(** What a mutation through the handle [h] does to the world. *)
Inductive cow_cases (f : M impl unit) (h : nat) (w : World) (k : faults) : Prop :=
| cow_alloc_fails p s :
    handles w !! h = Some p -> heap w !! p = Some s -> 1 < use_count w p ->
    k = Some 0 ->
    cowMutator f h w k = (Throws Failure, w, None) ->
    cow_cases f h w k
| cow_clone_returns p s p' x s' k' :
    handles w !! h = Some p -> heap w !! p = Some s -> 1 < use_count w p ->
    k <> Some 0 ->
    heap w !! p' = None ->
    f s (after_alloc k) = (Returns x, s', k') ->
    cowMutator f h w k =
      (Returns x, MkWorld (<[p' := s']> (heap w)) (<[h := p']> (handles w)), k') ->
    cow_cases f h w k
| cow_clone_throws p s e s' k' :
    handles w !! h = Some p -> heap w !! p = Some s -> 1 < use_count w p ->
    k <> Some 0 ->
    f s (after_alloc k) = (Throws e, s', k') ->
    cowMutator f h w k = (Throws e, w, k') ->
    cow_cases f h w k
| cow_in_place p s :
    handles w !! h = Some p -> heap w !! p = Some s -> ~ 1 < use_count w p ->
    cowMutator f h w k =
      (run_out (f s k), MkWorld (<[p := run_state (f s k)]> (heap w)) (handles w),
       run_plan (f s k)) ->
    cow_cases f h w k.

Lemma cowMutator_cases (f : M impl unit) h (w : World) k :
  wf w -> is_Some (handles w !! h) -> cow_cases f h w k.
Proof.
  intros Hwf [p Hh]. destruct (Hwf _ _ Hh) as [s Hs].
  assert (view w h = Some s) as Hview by (unfold view; by rewrite Hh).
  destruct w as [hp hs]. simpl in *.
  destruct (decide (1 < use_count (MkWorld hp hs) p)) as [Hc|Hc].
  - destruct (decide (k = Some 0)) as [->|Hk0].
    { eapply cow_alloc_fails; eauto.
      unfold cowMutator, bind, gets. simpl. rewrite Hh, Hview.
      rewrite decide_True by done.
      unfold on_unwind, bind, make_shared, bind, fallible. simpl.
      unfold cow_restore. simpl. rewrite Hh. by rewrite decide_True by done. }
    set (p' := fresh (dom hp)).
    assert (hp !! p' = None) as Hfresh.
    { apply not_elem_of_dom. apply is_fresh. }
    assert (p' <> p) as Hpp by (intros Heq; rewrite Heq, Hs in Hfresh; done).
    assert (cowMutator f h (MkWorld hp hs) k =
            on_unwind (call p' f) (cow_restore h p)
              (MkWorld (<[p' := s]> hp) (<[h := p']> hs)) (after_alloc k)) as Hrun.
    { unfold cowMutator, bind, gets. simpl. rewrite Hh, Hview.
      rewrite decide_True by done.
      unfold on_unwind, bind, make_shared, bind, fallible, gets, modify, ret. simpl.
      by destruct k as [[|n]|]. }
    destruct (f s (after_alloc k)) as [[[x|e] s'] k'] eqn:Hf.
    + eapply cow_clone_returns with (p' := p'); eauto.
      rewrite Hrun. unfold on_unwind, call. simpl.
      rewrite lookup_insert_eq. rewrite Hf. simpl. by rewrite insert_insert_eq.
    + eapply cow_clone_throws; eauto.
      rewrite Hrun. unfold on_unwind, call. simpl.
      rewrite lookup_insert_eq. rewrite Hf. simpl.
      unfold cow_restore. simpl. rewrite lookup_insert_eq.
      rewrite decide_False by done.
      rewrite insert_insert_eq, delete_insert_id by done.
      rewrite insert_insert_eq, insert_id by done. done.
  - eapply cow_in_place; eauto.
    unfold cowMutator, bind, gets. simpl. rewrite Hh, Hview.
    rewrite decide_False by done. unfold call. simpl. by rewrite Hs.
Qed.

(** *** Mutating through one handle never shows through another *)

Lemma cowMutator_frame (f : M impl unit) h h' (w : World) k :
  wf w -> h <> h' ->
  view (run_state (cowMutator f h w k)) h' = view w h'.
Proof.
  intros Hwf Hne.
  destruct (handles w !! h) as [p|] eqn:Hh; cycle 1.
  { unfold cowMutator, bind, gets. simpl. by rewrite Hh. }
  destruct (cowMutator_cases f h w k Hwf) as
    [p0 s Hp Hs Hc Hk ->|p0 s p' x s' k' Hp Hs Hc Hk Hfresh Hf ->
    |p0 s e s' k' Hp Hs Hc Hk Hf ->|p0 s Hp Hs Hc ->]; try done.
  - simpl. unfold view. simpl. rewrite lookup_insert_ne by done.
    destruct (handles w !! h') as [q|] eqn:Hq; [|done].
    rewrite lookup_insert_ne; [done|].
    intros <-. destruct (Hwf _ _ Hq) as [? Hsome]. by rewrite Hsome in Hfresh.
  - simpl. unfold view. simpl.
    destruct (handles w !! h') as [q|] eqn:Hq; [|done].
    rewrite lookup_insert_ne; [done|].
    intros <-. apply Hc. by eapply use_count_shared.
Qed.

Lemma copy_construct_run h h' (w : World) k :
  copy_construct h h' w k =
    (Returns tt,
     match handles w !! h with
     | Some p => set_handle h' p w
     | None => w
     end, k).
Proof.
  unfold copy_construct, bind, gets. simpl. by destruct (handles w !! h).
Qed.

Lemma copy_construct_view h h' (w : World) k :
  is_Some (handles w !! h) ->
  let w' := run_state (copy_construct h h' w k) in
  view w' h' = view w h /\ forall h'', h'' <> h' -> view w' h'' = view w h''.
Proof.
  intros [p Hp]. rewrite copy_construct_run, Hp. simpl. split.
  - unfold view. simpl. by rewrite lookup_insert_eq, Hp.
  - intros h'' Hne. unfold view. simpl. by rewrite lookup_insert_ne.
Qed.

(** *** Well-formedness is preserved *)

Lemma wf_empty : wf empty_world.
Proof. intros h p. simpl. by rewrite lookup_empty. Qed.

Lemma wf_copy_construct h h' (w : World) k :
  wf w -> wf (run_state (copy_construct h h' w k)).
Proof.
  intros Hwf. rewrite copy_construct_run. simpl.
  destruct (handles w !! h) as [p|] eqn:Hp; [|done].
  intros i q. simpl. destruct (decide (i = h')) as [->|Hi].
  - rewrite lookup_insert_eq. intros [= <-]. by eapply Hwf.
  - rewrite lookup_insert_ne by done. apply Hwf.
Qed.

Lemma construct_run h (w : World) k :
  construct h w k =
    match k with
    | Some 0 => (Throws Failure, w, None)
    | _ => (Returns tt,
            MkWorld (<[fresh (dom (heap w)) := empty_impl A V]> (heap w))
                    (<[h := fresh (dom (heap w))]> (handles w)),
            after_alloc k)
    end.
Proof.
  unfold construct, make_shared, bind, fallible, gets, modify, ret, set_handle.
  by destruct k as [[|n]|].
Qed.

Lemma wf_construct h (w : World) k :
  wf w -> wf (run_state (construct h w k)).
Proof.
  intros Hwf. rewrite construct_run.
  assert (wf (MkWorld (<[fresh (dom (heap w)) := empty_impl A V]> (heap w))
                      (<[h := fresh (dom (heap w))]> (handles w)))) as Hw.
  { intros i q. simpl. destruct (decide (i = h)) as [->|Hi].
    - rewrite lookup_insert_eq. intros [= <-]. by rewrite lookup_insert_eq.
    - rewrite lookup_insert_ne by done. intros Hq.
      destruct (Hwf _ _ Hq) as [s Hs]. exists s.
      rewrite lookup_insert_ne; [done|]. intros <-.
      assert (heap w !! fresh (dom (heap w)) = None) as Hn
        by (apply not_elem_of_dom, is_fresh).
      by rewrite Hn in Hs. }
  by destruct k as [[|n]|].
Qed.

Lemma wf_cowMutator (f : M impl unit) h (w : World) k :
  wf w -> wf (run_state (cowMutator f h w k)).
Proof.
  intros Hwf.
  destruct (handles w !! h) as [p|] eqn:Hh; cycle 1.
  { unfold cowMutator, bind, gets. simpl. by rewrite Hh. }
  destruct (cowMutator_cases f h w k Hwf) as
    [p0 s Hp Hs Hc Hk ->|p0 s p' x s' k' Hp Hs Hc Hk Hfresh Hf ->
    |p0 s e s' k' Hp Hs Hc Hk Hf ->|p0 s Hp Hs Hc ->]; try done.
  - intros i q. simpl. destruct (decide (i = h)) as [->|Hi].
    + rewrite lookup_insert_eq. intros [= <-]. by rewrite lookup_insert_eq.
    + rewrite lookup_insert_ne by done. intros Hq.
      destruct (Hwf _ _ Hq) as [s0 Hs0]. exists s0.
      rewrite lookup_insert_ne; [done|]. intros <-. by rewrite Hs0 in Hfresh.
  - intros i q. simpl. intros Hq. destruct (Hwf _ _ Hq) as [s0 Hs0].
    destruct (decide (q = p0)) as [->|Hqp].
    + by rewrite lookup_insert_eq.
    + rewrite lookup_insert_ne by done. by exists s0.
Qed.

End Handles.

(** ** Properties of the implementation object *)

Section Properties.
Context {A V : Type} (lessA : A -> A -> bool) (lessV : V -> V -> bool).
Context (HA : StrictWeak lessA) (HV : StrictWeak lessV).

Local Abbreviation point := (point_type A V).
Local Abbreviation impl := (FunctionMaximaImpl A V).
Local Abbreviation eqA := (equivalentArguments lessA).
Local Abbreviation eqV := (equivalentValues lessV).
Local Abbreviation inv := (Inv lessA lessV).
Local Abbreviation reach := (reachable lessA lessV).

(** "[P] has no neighbour on this side, or the neighbour's value is [<=]
    the value of [P]". *)
Definition neighbour_ok (nb : option point) (p : point) : Prop :=
  nb = None \/ exists q, nb = Some q /\ valueLessOrEqual lessV (value q) (value p) = true.

Lemma not_above_ok nb p : not_above lessV nb p = true <-> neighbour_ok nb p.
Proof.
  unfold neighbour_ok. destruct nb as [q|]; simpl.
  - split; [intros H; right; by exists q|]. by intros [|(? & [= <-] & ?)].
  - split; [by left|done].
Qed.

Lemma local_maximum_ok (f : list point) i x :
  f !! i = Some x ->
  local_maximum lessV f i = true <->
  neighbour_ok (left_neighbour f i) x /\ neighbour_ok (right_neighbour f i) x.
Proof.
  intros Hi. unfold local_maximum. rewrite Hi.
  by rewrite andb_true_iff, !not_above_ok.
Qed.

(** Calls on arguments other than [a], and erasures: nothing that could
    insert a point at [a]. *)
Inductive other_steps (a : A) : impl -> impl -> Prop :=
| os_refl s : other_steps a s s
| os_set_value s s' b v k :
    other_steps a s s' -> eqA a b = false ->
    other_steps a s (run_state (set_value lessA lessV b v s' k))
| os_erase s s' b k :
    other_steps a s s' ->
    other_steps a s (run_state (erase lessA lessV b s' k))
| os_value_at s s' b k :
    other_steps a s s' ->
    other_steps a s (run_state (value_at lessA b s' k)).

Lemma other_steps_absent a (s s' : impl) :
  inv s -> absent lessA a s -> other_steps a s s' -> inv s' /\ absent lessA a s'.
Proof.
  intros Hs Habs. induction 1 as [|s s' b v k _ IH Hab|s s' b k _ IH|s s' b k _ IH].
  - done.
  - destruct (IH Hs Habs) as [Hs' Habs'].
    destruct (set_value_run lessA lessV HA HV b v s' k Hs')
      as [x s2 k2 -> _ Hpost _|sf -> -> _]; simpl; [|done].
    split; [by eapply set_value_post_inv|by eapply set_value_post_absent].
  - destruct (IH Hs Habs) as [Hs' Habs'].
    destruct (erase_run lessA lessV HA HV b s' k Hs')
      as [x s2 k2 -> _ Hpost _|sf -> -> _]; simpl; [|done].
    split; [by eapply erase_post_inv|by eapply erase_post_absent].
  - rewrite value_at_state. by apply IH.
Qed.

Lemma value_at_absent a (s : impl) :
  inv s -> absent lessA a s -> value_at lessA a s None = (Throws InvalidArg, s, None).
Proof.
  intros [Hf _ _] Habs. rewrite value_at_run.
  by rewrite (fn_find_absent lessA HA a (function s) Hf Habs).
Qed.

Lemma value_at_present a (s : impl) p :
  inv s -> p ∈ function s -> eqA a (arg p) = true ->
  value_at lessA a s None = (Returns (value p), s, None).
Proof.
  intros [Hf _ _] Hp He. rewrite value_at_run.
  destruct (fn_find_present lessA HA a (function s) p Hf Hp He) as (i & -> & Hi).
  simpl. by rewrite Hi.
Qed.

(** A store that is not empty has a point of greatest value. *)
Lemma greatest_value (f : list point) :
  f <> [] -> exists g, g ∈ f /\ forall q, q ∈ f -> lessV (value g) (value q) = false.
Proof.
  induction f as [|x f IH]; [done|]. intros _.
  destruct f as [|y f].
  { exists x. split; [by left|]. intros q ->%list_elem_of_singleton. apply (sw_irrefl HV). }
  destruct IH as (g & Hg & Hmax); [done|].
  destruct (lessV (value g) (value x)) eqn:E.
  - exists x. split; [by left|]. intros q [->|Hq]%elem_of_cons; [apply (sw_irrefl HV)|].
    destruct (lessV (value x) (value q)) eqn:E2; [|done].
    rewrite <- (Hmax q Hq). symmetry. by eapply (sw_trans HV).
  - exists g. split; [by right|]. intros q [->|Hq]%elem_of_cons; [done|by apply Hmax].
Qed.

Lemma not_less_le v1 v2 : lessV v2 v1 = false -> valueLessOrEqual lessV v1 v2 = true.
Proof.
  intros H. unfold valueLessOrEqual, equivalentValues. rewrite H.
  by destruct (lessV v1 v2).
Qed.

(** ** Properties of the implementation class *)

(** C1: in every reachable state the maxima traversal yields exactly the
    stored points whose left and right neighbours (where present) have a
    value [<=] their own, in maxima order (decreasing value, ties by
    increasing argument); it is what the full rescan of the store
    computes. *)
Theorem C1_maxima_index_exact (s : impl) :
  reach s ->
  (forall x, x ∈ mx_traversal s <->
     exists i, traversal s !! i = Some x /\
               neighbour_ok (left_neighbour (traversal s) i) x /\
               neighbour_ok (right_neighbour (traversal s) i) x) /\
  StronglySorted (fun p q => ComparePointsByMaximaOrder lessA lessV p q = true)
    (mx_traversal s) /\
  mx_traversal s = rescan lessA lessV (traversal s).
Proof.
  intros Hr. pose proof (reachable_inv lessA lessV HA HV s Hr) as Hinv.
  destruct Hinv as [Hf Hm Hmax]. unfold mx_traversal, traversal. split_and!.
  - intros x. rewrite Hmax. unfold is_maximum_of. split.
    + intros (i & Hi & Hl). exists i. split; [done|]. by apply (local_maximum_ok _ _ _ Hi).
    + intros (i & Hi & Hl). exists i. split; [done|]. by apply (local_maximum_ok _ _ _ Hi).
  - exact Hm.
  - apply (inv_rescan lessA lessV HA HV). by split.
Qed.

(** A mutation through a handle that throws leaves the whole world as it
    was, provided the mutation itself rolls back on the implementation the
    handle sees. *)
Lemma cowMutator_throws (f : M impl unit) h (w : @World A V) (s : impl) k e :
  wf w -> view w h = Some s ->
  (forall k0, run_out (f s k0) = Throws e -> run_state (f s k0) = s) ->
  run_out (cowMutator f h w k) = Throws e ->
  run_state (cowMutator f h w k) = w.
Proof.
  intros Hwf Hview Hf.
  destruct (handles w !! h) as [p|] eqn:Hh; cycle 1.
  { unfold view in Hview. by rewrite Hh in Hview. }
  assert (heap w !! p = Some s) as Hs by (unfold view in Hview; by rewrite Hh in Hview).
  destruct (cowMutator_cases f h w k Hwf) as
    [p0 s0 Hp Hs0 Hc Hk ->|p0 s0 p' x s' k' Hp Hs0 Hc Hk Hfresh Hfs ->
    |p0 s0 e' s' k' Hp Hs0 Hc Hk Hfs ->|p0 s0 Hp Hs0 Hc ->]; try done.
  assert (p0 = p) as -> by congruence. assert (s0 = s) as -> by congruence.
  simpl. intros Hout. rewrite (Hf _ Hout).
  rewrite insert_id by done. by destruct w.
Qed.

(** C2: a [set_value] or [erase] that throws leaves the state exactly as
    it was and throws the injected failure; a fault that fires inside the
    call is never swallowed; and a call through a handle that throws
    leaves the whole world, every handle and every implementation object,
    as it was. *)
Theorem C2_strong_guarantee (s : impl) (a : A) (v : V) (k : faults) :
  reach s ->
  (forall e sf kf,
     set_value lessA lessV a v s k = (Throws e, sf, kf) \/
     erase lessA lessV a s k = (Throws e, sf, kf) ->
     e = Failure /\ sf = s /\
     traversal sf = traversal s /\ mx_traversal sf = mx_traversal s /\
     size sf = size s /\
     forall b kb, value_at lessA b sf kb = value_at lessA b s kb) /\
  (k <> None -> run_plan (set_value lessA lessV a v s k) = None ->
     run_out (set_value lessA lessV a v s k) = Throws Failure) /\
  (k <> None -> run_plan (erase lessA lessV a s k) = None ->
     run_out (erase lessA lessV a s k) = Throws Failure) /\
  (forall (w : @World A V) h e, wf w -> view w h = Some s ->
     (run_out (h_set_value lessA lessV h a v w k) = Throws e ->
        run_state (h_set_value lessA lessV h a v w k) = w) /\
     (run_out (h_erase lessA lessV h a w k) = Throws e ->
        run_state (h_erase lessA lessV h a w k) = w)).
Proof.
  intros Hr. pose proof (reachable_inv lessA lessV HA HV s Hr) as Hinv.
  assert (forall k0 e, run_out (set_value lessA lessV a v s k0) = Throws e ->
            run_state (set_value lessA lessV a v s k0) = s) as Hset.
  { intros k0 e.
    destruct (set_value_run lessA lessV HA HV a v s k0 Hinv)
      as [x s2 k2 Heq _ _ _|sf' Heq -> _]; by rewrite Heq. }
  assert (forall k0 e, run_out (erase lessA lessV a s k0) = Throws e ->
            run_state (erase lessA lessV a s k0) = s) as Herase.
  { intros k0 e.
    destruct (erase_run lessA lessV HA HV a s k0 Hinv)
      as [x s2 k2 Heq _ _ _|sf' Heq -> _]; by rewrite Heq. }
  split_and!; cycle 3.
  { intros w h e Hwf Hview. split.
    - apply (cowMutator_throws _ h w s k e Hwf Hview). intros k0. apply Hset.
    - apply (cowMutator_throws _ h w s k e Hwf Hview). intros k0. apply Herase. }
  - intros e sf kf [Hrun|Hrun].
    + destruct (set_value_run lessA lessV HA HV a v s k Hinv)
        as [x s2 k2 Heq _ _ _|sf' Heq -> _]; rewrite Heq in Hrun; [done|].
      by injection Hrun as <- <- <-.
    + destruct (erase_run lessA lessV HA HV a s k Hinv)
        as [x s2 k2 Heq _ _ _|sf' Heq -> _]; rewrite Heq in Hrun; [done|].
      by injection Hrun as <- <- <-.
  - intros Hk.
    destruct (set_value_run lessA lessV HA HV a v s k Hinv)
      as [x s2 k2 Heq _ _ Hplan|sf' Heq -> _]; rewrite Heq; simpl; [|done].
    intros ->. by destruct Hk; apply Hplan.
  - intros Hk.
    destruct (erase_run lessA lessV HA HV a s k Hinv)
      as [x s2 k2 Heq _ _ Hplan|sf' Heq -> _]; rewrite Heq; simpl; [|done].
    intros ->. by destruct Hk; apply Hplan.
Qed.

(** C4: without an injected fault, [value_at a] throws [InvalidArg] iff no
    stored point has an argument equivalent to [a], and returns the stored
    value otherwise; under any fault plan it leaves the state unchanged and
    differs from the fault-free run only by throwing the injected
    failure. *)
Theorem C4_value_at (s : impl) (a : A) :
  reach s ->
  (value_at lessA a s None = (Throws InvalidArg, s, None) <-> absent lessA a s) /\
  (forall p, p ∈ traversal s -> eqA a (arg p) = true ->
     value_at lessA a s None = (Returns (value p), s, None)) /\
  (forall k,
     run_state (value_at lessA a s k) = s /\
     (run_out (value_at lessA a s k) = Throws InvalidArg -> absent lessA a s) /\
     (run_out (value_at lessA a s k) = run_out (value_at lessA a s None) \/
      k = Some 0 /\ run_out (value_at lessA a s k) = Throws Failure)).
Proof.
  intros Hr. pose proof (reachable_inv lessA lessV HA HV s Hr) as Hinv.
  pose proof Hinv as [Hf _ _].
  assert (forall k, run_out (value_at lessA a s k) = Throws InvalidArg -> absent lessA a s)
    as Habs.
  { intros k Hout p Hp.
    destruct (eqA a (arg p)) eqn:E; [|done].
    destruct (fn_find_present lessA HA a (function s) p Hf Hp E) as (i & Hfind & Hi).
    rewrite value_at_run, Hfind in Hout. simpl in Hout. rewrite Hi in Hout.
    by destruct k as [[|n]|]. }
  split_and!.
  - split; [|by apply value_at_absent].
    intros Hrun. apply (Habs None). by rewrite Hrun.
  - intros p Hp He. by apply value_at_present.
  - intros k. split_and!; [apply value_at_state|apply Habs|].
    rewrite !value_at_run. destruct k as [[|n]|]; [right|left..]; done.
Qed.

(** C5: after a [set_value a v] that returned, [value_at a] returns a
    value equivalent to [v]. *)
Theorem C5_set_then_get (s : impl) (a : A) (v : V) (k : faults) (s' : impl) (k' : faults) :
  reach s ->
  set_value lessA lessV a v s k = (Returns tt, s', k') ->
  exists w, value_at lessA a s' None = (Returns w, s', None) /\ eqV w v = true.
Proof.
  intros Hr Hrun. pose proof (reachable_inv lessA lessV HA HV s Hr) as Hinv.
  destruct (set_value_run lessA lessV HA HV a v s k Hinv)
    as [x s2 k2 Heq _ Hpost _|sf' Heq -> _]; rewrite Heq in Hrun; [|done].
  injection Hrun as -> ->.
  destruct (set_value_post_lookup lessA lessV HA HV a v s s' Hinv Hpost)
    as (p & Hp & _ & _ & Hv).
  exists (value p). split; [|done]. rewrite value_at_run. by rewrite Hp.
Qed.

(** C6: [erase a] changes nothing when no point has argument [a].  When
    no comparison and no allocation fails, [erase a] returns, whether [a]
    is stored or not; under a fault plan it either returns with the same
    state or throws the injected failure and leaves the state as it was.
    After an [erase a] that returned, no point with argument [a] is left
    in the store or in the set of maxima, every other point is kept, the
    size has gone down by one if [a] was stored, and [value_at a] throws
    [InvalidArg] for as long as no [set_value] on [a] is made. *)
Theorem C6_erase (s : impl) (a : A) (k : faults) :
  reach s ->
  (absent lessA a s ->
     run_state (erase lessA lessV a s k) = s /\
     erase lessA lessV a s None = (Returns tt, s, None)) /\
  (exists s1,
     erase lessA lessV a s None = (Returns tt, s1, None) /\
     ((exists k1, erase lessA lessV a s k = (Returns tt, s1, k1)) \/
      (k <> None /\ erase lessA lessV a s k = (Throws Failure, s, None))) /\
     (forall p, p ∈ traversal s1 \/ p ∈ mx_traversal s1 -> eqA a (arg p) = false) /\
     (forall p, p ∈ traversal s -> eqA a (arg p) = false -> p ∈ traversal s1) /\
     (forall p, p ∈ traversal s -> eqA a (arg p) = true -> S (size s1) = size s) /\
     forall s2, other_steps a s1 s2 ->
                value_at lessA a s2 None = (Throws InvalidArg, s2, None)) /\
  (forall s1 k1, erase lessA lessV a s k = (Returns tt, s1, k1) ->
     (forall p, p ∈ traversal s1 \/ p ∈ mx_traversal s1 -> eqA a (arg p) = false) /\
     (forall p, p ∈ traversal s -> eqA a (arg p) = false -> p ∈ traversal s1) /\
     forall s2, other_steps a s1 s2 ->
                value_at lessA a s2 None = (Throws InvalidArg, s2, None)).
Proof.
  intros Hr. pose proof (reachable_inv lessA lessV HA HV s Hr) as Hinv.
  assert (forall k0 x s2 k2, absent lessA a s ->
            erase lessA lessV a s k0 = (x, s2, k2) -> s2 = s) as Hnoop.
  { intros k0 x s2 k2 Habs Hrun.
    destruct (erase_run lessA lessV HA HV a s k0 Hinv)
      as [y s3 k3 Heq _ Hpost _|sf' Heq -> _]; rewrite Heq in Hrun.
    - injection Hrun as _ <- _.
      destruct Hpost as [l1 l2 Hf Hb Ha ->|l1 old l2 Hf Hb Ha He Hf' _]; [done|].
      rewrite Habs in He; [done|]. rewrite Hf, elem_of_app, elem_of_cons. tauto.
    - by injection Hrun as _ <- _. }
  assert (forall s1, erase_post lessA lessV a s s1 ->
            (forall p, p ∈ traversal s1 \/ p ∈ mx_traversal s1 -> eqA a (arg p) = false) /\
            (forall p, p ∈ traversal s -> eqA a (arg p) = false -> p ∈ traversal s1) /\
            (forall p, p ∈ traversal s -> eqA a (arg p) = true -> S (size s1) = size s) /\
            forall s2, other_steps a s1 s2 ->
                       value_at lessA a s2 None = (Throws InvalidArg, s2, None)) as Hprops.
  { intros s1 Hpost.
    assert (inv s1) as Hinv1 by (eapply erase_post_inv; eauto).
    assert (absent lessA a s1) as Habs1
      by exact (erase_post_erased lessA lessV HA a s s1 Hinv Hpost).
    split_and!.
    + intros p [Hp|Hp]; [by apply Habs1|].
      apply Habs1. by eapply Inv_maxima_subseteq.
    + intros p Hp He. unfold traversal in *.
      destruct Hpost as [l1 l2 Hf Hb Ha ->|l1 old l2 Hf Hb Ha Heo Hf' _]; [done|].
      rewrite Hf, elem_of_app, elem_of_cons in Hp. rewrite Hf', elem_of_app.
      destruct Hp as [Hp|[->|Hp]]; [by left| |by right].
      by rewrite Heo in He.
    + intros p Hp He. unfold traversal, size in *.
      destruct Hpost as [l1 l2 Hf Hb Ha ->|l1 old l2 Hf Hb Ha Heo Hf' _].
      * by rewrite (Habs1 p Hp) in He.
      * rewrite Hf', Hf, !length_app. simpl. lia.
    + intros s2 Hsteps.
      destruct (other_steps_absent a s1 s2 Hinv1 Habs1 Hsteps) as [Hinv2 Habs2].
      by apply value_at_absent. }
  split_and!.
  - intros Habs. split.
    + destruct (erase lessA lessV a s k) as [[x s2] k2] eqn:Hrun. simpl.
      by eapply Hnoop.
    + destruct (erase_run lessA lessV HA HV a s None Hinv)
        as [[] s3 k3 Heq _ Hpost Hplan|sf' Heq -> Hn]; [|done].
      rewrite Heq. assert (k3 = None) as -> by (by apply Hplan).
      by rewrite (Hnoop None _ _ _ Habs Heq).
  - destruct (erase_run lessA lessV HA HV a s None Hinv)
      as [[] s1 k1 _ Hnone0 Hpost0 _|sf' _ _ Hn]; [|done].
    exists s1. split; [done|]. split; [|by apply Hprops].
    destruct (erase_run lessA lessV HA HV a s k Hinv)
      as [[] s3 k3 Heq Hnone _ _|sf' Heq -> Hk].
    + left. exists k3. rewrite Heq. rewrite Hnone in Hnone0. by injection Hnone0 as ->.
    + right. by split.
  - intros s1 k1 Hrun.
    destruct (erase_run lessA lessV HA HV a s k Hinv)
      as [y s3 k3 Heq _ Hpost _|sf' Heq -> _]; rewrite Heq in Hrun; [|done].
    injection Hrun as -> ->.
    destruct (Hprops s1 Hpost) as (H1 & H2 & _ & H3). done.
Qed.

(** C9: in every reachable state no two stored points have equivalent
    arguments; the insertion step inside [set_value] puts the new point
    right after the point it supersedes, so that both are in the store
    until the old one is erased at the end of the call. *)
Theorem C9_unique_arguments (s : impl) :
  reach s ->
  (forall i j p q, traversal s !! i = Some p -> traversal s !! j = Some q ->
                   eqA (arg p) (arg q) = true -> i = j) /\
  (forall a v i old, traversal s !! i = Some old -> eqA a (arg old) = true ->
     let s1 := run_state (function_insert lessA (Point a v) s None) in
     traversal s1 !! i = Some old /\ traversal s1 !! S i = Some (Point a v) /\
     length (traversal s1) = S (length (traversal s))).
Proof.
  intros Hr. pose proof (reachable_inv lessA lessV HA HV s Hr) as [Hf _ _].
  unfold traversal. split.
  - intros i j p q Hi Hj He. by eapply fn_sorted_lookup_inj.
  - intros a v i old Hi He. simpl.
    destruct (fn_split_total lessA HA a (function s) Hf)
      as [l1 l2 Hfeq _ _ Hb Ha|l1 old' l2 Hfeq _ Hub Heo Hb Ha].
    + rewrite (absent_split lessA HA a l1 l2 Hb Ha old) in He; [done|].
      rewrite <- Hfeq. by eapply list_elem_of_lookup_2.
    + assert (function s !! length l1 = Some old') as Hl
        by (rewrite Hfeq; by apply list_lookup_middle).
      assert (i = length l1) as ->.
      { eapply fn_sorted_lookup_inj; eauto.
        unfold equivalentArguments in *.
        apply andb_true_iff in He as [He1%negb_true_iff He2%negb_true_iff].
        apply andb_true_iff in Heo as [Ho1%negb_true_iff Ho2%negb_true_iff].
        by rewrite (sw_negtrans HA _ _ _ He2 Ho1), (sw_negtrans HA _ _ _ Ho2 He1). }
      assert (old' = old) as -> by congruence.
      rewrite Hub, Hfeq, (insert_at_after l1 old (Point a v) l2).
      split_and!.
      * by apply list_lookup_middle.
      * rewrite lookup_app_r by lia.
        by replace (S (length l1) - length l1) with 1 by lia.
      * rewrite !length_app. simpl. lia.
Qed.

(** C10: in a reachable state with at least one point the maxima
    traversal is not empty and starts with a point whose value is [>=] the
    value of every stored point. *)
Theorem C10_global_maximum_first (s : impl) :
  reach s -> 0 < size s ->
  exists p rest, mx_traversal s = p :: rest /\
    forall q, q ∈ traversal s -> valueLessOrEqual lessV (value q) (value p) = true.
Proof.
  intros Hr Hsize. pose proof (reachable_inv lessA lessV HA HV s Hr) as [Hf Hm Hmax].
  unfold size, mx_traversal, traversal in *.
  destruct (greatest_value (function s)) as (g & Hg & Hgmax).
  { intros Hnil. rewrite Hnil in Hsize. simpl in Hsize. lia. }
  assert (g ∈ localMaxima s) as Hgm.
  { apply Hmax. apply list_elem_of_lookup in Hg as [i Hi]. exists i. split; [done|].
    unfold local_maximum. rewrite Hi. apply andb_true_iff. split.
    - destruct (left_neighbour (function s) i) as [q|] eqn:Hq; simpl; [|done].
      apply not_less_le, Hgmax. destruct i; simpl in Hq; [done|].
      by eapply list_elem_of_lookup_2.
    - unfold right_neighbour.
      destruct (function s !! S i) as [q|] eqn:Hq; simpl; [|done].
      apply not_less_le, Hgmax. by eapply list_elem_of_lookup_2. }
  destruct (localMaxima s) as [|p rest] eqn:Hlm; [by apply elem_of_nil in Hgm|].
  exists p, rest. split; [done|].
  assert (p ∈ function s) as Hp.
  { apply (is_maximum_of_elem lessV). apply Hmax. by left. }
  assert (lessV (value p) (value g) = false) as Hpg.
  { apply elem_of_cons in Hgm as [->|Hgm]; [apply (sw_irrefl HV)|].
    apply StronglySorted_cons in Hm as [Hall _]. rewrite Forall_forall in Hall.
    specialize (Hall _ Hgm). unfold mx_lt, ComparePointsByMaximaOrder in Hall.
    rewrite (Hgmax p Hp) in Hall. simpl in Hall.
    unfold equivalentValues in Hall.
    by destruct (lessV (value p) (value g)). }
  intros q Hq. apply not_less_le.
  apply (sw_negtrans HV _ _ _ Hpg (Hgmax q Hq)).
Qed.

End Properties.

(** ** Properties of the handles *)

Section HandleProperties.
Context {A V : Type} (lessA : A -> A -> bool) (lessV : V -> V -> bool).

Local Abbreviation impl := (FunctionMaximaImpl A V).
Local Abbreviation world := (@World A V).

(** Everything a caller can observe through the handle [h] is the same in
    [w] and [w']. *)
Definition same_observations (w w' : world) (h : nat) : Prop :=
  h_size w' h = h_size w h /\
  h_traversal w' h = h_traversal w h /\
  h_mx_traversal w' h = h_mx_traversal w h /\
  forall a k, run_out (h_value_at lessA h a w' k) = run_out (h_value_at lessA h a w k).

Lemma h_value_at_out h a (w : world) k :
  run_out (h_value_at lessA h a w k) =
    match view w h with
    | Some s => run_out (value_at lessA a s k)
    | None => Throws Failure
    end.
Proof.
  unfold h_value_at, view, bind, gets, call, throw. simpl.
  destruct (handles w !! h) as [p|]; [|done].
  by destruct (heap w !! p).
Qed.

Lemma view_same_observations (w w' : world) h :
  view w' h = view w h -> same_observations w w' h.
Proof.
  intros Hv. unfold same_observations, h_size, h_traversal, h_mx_traversal.
  rewrite Hv. split_and!; try done.
  intros a k. by rewrite !h_value_at_out, Hv.
Qed.

(** The worlds the public operations can build. *)
Inductive wreachable : world -> Prop :=
| wr_empty : wreachable empty_world
| wr_construct w h k :
    wreachable w -> wreachable (run_state (construct h w k))
| wr_copy w h h' k :
    wreachable w -> wreachable (run_state (copy_construct h h' w k))
| wr_set_value w h a v k :
    wreachable w -> wreachable (run_state (h_set_value lessA lessV h a v w k))
| wr_erase w h a k :
    wreachable w -> wreachable (run_state (h_erase lessA lessV h a w k)).

Lemma wreachable_wf (w : world) : wreachable w -> wf w.
Proof.
  induction 1.
  - apply wf_empty.
  - by apply wf_construct.
  - by apply wf_copy_construct.
  - by apply wf_cowMutator.
  - by apply wf_cowMutator.
Qed.

Definition heap_ok (w : world) : Prop :=
  forall p s, heap w !! p = Some s -> reachable lessA lessV s.

Lemma heap_ok_cowMutator (f : M impl unit) h (w : world) k :
  wf w -> heap_ok w ->
  (forall s k0, reachable lessA lessV s -> reachable lessA lessV (run_state (f s k0))) ->
  heap_ok (run_state (cowMutator f h w k)).
Proof.
  intros Hwf Hok Hf.
  destruct (handles w !! h) as [p|] eqn:Hh; cycle 1.
  { unfold cowMutator, bind, gets. simpl. by rewrite Hh. }
  destruct (cowMutator_cases f h w k Hwf) as
    [p0 s Hp Hs Hc Hk ->|p0 s p' x s' k' Hp Hs Hc Hk Hfresh Hfs ->
    |p0 s e' s' k' Hp Hs Hc Hk Hfs ->|p0 s Hp Hs Hc ->]; try done.
  - intros q sq. simpl. destruct (decide (q = p')) as [->|Hq].
    + rewrite lookup_insert_eq. intros [= <-].
      pose proof (Hf s (after_alloc k) (Hok _ _ Hs)) as Hr. by rewrite Hfs in Hr.
    + rewrite lookup_insert_ne by done. apply Hok.
  - intros q sq. simpl. destruct (decide (q = p0)) as [->|Hq].
    + rewrite lookup_insert_eq. intros [= <-]. apply Hf. by eapply Hok.
    + rewrite lookup_insert_ne by done. apply Hok.
Qed.

(** Every implementation object of a world built by the public operations
    is in a reachable state. *)
Lemma wreachable_heap (w : world) : wreachable w -> heap_ok w.
Proof.
  induction 1 as [|w h k Hw IH|w h h' k Hw IH|w h a v k Hw IH|w h a k Hw IH].
  - intros p s. simpl. by rewrite lookup_empty.
  - rewrite construct_run.
    assert (heap_ok (MkWorld (<[fresh (dom (heap w)) := empty_impl A V]> (heap w))
                             (<[h := fresh (dom (heap w))]> (handles w)))) as Hok.
    { intros q sq. simpl. destruct (decide (q = fresh (dom (heap w)))) as [->|Hq].
      - rewrite lookup_insert_eq. intros [= <-]. constructor.
      - rewrite lookup_insert_ne by done. apply IH. }
    by destruct k as [[|n]|].
  - rewrite copy_construct_run. simpl. by destruct (handles w !! h).
  - apply heap_ok_cowMutator; [by apply wreachable_wf|done|].
    intros s k0 Hs. by constructor.
  - apply heap_ok_cowMutator; [by apply wreachable_wf|done|].
    intros s k0 Hs. by constructor.
Qed.

(** C3: a mutation through the handle [h], whatever its outcome, changes
    no observation through another handle [h'], also when the two share
    one implementation because one was copied from the other; copying a
    handle changes no observation. *)
Theorem C3_copy_on_write (w : world) (h h' : nat) :
  wf w -> h <> h' ->
  (forall a v k, same_observations w (run_state (h_set_value lessA lessV h a v w k)) h') /\
  (forall a k, same_observations w (run_state (h_erase lessA lessV h a w k)) h') /\
  (forall k0, is_Some (handles w !! h) ->
     let w1 := run_state (copy_construct h h' w k0) in
     run_out (copy_construct h h' w k0) = Returns tt /\
     handles w1 !! h' = handles w1 !! h /\
     view w1 h' = view w h /\
     (forall h'', h'' <> h' -> same_observations w w1 h'') /\
     forall a v k,
       same_observations w1 (run_state (h_set_value lessA lessV h a v w1 k)) h' /\
       same_observations w1 (run_state (h_set_value lessA lessV h' a v w1 k)) h /\
       same_observations w1 (run_state (h_erase lessA lessV h a w1 k)) h' /\
       same_observations w1 (run_state (h_erase lessA lessV h' a w1 k)) h).
Proof.
  intros Hwf Hne. split_and!.
  - intros a v k. apply view_same_observations. by apply cowMutator_frame.
  - intros a k. apply view_same_observations. by apply cowMutator_frame.
  - intros k0 Hh. simpl.
    pose proof (wf_copy_construct h h' w k0 Hwf) as Hwf1.
    destruct (copy_construct_view h h' w k0 Hh) as [Hv1 Hv2]. simpl in Hv1, Hv2.
    split_and!.
    + by rewrite copy_construct_run.
    + rewrite copy_construct_run. destruct Hh as [p Hp]. rewrite Hp. simpl.
      by rewrite lookup_insert_eq, lookup_insert_ne.
    + done.
    + intros h'' Hh''. apply view_same_observations. by apply Hv2.
    + intros a v k. split_and!; apply view_same_observations;
        by apply cowMutator_frame.
Qed.

End HandleProperties.

(** ** The scenario of the specification, on integers *)

Inductive fm_call : Type :=
| SetValue (a v : Z)
| Erase (a : Z).

Definition run_call (c : fm_call) : M (FunctionMaximaImpl Z Z) unit :=
  match c with
  | SetValue a v => set_value Z.ltb Z.ltb a v
  | Erase a => erase Z.ltb Z.ltb a
  end.

(** Runs the calls without injected faults; [None] if one of them throws. *)
Fixpoint run_calls (cs : list fm_call) (s : FunctionMaximaImpl Z Z) :
    option (FunctionMaximaImpl Z Z) :=
  match cs with
  | [] => Some s
  | c :: cs' =>
      match run_call c s None with
      | (Returns _, s', _) => run_calls cs' s'
      | (Throws _, _, _) => None
      end
  end.

(** The same through a handle. *)
Fixpoint run_handle_calls (h : nat) (cs : list fm_call) (w : World) :
    option (@World Z Z) :=
  match cs with
  | [] => Some w
  | c :: cs' =>
      match cowMutator (run_call c) h w None with
      | (Returns _, w', _) => run_handle_calls h cs' w'
      | (Throws _, _, _) => None
      end
  end.

Definition scenario_inserts : list fm_call :=
  [SetValue 1 10; SetValue 2 20; SetValue 3 10; SetValue 4 30; SetValue 5 5].

Definition after_inserts : FunctionMaximaImpl Z Z :=
  Impl [Point 1 10; Point 2 20; Point 3 10; Point 4 30; Point 5 5]%Z
       [Point 4 30; Point 2 20]%Z.

Definition after_erase : FunctionMaximaImpl Z Z :=
  Impl [Point 1 10; Point 2 20; Point 3 10; Point 5 5]%Z
       [Point 2 20]%Z.

Lemma run_calls_reachable cs s s' :
  reachable Z.ltb Z.ltb s -> run_calls cs s = Some s' -> reachable Z.ltb Z.ltb s'.
Proof.
  revert s. induction cs as [|c cs IH]; intros s Hs; simpl.
  - by intros [= <-].
  - destruct (run_call c s None) as [[[x|e] s1] k1] eqn:Hrun; [|done].
    apply IH.
    assert (s1 = run_state (run_call c s None)) as -> by (by rewrite Hrun).
    destruct c; by constructor.
Qed.

Lemma after_inserts_reachable : reachable Z.ltb Z.ltb after_inserts.
Proof.
  apply (run_calls_reachable scenario_inserts (empty_impl Z Z)); [constructor|].
  vm_compute. reflexivity.
Qed.

Lemma after_erase_reachable : reachable Z.ltb Z.ltb after_erase.
Proof.
  apply (run_calls_reachable [Erase 4] after_inserts); [apply after_inserts_reachable|].
  vm_compute. reflexivity.
Qed.

(** The world with the single handle [0] owning [s] at address [0]. *)
Definition one_handle (s : FunctionMaximaImpl Z Z) : @World Z Z :=
  MkWorld {[ 0 := s ]} {[ 0 := 0 ]}.

(** C8: the five insertions leave the maxima (4,30), (2,20), in this
    order; erasing 4 leaves (2,20) alone.  The same is observed through a
    handle. *)
Theorem C8_scenario :
  run_calls scenario_inserts (empty_impl Z Z) = Some after_inserts /\
  mx_traversal after_inserts = [Point 4 30; Point 2 20]%Z /\
  run_calls [Erase 4] after_inserts = Some after_erase /\
  mx_traversal after_erase = [Point 2 20]%Z /\
  construct 0 empty_world None = (Returns tt, one_handle (empty_impl Z Z), None) /\
  run_handle_calls 0 scenario_inserts (one_handle (empty_impl Z Z)) =
    Some (one_handle after_inserts) /\
  h_mx_traversal (one_handle after_inserts) 0 = Some [Point 4 30; Point 2 20]%Z /\
  run_handle_calls 0 [Erase 4] (one_handle after_inserts) = Some (one_handle after_erase) /\
  h_mx_traversal (one_handle after_erase) 0 = Some [Point 2 20]%Z.
Proof.
  split_and!; vm_compute; reflexivity.
Qed.

(** ** Setting a value that is already there *)

Section Noop.
Context {A V : Type} (lessA : A -> A -> bool) (lessV : V -> V -> bool).
Context (HA : StrictWeak lessA) (HV : StrictWeak lessV).

Local Abbreviation point := (point_type A V).
Local Abbreviation impl := (FunctionMaximaImpl A V).
Local Abbreviation eqA := (equivalentArguments lessA).
Local Abbreviation eqV := (equivalentValues lessV).
Local Abbreviation inv := (Inv lessA lessV).
Local Abbreviation reach := (reachable lessA lessV).

Lemma cowMutator_noop (f : M impl unit) h (w : @World A V) (s : impl) k :
  wf w -> view w h = Some s ->
  (forall k0, run_state (f s k0) = s) ->
  view (run_state (cowMutator f h w k)) h = Some s.
Proof.
  intros Hwf Hview Hf.
  destruct (handles w !! h) as [p|] eqn:Hh; cycle 1.
  { unfold view in Hview. by rewrite Hh in Hview. }
  assert (heap w !! p = Some s) as Hs by (unfold view in Hview; by rewrite Hh in Hview).
  destruct (cowMutator_cases f h w k Hwf) as
    [p0 s0 Hp Hs0 Hc Hk ->|p0 s0 p' x s' k' Hp Hs0 Hc Hk Hfresh Hfs ->
    |p0 s0 e' s' k' Hp Hs0 Hc Hk Hfs ->|p0 s0 Hp Hs0 Hc ->]; try done;
    assert (p0 = p) as -> by congruence; assert (s0 = s) as -> by congruence.
  - simpl. unfold view. simpl. rewrite !lookup_insert_eq.
    f_equal. specialize (Hf (after_alloc k)). by rewrite Hfs in Hf.
  - simpl. unfold view. simpl. rewrite Hh, lookup_insert_eq. by rewrite Hf.
Qed.

(** C7 (as amended): when [a] is already mapped to a value equivalent to
    [v], [set_value a v] never changes the state, whether it returns or
    throws; it returns unless one of the four fallible steps that precede
    the equivalence test (the lookup, the two allocations of the candidate
    point, the comparison) throws; and a second [set_value a v] after one
    that returned changes nothing.  Through a handle the observed
    implementation stays the same as well (a handle that shares its
    implementation ends up owning an identical clone). *)
Theorem C7_noop_set_value (s : impl) (a : A) (v : V) :
  reach s ->
  (forall p, p ∈ traversal s -> equivalentPoints lessA lessV p (Point a v) = true ->
     (forall k, run_state (set_value lessA lessV a v s k) = s) /\
     set_value lessA lessV a v s None = (Returns tt, s, None) /\
     (forall n, run_out (set_value lessA lessV a v s (Some n)) =
                if decide (n < 4) then Throws Failure else Returns tt) /\
     forall (w : @World A V) h k,
       wf w -> view w h = Some s ->
       view (run_state (h_set_value lessA lessV h a v w k)) h = Some s) /\
  (forall k1 s1 k1' k2 s2 k2',
     set_value lessA lessV a v s k1 = (Returns tt, s1, k1') ->
     set_value lessA lessV a v s1 k2 = (Returns tt, s2, k2') ->
     s2 = s1).
Proof.
  intros Hr. pose proof (reachable_inv lessA lessV HA HV s Hr) as Hinv.
  assert (forall (s0 : impl) p, inv s0 -> p ∈ function s0 ->
            equivalentPoints lessA lessV p (Point a v) = true ->
            forall k, set_value lessA lessV a v s0 k =
              match k with
              | None => (Returns tt, s0, None)
              | Some n => if decide (n < 4) then (Throws Failure, s0, None)
                          else (Returns tt, s0, Some (n - 4))
              end) as Hnoop.
  { intros s0 p [Hf0 _ _] Hp He k.
    pose proof He as He'. unfold equivalentPoints in He'. simpl in He'.
    apply andb_true_iff in He' as [HeA _]. rewrite equivalentArguments_sym in HeA.
    destruct (fn_find_present lessA HA a (function s0) p Hf0 Hp HeA) as (i & Hfind & Hi).
    destruct k as [[|[|[|[|n]]]]|];
      unfold set_value, find, new_point, may_throw, bind, gets, fallible, ret; simpl;
      rewrite ?Hfind; simpl; rewrite ?Hi; simpl; rewrite ?He; simpl; try done.
    do 2 f_equal. lia. }
  split.
  - intros p Hp He. split_and!.
    + intros k. rewrite (Hnoop s p Hinv Hp He).
      destruct k as [n|]; [|done]. by case_decide.
    + by rewrite (Hnoop s p Hinv Hp He).
    + intros n. rewrite (Hnoop s p Hinv Hp He). by case_decide.
    + intros w h k Hwf Hview. apply cowMutator_noop; [done..|].
      intros k0. rewrite (Hnoop s p Hinv Hp He).
      destruct k0 as [n|]; [|done]. by case_decide.
  - intros k1 s1 k1' k2 s2 k2' Hrun1 Hrun2.
    destruct (set_value_run lessA lessV HA HV a v s k1 Hinv)
      as [x s3 k3 Heq _ Hpost _|sf' Heq -> _]; rewrite Heq in Hrun1; [|done].
    injection Hrun1 as -> ->.
    assert (inv s1) as Hinv1 by (eapply set_value_post_inv; eauto).
    destruct (set_value_post_lookup lessA lessV HA HV a v s s1 Hinv Hpost)
      as (p & _ & Hp & HeA & HeV).
    assert (equivalentPoints lessA lessV p (Point a v) = true) as He.
    { unfold equivalentPoints. simpl. by rewrite equivalentArguments_sym, HeA, HeV. }
    rewrite (Hnoop s1 p Hinv1 Hp He) in Hrun2.
    destruct k2 as [n|]; [case_decide|]; congruence.
Qed.

End Noop.

(** ** The statements at concrete functions over the integers *)

Lemma wf_one_handle (s : FunctionMaximaImpl Z Z) : wf (one_handle s).
Proof.
  intros h p Hh. unfold one_handle in *. simpl in *.
  apply lookup_singleton_Some in Hh as [<- <-].
  rewrite lookup_singleton_eq. by eexists.
Qed.

(** Two handles, [0] and [1], sharing the implementation of the scenario. *)
Definition shared_world : @World Z Z :=
  run_state (copy_construct 0 1 (one_handle after_inserts) None).

Lemma wf_shared_world : wf shared_world.
Proof. apply wf_copy_construct, wf_one_handle. Qed.

(** The scenario's function with the value at 3 raised to 40. *)
Definition after_raise : FunctionMaximaImpl Z Z :=
  Impl [Point 1 10; Point 2 20; Point 3 40; Point 4 30; Point 5 5]%Z
       [Point 3 40]%Z.

(** The equal-value [set_value 3 10] on the scenario's function can throw:
    the second fallible step, the first allocation of the candidate point,
    fails, although [value_at 3] is already 10.  And through a handle that
    shares its implementation the same call, when it returns, has moved the
    handle from the object at address 0 to a freshly allocated clone at
    address 1. *)
Lemma C7_counterexample :
  value_at Z.ltb 3%Z after_inserts None = (Returns 10%Z, after_inserts, None) /\
  set_value Z.ltb Z.ltb 3%Z 10%Z after_inserts (Some 1) =
    (Throws Failure, after_inserts, None) /\
  view shared_world 0 = Some after_inserts /\
  handles shared_world !! 0 = Some 0 /\
  heap shared_world !! 1 = None /\
  run_out (h_set_value Z.ltb Z.ltb 0 3%Z 10%Z shared_world None) = Returns tt /\
  handles (run_state (h_set_value Z.ltb Z.ltb 0 3%Z 10%Z shared_world None)) !! 0 = Some 1 /\
  heap (run_state (h_set_value Z.ltb Z.ltb 0 3%Z 10%Z shared_world None)) !! 1 =
    Some after_inserts.
Proof. split_and!; vm_compute; reflexivity. Qed.

Lemma C1_witness :
  reachable Z.ltb Z.ltb after_inserts /\
  mx_traversal after_inserts = rescan Z.ltb Z.ltb (traversal after_inserts).
Proof.
  split; [apply after_inserts_reachable|].
  apply (C1_maxima_index_exact Z.ltb Z.ltb Zltb_StrictWeak Zltb_StrictWeak after_inserts).
  apply after_inserts_reachable.
Defined.

Lemma C2_witness :
  reachable Z.ltb Z.ltb after_inserts /\
  (forall e sf kf,
     set_value Z.ltb Z.ltb 3%Z 40%Z after_inserts (Some 5) = (Throws e, sf, kf) \/
     erase Z.ltb Z.ltb 3%Z after_inserts (Some 5) = (Throws e, sf, kf) ->
     e = Failure /\ sf = after_inserts /\
     traversal sf = traversal after_inserts /\
     mx_traversal sf = mx_traversal after_inserts /\
     size sf = size after_inserts /\
     forall b kb, value_at Z.ltb b sf kb = value_at Z.ltb b after_inserts kb).
Proof.
  split; [apply after_inserts_reachable|].
  apply (C2_strong_guarantee Z.ltb Z.ltb Zltb_StrictWeak Zltb_StrictWeak
           after_inserts 3%Z 40%Z (Some 5)).
  apply after_inserts_reachable.
Defined.

Lemma C3_witness :
  wf shared_world /\ 0 <> 1 /\
  same_observations Z.ltb shared_world
    (run_state (h_set_value Z.ltb Z.ltb 0 3%Z 40%Z shared_world None)) 1.
Proof.
  split; [apply wf_shared_world|]. split; [lia|].
  assert (0 <> 1) as Hne by lia.
  destruct (C3_copy_on_write Z.ltb Z.ltb shared_world 0 1 wf_shared_world Hne) as [H _].
  apply H.
Defined.

Lemma C4_witness :
  reachable Z.ltb Z.ltb after_inserts /\
  (value_at Z.ltb 6%Z after_inserts None = (Throws InvalidArg, after_inserts, None) <->
   absent Z.ltb 6%Z after_inserts).
Proof.
  split; [apply after_inserts_reachable|].
  apply (C4_value_at Z.ltb Z.ltb Zltb_StrictWeak Zltb_StrictWeak after_inserts 6%Z).
  apply after_inserts_reachable.
Defined.

Lemma C5_witness :
  reachable Z.ltb Z.ltb after_inserts /\
  set_value Z.ltb Z.ltb 3%Z 40%Z after_inserts None = (Returns tt, after_raise, None) /\
  exists w, value_at Z.ltb 3%Z after_raise None = (Returns w, after_raise, None) /\
            equivalentValues Z.ltb w 40%Z = true.
Proof.
  split; [apply after_inserts_reachable|]. split; [vm_compute; reflexivity|].
  apply (C5_set_then_get Z.ltb Z.ltb Zltb_StrictWeak Zltb_StrictWeak
           after_inserts 3%Z 40%Z None after_raise None).
  - apply after_inserts_reachable.
  - vm_compute; reflexivity.
Defined.

Lemma C6_witness :
  reachable Z.ltb Z.ltb after_inserts /\
  Point 4%Z 30%Z ∈ traversal after_inserts /\
  erase Z.ltb Z.ltb 4%Z after_inserts None = (Returns tt, after_erase, None) /\
  exists s1,
    erase Z.ltb Z.ltb 4%Z after_inserts None = (Returns tt, s1, None) /\
    ((exists k1, erase Z.ltb Z.ltb 4%Z after_inserts None = (Returns tt, s1, k1)) \/
     (@None nat <> None /\
      erase Z.ltb Z.ltb 4%Z after_inserts None = (Throws Failure, after_inserts, None))) /\
    (forall p, p ∈ traversal s1 \/ p ∈ mx_traversal s1 ->
               equivalentArguments Z.ltb 4%Z (arg p) = false) /\
    (forall p, p ∈ traversal after_inserts ->
               equivalentArguments Z.ltb 4%Z (arg p) = false -> p ∈ traversal s1) /\
    (forall p, p ∈ traversal after_inserts ->
               equivalentArguments Z.ltb 4%Z (arg p) = true ->
               S (size s1) = size after_inserts) /\
    forall s2, other_steps Z.ltb Z.ltb 4%Z s1 s2 ->
               value_at Z.ltb 4%Z s2 None = (Throws InvalidArg, s2, None).
Proof.
  split; [apply after_inserts_reachable|].
  split; [by apply (list_elem_of_lookup_2 _ 3)|].
  split; [vm_compute; reflexivity|].
  apply (C6_erase Z.ltb Z.ltb Zltb_StrictWeak Zltb_StrictWeak after_inserts 4%Z None).
  apply after_inserts_reachable.
Defined.

Lemma C7_witness :
  reachable Z.ltb Z.ltb after_inserts /\
  forall k1 s1 k1' k2 s2 k2',
    set_value Z.ltb Z.ltb 3%Z 40%Z after_inserts k1 = (Returns tt, s1, k1') ->
    set_value Z.ltb Z.ltb 3%Z 40%Z s1 k2 = (Returns tt, s2, k2') ->
    s2 = s1.
Proof.
  split; [apply after_inserts_reachable|].
  apply (C7_noop_set_value Z.ltb Z.ltb Zltb_StrictWeak Zltb_StrictWeak
           after_inserts 3%Z 40%Z).
  apply after_inserts_reachable.
Defined.

Lemma C9_witness :
  reachable Z.ltb Z.ltb after_inserts /\
  forall i j p q, traversal after_inserts !! i = Some p ->
                  traversal after_inserts !! j = Some q ->
                  equivalentArguments Z.ltb (arg p) (arg q) = true -> i = j.
Proof.
  split; [apply after_inserts_reachable|].
  apply (C9_unique_arguments Z.ltb Z.ltb Zltb_StrictWeak Zltb_StrictWeak after_inserts).
  apply after_inserts_reachable.
Defined.

Lemma C10_witness :
  reachable Z.ltb Z.ltb after_inserts /\ 0 < size after_inserts /\
  exists p rest, mx_traversal after_inserts = p :: rest /\
    forall q, q ∈ traversal after_inserts ->
              valueLessOrEqual Z.ltb (value q) (value p) = true.
Proof.
  split; [apply after_inserts_reachable|]. split; [vm_compute; lia|].
  apply (C10_global_maximum_first Z.ltb Z.ltb Zltb_StrictWeak Zltb_StrictWeak after_inserts).
  - apply after_inserts_reachable.
  - vm_compute; lia.
Defined.

(** ** Further accessors of the implementation class *)

Section Accessors.
Context {A V : Type}.

(** [empty()]: [size() == 0]. *)
Definition empty (s : FunctionMaximaImpl A V) : bool := bool_decide (size s = 0).

(** [mx_begin()] and [mx_end()]. *)
Definition mx_begin (s : FunctionMaximaImpl A V) : @mx_iterator A V := head (localMaxima s).
Definition mx_end : @mx_iterator A V := None.

End Accessors.

(** A mutating call of the public interface. *)
Inductive mutation (A V : Type) : Type :=
| MSet (a : A) (v : V)      (* set_value(a, v) *)
| MErase (a : A).           (* erase(a) *)
Arguments MSet {A V} a v.
Arguments MErase {A V} a.

Definition mutation_arg {A V} (c : mutation A V) : A :=
  match c with
  | MSet a _ => a
  | MErase a => a
  end.

Definition mutate {A V} (lessA : A -> A -> bool) (lessV : V -> V -> bool)
    (c : mutation A V) : M (FunctionMaximaImpl A V) unit :=
  match c with
  | MSet a v => set_value lessA lessV a v
  | MErase a => erase lessA lessV a
  end.

(** ** How the mutators change the store *)

Section StoreEffect.
Context {A V : Type} (lessA : A -> A -> bool) (lessV : V -> V -> bool).
Context (HA : StrictWeak lessA) (HV : StrictWeak lessV).

Local Abbreviation point := (point_type A V).
Local Abbreviation impl := (FunctionMaximaImpl A V).
Local Abbreviation fsorted := (fn_sorted lessA).
Local Abbreviation eqA := (equivalentArguments lessA).
Local Abbreviation eqV := (equivalentValues lessV).
Local Abbreviation eqP := (equivalentPoints lessA lessV).
Local Abbreviation inv := (Inv lessA lessV).
Local Abbreviation reach := (reachable lessA lessV).

Lemma eqA_trans a b c : eqA a b = true -> eqA b c = true -> eqA a c = true.
Proof.
  unfold equivalentArguments. rewrite !andb_true_iff, !negb_true_iff.
  intros [H1 H2] [H3 H4]. split; by eapply (sw_negtrans HA).
Qed.

Lemma eqA_other a b c : eqA a b = true -> eqA a c = false -> eqA b c = false.
Proof.
  intros Hab Hac. destruct (eqA b c) eqn:E; [|done].
  by rewrite (eqA_trans a b c Hab E) in Hac.
Qed.

Lemma fn_sorted_unique (f1 f2 : list point) :
  fsorted f1 -> fsorted f2 -> (forall x, x ∈ f1 <-> x ∈ f2) -> f1 = f2.
Proof.
  intros Hs1. revert f2.
  induction Hs1 as [|x1 l1 Hs1 IH Hx1]; intros f2 Hs2 Hiff.
  { destruct f2 as [|y f2]; [done|].
    exfalso. eapply elem_of_nil. apply Hiff. by left. }
  destruct Hs2 as [|x2 l2 Hs2 Hx2].
  { exfalso. eapply elem_of_nil. apply Hiff. by left. }
  rewrite Forall_forall in Hx1, Hx2.
  pose proof (sw_irrefl HA) as Hirr.
  assert (x1 = x2) as ->.
  { assert (x1 ∈ x2 :: l2) as [->|H1]%elem_of_cons by (apply Hiff; by left); [done|].
    assert (x2 ∈ x1 :: l1) as [->|H2]%elem_of_cons by (apply Hiff; by left); [done|].
    pose proof (Hx1 _ H2) as Ha. pose proof (Hx2 _ H1) as Hb.
    unfold arg_lt in *.
    rewrite (sw_asym HA _ _ Ha) in Hb. done. }
  f_equal. apply IH; [done|].
  intros x. split; intros Hx.
  - assert (x ∈ x2 :: l2) as [->|H]%elem_of_cons by (apply Hiff; by right); [|done].
    pose proof (Hx1 _ Hx) as Ha. unfold arg_lt in Ha. by rewrite Hirr in Ha.
  - assert (x ∈ x2 :: l1) as [->|H]%elem_of_cons by (apply Hiff; by right); [|done].
    pose proof (Hx2 _ Hx) as Ha. unfold arg_lt in Ha. by rewrite Hirr in Ha.
Qed.

(** A state that satisfies the invariant is determined by the points of
    its store. *)
Lemma inv_eq (s s' : impl) :
  inv s -> inv s' -> (forall x, x ∈ function s <-> x ∈ function s') -> s = s'.
Proof.
  intros Hs Hs' Hiff.
  assert (function s = function s') as Hf.
  { apply fn_sorted_unique; [apply Hs|apply Hs'|done]. }
  pose proof (inv_rescan lessA lessV HA HV s Hs) as Hm.
  pose proof (inv_rescan lessA lessV HA HV s' Hs') as Hm'.
  destruct s as [f m], s' as [f' m']. simpl in *. congruence.
Qed.

(** The points of the store after a [set_value a v] that returned. *)
Lemma set_value_post_elem a v (s s' : impl) :
  inv s -> set_value_post lessA lessV a v s s' ->
  ((exists old, old ∈ function s /\ eqP old (Point a v) = true) /\ s' = s) \/
  ((forall old, old ∈ function s -> eqP old (Point a v) = false) /\
   forall x, x ∈ function s' <-> (x ∈ function s /\ eqA a (arg x) = false) \/ x = Point a v).
Proof.
  intros Hs [l1 old l2 Hf Hb Ha He ->|l1 olds l2 Hf Hb Ha Hlen Hold Hf' _].
  - left. split; [|done]. exists old. split; [|done].
    rewrite Hf, elem_of_app, elem_of_cons. tauto.
  - right.
    assert (forall x, x ∈ l1 ++ l2 -> eqA a (arg x) = false) as Habs
      by (by apply (absent_split lessA HA)).
    split.
    + intros old. rewrite Hf, !elem_of_app. unfold equivalentPoints. simpl.
      intros [Ho|[Ho|Ho]].
      * rewrite equivalentArguments_sym, Habs; [done|]. rewrite elem_of_app. tauto.
      * destruct (Hold _ Ho) as [_ ->]. by rewrite andb_false_r.
      * rewrite equivalentArguments_sym, Habs; [done|]. rewrite elem_of_app. tauto.
    + intros x. rewrite Hf', Hf, !elem_of_app, elem_of_cons. split.
      * intros [Hx|[->|Hx]]; [left|by right|left].
        -- split; [tauto|]. apply Habs. rewrite elem_of_app. tauto.
        -- split; [tauto|]. apply Habs. rewrite elem_of_app. tauto.
      * intros [[[Hx|[Hx|Hx]] He]| ->]; [tauto| |tauto|tauto].
        destruct (Hold _ Hx) as [He' _]. congruence.
Qed.

(** The points of the store after an [erase a] that returned. *)
Lemma erase_post_elem a (s s' : impl) :
  inv s -> erase_post lessA lessV a s s' ->
  forall x, x ∈ function s' <-> x ∈ function s /\ eqA a (arg x) = false.
Proof.
  intros Hs [l1 l2 Hf Hb Ha ->|l1 old l2 Hf Hb Ha He Hf' _] x.
  - rewrite Hf. split; [|tauto]. intros Hx. split; [done|].
    by apply (absent_split lessA HA a l1 l2).
  - assert (forall x, x ∈ l1 ++ l2 -> eqA a (arg x) = false) as Habs
      by (by apply (absent_split lessA HA)).
    rewrite Hf', Hf, !elem_of_app, elem_of_cons. split.
    + intros Hx. split; [tauto|]. apply Habs. rewrite elem_of_app. tauto.
    + intros [[Hx|[->|Hx]] Hn]; [tauto| |tauto]. congruence.
Qed.

(** What a mutation that returned did: the state satisfies the invariant
    again, points at other arguments are kept, and the points at the
    argument of the mutation depend only on the points that were there. *)
Lemma mutate_run c (s : impl) k x s' k' :
  inv s -> mutate lessA lessV c s k = (x, s', k') ->
  inv s' /\
  (forall p, eqA (mutation_arg c) (arg p) = false -> p ∈ function s' <-> p ∈ function s).
Proof.
  intros Hs Hrun. destruct c as [a v|a]; simpl in *.
  - destruct (set_value_run lessA lessV HA HV a v s k Hs)
      as [y s2 k2 Heq _ Hpost _|sf Heq -> _]; rewrite Heq in Hrun;
      injection Hrun as <- <- <-; [|done].
    split; [by eapply set_value_post_inv|].
    intros p Hp.
    destruct (set_value_post_elem a v s s2 Hs Hpost) as [[_ ->]|[_ Hel]]; [done|].
    rewrite Hel. split; [|tauto]. intros [[? _]| ->]; [done|].
    simpl in Hp. by rewrite (eqA_refl lessA HA) in Hp.
  - destruct (erase_run lessA lessV HA HV a s k Hs)
      as [y s2 k2 Heq _ Hpost _|sf Heq -> _]; rewrite Heq in Hrun;
      injection Hrun as <- <- <-; [|done].
    split; [by eapply erase_post_inv|].
    intros p Hp. rewrite (erase_post_elem a s s2 Hs Hpost). tauto.
Qed.

Lemma mutate_local c (s t : impl) k x s' k' l y t' l' :
  inv s -> inv t ->
  (forall p, eqA (mutation_arg c) (arg p) = true -> p ∈ function s <-> p ∈ function t) ->
  mutate lessA lessV c s k = (Returns x, s', k') ->
  mutate lessA lessV c t l = (Returns y, t', l') ->
  forall p, eqA (mutation_arg c) (arg p) = true -> p ∈ function s' <-> p ∈ function t'.
Proof.
  intros Hs Ht Hst Hrun1 Hrun2 p Hp. destruct c as [a v|a]; simpl in *.
  - destruct (set_value_run lessA lessV HA HV a v s k Hs)
      as [? s2 ? Heq _ Hpost _|sf Heq -> _]; rewrite Heq in Hrun1; [|done].
    injection Hrun1 as <- <- <-.
    destruct (set_value_run lessA lessV HA HV a v t l Ht)
      as [? t2 ? Heq' _ Hpost' _|sf Heq' -> _]; rewrite Heq' in Hrun2; [|done].
    injection Hrun2 as <- <- <-.
    assert (forall old, eqP old (Point a v) = true -> eqA a (arg old) = true) as Hold.
    { intros old He. unfold equivalentPoints in He. simpl in He.
      apply andb_true_iff in He as [He _]. by rewrite equivalentArguments_sym. }
    destruct (set_value_post_elem a v s s2 Hs Hpost) as [[(old & Ho & He) ->]|[Hno Hel]];
      destruct (set_value_post_elem a v t t2 Ht Hpost') as [[(old' & Ho' & He') ->]|[Hno' Hel']].
    + by apply Hst.
    + apply Hst in Ho; [|by apply Hold]. by rewrite (Hno' _ Ho) in He.
    + apply Hst in Ho'; [|by apply Hold]. by rewrite (Hno _ Ho') in He'.
    + rewrite Hel, Hel'. split; (intros [[_ Hn]| ->]; [congruence|by right]).
  - destruct (erase_run lessA lessV HA HV a s k Hs)
      as [? s2 ? Heq _ Hpost _|sf Heq -> _]; rewrite Heq in Hrun1; [|done].
    injection Hrun1 as <- <- <-.
    destruct (erase_run lessA lessV HA HV a t l Ht)
      as [? t2 ? Heq' _ Hpost' _|sf Heq' -> _]; rewrite Heq' in Hrun2; [|done].
    injection Hrun2 as <- <- <-.
    rewrite (erase_post_elem a s s2 Hs Hpost), (erase_post_elem a t t2 Ht Hpost').
    split; intros [_ Hn]; congruence.
Qed.

(** A mutation that throws leaves the state as it was. *)
Lemma mutate_throws c (s : impl) k e sf kf :
  inv s -> mutate lessA lessV c s k = (Throws e, sf, kf) -> sf = s.
Proof.
  intros Hs Hrun. destruct c as [a v|a]; simpl in *.
  - destruct (set_value_run lessA lessV HA HV a v s k Hs)
      as [y s2 k2 Heq _ _ _|sf' Heq -> _]; rewrite Heq in Hrun; [done|].
    by injection Hrun as _ <- _.
  - destruct (erase_run lessA lessV HA HV a s k Hs)
      as [y s2 k2 Heq _ _ _|sf' Heq -> _]; rewrite Heq in Hrun; [done|].
    by injection Hrun as _ <- _.
Qed.

(** X1: a [set_value a v] that returned changed the store at [a] only:
    the point [(a, v)] was inserted at its place in argument order when no
    point had argument [a]; otherwise the point at [a] was replaced by
    [(a, v)], or kept as it was when its value was equivalent to [v]. *)
Theorem set_value_store (s : impl) (a : A) (v : V) (k : faults) (s' : impl) (k' : faults) :
  reach s -> set_value lessA lessV a v s k = (Returns tt, s', k') ->
  exists l1 l2, below lessA a l1 /\ above lessA a l2 /\
    ((traversal s = l1 ++ l2 /\ traversal s' = l1 ++ Point a v :: l2) \/
     exists old, traversal s = l1 ++ old :: l2 /\ eqA a (arg old) = true /\
       traversal s' = l1 ++ (if eqV (value old) v then old else Point a v) :: l2).
Proof.
  intros Hr Hrun. pose proof (reachable_inv lessA lessV HA HV s Hr) as Hinv.
  destruct (set_value_run lessA lessV HA HV a v s k Hinv)
    as [x s2 k2 Heq _ Hpost _|sf Heq -> _]; rewrite Heq in Hrun; [|done].
  injection Hrun as -> ->. unfold traversal.
  destruct Hpost as [l1 old l2 Hf Hb Ha He ->|l1 olds l2 Hf Hb Ha Hlen Hold Hf' _].
  - exists l1, l2. split_and!; [done..|]. right. exists old.
    unfold equivalentPoints in He. simpl in He. apply andb_true_iff in He as [He1 He2].
    split_and!; [done|by rewrite equivalentArguments_sym|]. by rewrite He2.
  - exists l1, l2. split_and!; [done..|].
    destruct olds as [|old [|? ?]]; simpl in *; [by left| |lia].
    right. exists old. destruct (Hold old) as [He1 He2]; [by left|].
    by rewrite He2.
Qed.

(** X2: an [erase a] that returned removed the point at [a], if there was
    one, and nothing else; the order of the other points is kept. *)
Theorem erase_store (s : impl) (a : A) (k : faults) (s' : impl) (k' : faults) :
  reach s -> erase lessA lessV a s k = (Returns tt, s', k') ->
  exists l1 l2, below lessA a l1 /\ above lessA a l2 /\
    ((traversal s = l1 ++ l2 /\ s' = s) \/
     exists old, traversal s = l1 ++ old :: l2 /\ eqA a (arg old) = true /\
       traversal s' = l1 ++ l2).
Proof.
  intros Hr Hrun. pose proof (reachable_inv lessA lessV HA HV s Hr) as Hinv.
  destruct (erase_run lessA lessV HA HV a s k Hinv)
    as [x s2 k2 Heq _ Hpost _|sf Heq -> _]; rewrite Heq in Hrun; [|done].
  injection Hrun as -> ->. unfold traversal.
  destruct Hpost as [l1 l2 Hf Hb Ha ->|l1 old l2 Hf Hb Ha He Hf' _].
  - exists l1, l2. split_and!; [done..|]. by left.
  - exists l1, l2. split_and!; [done..|]. right. by exists old.
Qed.

(** X3: the traversal [begin() .. end()] of a reachable state lists the
    points in strictly increasing argument order: a point comes before
    another exactly when its argument is less. *)
Theorem traversal_increasing (s : impl) (i j : nat) (p q : point) :
  reach s -> traversal s !! i = Some p -> traversal s !! j = Some q ->
  (i < j <-> lessA (arg p) (arg q) = true).
Proof.
  intros Hr Hi Hj. pose proof (reachable_inv lessA lessV HA HV s Hr) as [Hf _ _].
  unfold traversal in *. split.
  - intros Hij. by eapply fn_sorted_lookup_lt.
  - intros Hlt. destruct (decide (i < j)) as [|Hn]; [done|]. exfalso.
    destruct (decide (i = j)) as [->|Hne].
    + assert (p = q) as -> by congruence. by rewrite (sw_irrefl HA) in Hlt.
    + assert (j < i) as Hji by lia.
      pose proof (fn_sorted_lookup_lt lessA _ _ _ _ _ Hf Hj Hi Hji) as Hqp.
      by rewrite (sw_asym HA _ _ Hlt) in Hqp.
Qed.

(** X4: in a reachable state, and when the comparisons do not fail,
    [find a] returns the position of the point whose argument is equivalent
    to [a], and [end()] exactly when there is none; it never changes the
    state. *)
Theorem find_locates (s : impl) (a : A) :
  reach s ->
  exists it, find lessA a s None = (Returns it, s, None) /\
    (it = None <-> absent lessA a s) /\
    (forall i, it = Some i ->
       exists p, traversal s !! i = Some p /\ eqA a (arg p) = true) /\
    forall k, run_state (find lessA a s k) = s.
Proof.
  intros Hr. pose proof (reachable_inv lessA lessV HA HV s Hr) as [Hf _ _].
  exists (fn_find lessA a (function s)). rewrite find_nofault. split_and!; [done| | |].
  - split.
    + intros Hnone p Hp. destruct (eqA a (arg p)) eqn:E; [|done].
      destruct (fn_find_present lessA HA a (function s) p Hf Hp E) as (i & Hfind & _).
      congruence.
    + by apply fn_find_absent.
  - intros i Hi. unfold traversal.
    destruct (fn_split_total lessA HA a (function s) Hf)
      as [l1 l2 Hfeq Hfind _ _ _|l1 old l2 Hfeq Hfind _ He _ _]; [congruence|].
    exists old. split; [|done].
    assert (i = length l1) as -> by congruence.
    rewrite Hfeq. by apply list_lookup_middle.
  - intros [[|n]|]; done.
Qed.

(** X5: [set_value] adds one to [size()] when it inserts a point at a new
    argument and keeps [size()] when the argument was there; [erase] takes
    one off when the argument was there and keeps [size()] otherwise. *)
Theorem size_change (s : impl) (a : A) :
  reach s ->
  (forall v k s' k', set_value lessA lessV a v s k = (Returns tt, s', k') ->
     (absent lessA a s -> size s' = S (size s)) /\
     (forall p, p ∈ traversal s -> eqA a (arg p) = true -> size s' = size s)) /\
  (forall k s' k', erase lessA lessV a s k = (Returns tt, s', k') ->
     (absent lessA a s -> size s' = size s) /\
     (forall p, p ∈ traversal s -> eqA a (arg p) = true -> S (size s') = size s)).
Proof.
  intros Hr. pose proof (reachable_inv lessA lessV HA HV s Hr) as Hinv.
  unfold size, traversal. split.
  - intros v k s' k' Hrun.
    destruct (set_value_run lessA lessV HA HV a v s k Hinv)
      as [x s2 k2 Heq _ Hpost _|sf Heq -> _]; rewrite Heq in Hrun; [|done].
    injection Hrun as -> ->.
    destruct Hpost as [l1 old l2 Hf Hb Ha He ->|l1 olds l2 Hf Hb Ha Hlen Hold Hf' _].
    + split; [|done]. intros Habs. exfalso.
      unfold equivalentPoints in He. simpl in He. apply andb_true_iff in He as [He _].
      rewrite equivalentArguments_sym, Habs in He; [done|].
      rewrite Hf, elem_of_app, elem_of_cons. tauto.
    + rewrite Hf', Hf. rewrite !length_app. simpl. split.
      * intros Habs. destruct olds as [|o olds]; [simpl; lia|]. exfalso.
        destruct (Hold o) as [He _]; [by left|].
        rewrite Habs in He; [done|]. rewrite Hf, !elem_of_app, elem_of_cons. tauto.
      * intros p Hp He. destruct olds as [|o [|? ?]]; simpl in *; [|lia|lia]. exfalso.
        by rewrite (absent_split lessA HA a l1 l2 Hb Ha p Hp) in He.
  - intros k s' k' Hrun.
    destruct (erase_run lessA lessV HA HV a s k Hinv)
      as [x s2 k2 Heq _ Hpost _|sf Heq -> _]; rewrite Heq in Hrun; [|done].
    injection Hrun as -> ->.
    destruct Hpost as [l1 l2 Hf Hb Ha ->|l1 old l2 Hf Hb Ha He Hf' _].
    + split; [done|]. intros p Hp He. exfalso. rewrite Hf in Hp.
      by rewrite (absent_split lessA HA a l1 l2 Hb Ha p Hp) in He.
    + rewrite Hf', Hf. rewrite !length_app. simpl. split; [|lia].
      intros Habs. exfalso. rewrite Habs in He; [done|].
      rewrite Hf, elem_of_app, elem_of_cons. tauto.
Qed.

(** X6: a [set_value] or [erase] on the argument [a], whatever its
    outcome, does not change what [value_at b] gives for an argument [b]
    that is not equivalent to [a]. *)
Theorem other_arguments_untouched (s : impl) (c : mutation A V) (b : A) (k kb : faults) :
  reach s -> eqA (mutation_arg c) b = false ->
  run_out (value_at lessA b (run_state (mutate lessA lessV c s k)) kb) =
  run_out (value_at lessA b s kb).
Proof.
  intros Hr Hab. pose proof (reachable_inv lessA lessV HA HV s Hr) as Hinv.
  destruct (mutate lessA lessV c s k) as [[x s'] k'] eqn:Hrun.
  change (run_state (x, s', k')) with s'.
  destruct (mutate_run c s k x s' k' Hinv Hrun) as [Hinv' Hframe].
  pose proof Hinv as [Hf _ _]. pose proof Hinv' as [Hf' _ _].
  rewrite !value_at_run.
  destruct (fn_split_total lessA HA b (function s) Hf)
    as [l1 l2 Hfeq Hfind _ Hb Ha|l1 old l2 Hfeq Hfind _ He Hb Ha].
  - rewrite Hfind.
    rewrite (fn_find_absent lessA HA b (function s')); [by destruct kb as [[|n]|]|done|].
    intros p Hp. destruct (eqA b (arg p)) eqn:E; [|done].
    assert (eqA (mutation_arg c) (arg p) = false) as Hcp.
    { rewrite equivalentArguments_sym in Hab.
      rewrite equivalentArguments_sym. rewrite equivalentArguments_sym in E.
      apply (eqA_other b); [by rewrite equivalentArguments_sym|done]. }
    apply Hframe in Hp; [|done]. rewrite Hfeq in Hp.
    by rewrite (absent_split lessA HA b l1 l2 Hb Ha p Hp) in E.
  - assert (old ∈ function s) as Hold by (rewrite Hfeq, elem_of_app, elem_of_cons; tauto).
    assert (eqA (mutation_arg c) (arg old) = false) as Hcp.
    { rewrite equivalentArguments_sym. apply (eqA_other b); [done|].
      by rewrite equivalentArguments_sym. }
    assert (old ∈ function s') as Hold' by (by apply Hframe).
    destruct (fn_find_present lessA HA b (function s) old Hf Hold He) as (i & -> & Hi).
    destruct (fn_find_present lessA HA b (function s') old Hf' Hold' He) as (i' & -> & Hi').
    simpl. rewrite Hi, Hi'. by destruct kb as [[|n]|].
Qed.

(** X7: inserting a point at an argument that was not there and erasing
    it again restores the state, the set of maxima included. *)
Theorem set_value_then_erase (s : impl) (a : A) (v : V)
    (k1 : faults) (s1 : impl) (k1' k2 : faults) (s2 : impl) (k2' : faults) :
  reach s -> absent lessA a s ->
  set_value lessA lessV a v s k1 = (Returns tt, s1, k1') ->
  erase lessA lessV a s1 k2 = (Returns tt, s2, k2') ->
  s2 = s.
Proof.
  intros Hr Habs Hrun1 Hrun2. pose proof (reachable_inv lessA lessV HA HV s Hr) as Hinv.
  destruct (set_value_run lessA lessV HA HV a v s k1 Hinv)
    as [x s3 k3 Heq _ Hpost _|sf Heq -> _]; rewrite Heq in Hrun1; [|done].
  injection Hrun1 as -> ->.
  assert (inv s1) as Hinv1 by (by eapply set_value_post_inv).
  destruct (erase_run lessA lessV HA HV a s1 k2 Hinv1)
    as [x' s4 k4 Heq' _ Hpost' _|sf Heq' -> _]; rewrite Heq' in Hrun2; [|done].
  injection Hrun2 as -> ->.
  assert (inv s2) as Hinv2 by (by eapply erase_post_inv).
  apply inv_eq; [done..|]. intros y.
  rewrite (erase_post_elem a s1 s2 Hinv1 Hpost').
  destruct (set_value_post_elem a v s s1 Hinv Hpost) as [[(old & Ho & He) _]|[_ Hel]].
  - exfalso. unfold equivalentPoints in He. simpl in He.
    apply andb_true_iff in He as [He _].
    by rewrite equivalentArguments_sym, (Habs old Ho) in He.
  - rewrite Hel. split.
    + intros [[[Hy _]| ->] Hn]; [done|]. simpl in Hn. by rewrite (eqA_refl lessA HA) in Hn.
    + intros Hy. pose proof (Habs y Hy). tauto.
Qed.

(** X8: erasing the point [p] and setting its value again at its argument
    restores the state, the set of maxima included. *)
Theorem erase_then_set_value (s : impl) (a : A) (p : point)
    (k1 : faults) (s1 : impl) (k1' k2 : faults) (s2 : impl) (k2' : faults) :
  reach s -> p ∈ traversal s -> eqA a (arg p) = true ->
  erase lessA lessV a s k1 = (Returns tt, s1, k1') ->
  set_value lessA lessV (arg p) (value p) s1 k2 = (Returns tt, s2, k2') ->
  s2 = s.
Proof.
  intros Hr Hp Hap Hrun1 Hrun2. pose proof (reachable_inv lessA lessV HA HV s Hr) as Hinv.
  unfold traversal in Hp.
  destruct (erase_run lessA lessV HA HV a s k1 Hinv)
    as [x s3 k3 Heq _ Hpost _|sf Heq -> _]; rewrite Heq in Hrun1; [|done].
  injection Hrun1 as -> ->.
  assert (inv s1) as Hinv1 by (by eapply erase_post_inv).
  destruct (set_value_run lessA lessV HA HV (arg p) (value p) s1 k2 Hinv1)
    as [x' s4 k4 Heq' _ Hpost' _|sf Heq' -> _]; rewrite Heq' in Hrun2; [|done].
  injection Hrun2 as -> ->.
  assert (inv s2) as Hinv2 by (by eapply set_value_post_inv).
  pose proof (erase_post_elem a s s1 Hinv Hpost) as Hel1.
  apply inv_eq; [done..|]. intros y.
  destruct (set_value_post_elem (arg p) (value p) s1 s2 Hinv1 Hpost')
    as [[(old & Ho & He) _]|[_ Hel]].
  - exfalso. apply Hel1 in Ho as [_ Hn].
    unfold equivalentPoints in He. simpl in He. apply andb_true_iff in He as [He _].
    rewrite equivalentArguments_sym in He.
    by rewrite (eqA_trans a (arg p) (arg old) Hap He) in Hn.
  - rewrite Hel, Hel1. assert (Point (arg p) (value p) = p) as -> by (by destruct p).
    split.
    + intros [[[Hy _] _]| ->]; done.
    + intros Hy. destruct (eqA a (arg y)) eqn:E.
      * right. destruct Hinv as [Hf _ _]. eapply fn_sorted_elem_inj; eauto.
        rewrite equivalentArguments_sym in E.
        apply (eqA_trans _ a); [done|done].
      * left. split; [done|]. by apply (eqA_other a).
Qed.

(** X9: mutations on arguments that are not equivalent commute: done in
    either order they lead to the same state. *)
Theorem mutations_commute (s : impl) (c1 c2 : mutation A V)
    (k1 k1' k2 k2' k3 k3' k4 k4' : faults) (s1 s12 s2 s21 : impl) :
  reach s -> eqA (mutation_arg c1) (mutation_arg c2) = false ->
  mutate lessA lessV c1 s k1 = (Returns tt, s1, k1') ->
  mutate lessA lessV c2 s1 k2 = (Returns tt, s12, k2') ->
  mutate lessA lessV c2 s k3 = (Returns tt, s2, k3') ->
  mutate lessA lessV c1 s2 k4 = (Returns tt, s21, k4') ->
  s12 = s21.
Proof.
  intros Hr Hne H1 H12 H2 H21. pose proof (reachable_inv lessA lessV HA HV s Hr) as Hinv.
  destruct (mutate_run c1 s k1 _ _ _ Hinv H1) as [Hinv1 Hfr1].
  destruct (mutate_run c2 s1 k2 _ _ _ Hinv1 H12) as [Hinv12 Hfr12].
  destruct (mutate_run c2 s k3 _ _ _ Hinv H2) as [Hinv2 Hfr2].
  destruct (mutate_run c1 s2 k4 _ _ _ Hinv2 H21) as [Hinv21 Hfr21].
  apply inv_eq; [done..|]. intros y.
  destruct (eqA (mutation_arg c1) (arg y)) eqn:E1.
  - assert (forall p : point, eqA (mutation_arg c1) (arg p) = true ->
              eqA (mutation_arg c2) (arg p) = false) as Hother.
    { intros p Hp. rewrite equivalentArguments_sym. apply (eqA_other (mutation_arg c1)); [done|].
      done. }
    rewrite (Hfr12 y (Hother y E1)).
    apply (mutate_local c1 s s2 k1 tt s1 k1' k4 tt s21 k4' Hinv Hinv2); [|done..].
    intros p Hp. symmetry. by apply Hfr2, Hother.
  - destruct (eqA (mutation_arg c2) (arg y)) eqn:E2.
    + rewrite (Hfr21 y E1).
      apply (mutate_local c2 s1 s k2 tt s12 k2' k3 tt s2 k3' Hinv1 Hinv); [|done..].
      intros p Hp. apply Hfr1.
      rewrite equivalentArguments_sym. apply (eqA_other (mutation_arg c2)); [done|].
      by rewrite equivalentArguments_sym.
    + by rewrite (Hfr12 y E2), (Hfr1 y E1), (Hfr21 y E1), (Hfr2 y E2).
Qed.

End StoreEffect.

(** ** Outcomes, comparators and the guard *)

Section Transactions.
Context {A V : Type} (lessA : A -> A -> bool) (lessV : V -> V -> bool).
Context (HA : StrictWeak lessA) (HV : StrictWeak lessV).

Local Abbreviation point := (point_type A V).
Local Abbreviation impl := (FunctionMaximaImpl A V).
Local Abbreviation eqA := (equivalentArguments lessA).
Local Abbreviation eqV := (equivalentValues lessV).
Local Abbreviation inv := (Inv lessA lessV).
Local Abbreviation reach := (reachable lessA lessV).
Local Abbreviation mxlt := (ComparePointsByMaximaOrder lessA lessV).

(** X10: when no allocation and no comparison fails, [set_value] and
    [erase] return; and a call that returned although a fault was planned
    (it did not fire) left the state the fault-free call leaves. *)
Theorem mutators_return (s : impl) (c : mutation A V) :
  reach s ->
  (exists s', mutate lessA lessV c s None = (Returns tt, s', None)) /\
  (forall k x s' k', mutate lessA lessV c s k = (Returns x, s', k') ->
     mutate lessA lessV c s None = (Returns x, s', None)).
Proof.
  intros Hr. pose proof (reachable_inv lessA lessV HA HV s Hr) as Hinv.
  assert (forall k, run_cases (mutate lessA lessV c) s (fun _ _ => True) (fun sf => sf = s) k)
    as Hrun.
  { intros k. destruct c as [a v|a]; simpl.
    - destruct (set_value_run lessA lessV HA HV a v s k Hinv)
        as [x s2 k2 Heq Hnone _ Hplan|sf Heq -> Hk].
      + by eapply run_returns.
      + by eapply run_throws.
    - destruct (erase_run lessA lessV HA HV a s k Hinv)
        as [x s2 k2 Heq Hnone _ Hplan|sf Heq -> Hk].
      + by eapply run_returns.
      + by eapply run_throws. }
  split.
  - destruct (Hrun None) as [[] s2 k2 _ Hnone _ _|sf _ _ Hk]; [|done]. by exists s2.
  - intros k x s' k' Heq.
    destruct (Hrun k) as [y s2 k2 Heq' Hnone _ _|sf Heq' _ _]; rewrite Heq' in Heq; [|done].
    by injection Heq as <- <- <-.
Qed.

(** X11: the comparator of the set of maxima is a strict weak ordering
    when [std::less<A>] and [std::less<V>] are, and two points are
    equivalent for it exactly when their arguments and their values are
    equivalent: the set never takes two different points of a function
    for one. *)
Theorem maxima_order_strict_weak :
  StrictWeak mxlt /\
  forall p q : point, negb (mxlt p q) && negb (mxlt q p) = equivalentPoints lessA lessV p q.
Proof.
  split; [by apply mxlt_StrictWeak|].
  intros p q.
  unfold ComparePointsByMaximaOrder, equivalentPoints, equivalentArguments, equivalentValues.
  destruct (lessV (value q) (value p)), (lessV (value p) (value q)),
    (lessA (arg p) (arg q)), (lessA (arg q) (arg p)); done.
Qed.

(** X12: [isLocalMaxima(it, ignore)] tells whether the point at [it] is a
    local maximum of the store from which the element at [ignore] is left
    out (of the store itself when [ignore] is [end()]); it answers [false]
    for the ignored element, and never changes the state. *)
Theorem isLocalMaxima_ignoring (s : impl) (j : nat) (ignore : iterator) :
  valid_iter (function s) ignore -> Some j <> ignore ->
  isLocalMaxima lessV (Some j) ignore s None =
    (Returns (local_maximum lessV (without ignore (function s)) (shift ignore j)), s, None) /\
  (forall k, isLocalMaxima lessV ignore ignore s k = (Returns false, s, k)) /\
  (forall k, run_state (isLocalMaxima lessV (Some j) ignore s k) = s).
Proof.
  intros Hv Hne. split_and!.
  - by rewrite isLocalMaxima_status.
  - intros k. unfold isLocalMaxima. by rewrite decide_True.
  - intros k.
    destruct (spec_run _ s _ _ k (readonly_isLocalMaxima lessV (Some j) ignore s))
      as [x s' k' -> _ -> _|sf -> -> _]; done.
Qed.

(** X13: the guard is a transaction on the set of maxima.  Its
    constructor either throws and leaves the state as it was, or returns;
    then the store is untouched and the destructor without [done()]
    restores the state.  A guard for the ignored position itself
    ([it == ignore]) does nothing at all: the destructor after [done()]
    also leaves the state as it was, although [isLocalMaxima] answers
    [false] there.  For any other position the destructor after [done()]
    leaves the point at [it] in the set exactly when [isLocalMaxima(it,
    ignore)] returns [true], the membership of every other point being
    what it was. *)
Theorem guard_transaction (s : impl) (it ignore : iterator) (k : faults) :
  mx_sorted lessA lessV (localMaxima s) ->
  coherent lessA lessV (function s) ->
  localMaxima s ⊆ function s ->
  valid_iter (function s) ignore ->
  (guard_ctor lessA lessV it ignore s k = (Throws Failure, s, None) /\ k <> None) \/
  exists g s' k',
    guard_ctor lessA lessV it ignore s k = (Returns g, s', k') /\
    function s' = function s /\
    guard_dtor lessA lessV g s' = s /\
    function (guard_dtor lessA lessV (done g) s') = function s /\
    (it = ignore -> s' = s /\ k' = k /\ guard_dtor lessA lessV (done g) s' = s) /\
    (it <> ignore ->
     exists b, isLocalMaxima lessV it ignore s None = (Returns b, s, None) /\
       forall x, x ∈ localMaxima (guard_dtor lessA lessV (done g) s') <->
         (deref (function s) it = Some x /\ b = true) \/
         (x ∈ localMaxima s /\ deref (function s) it <> Some x)).
Proof.
  intros Hm HU Hsub Hv.
  destruct (decide (it = ignore)) as [Heq|Hne].
  { right. exists (Guard true false false None), s, k.
    unfold guard_ctor. rewrite decide_True by done.
    split_and!; try done. }
  assert (it = ignore -> it = None) as Hit by done.
  pose proof (guard_ctor_spec lessA lessV HA HV it ignore s (fun sf => sf = s)
                Hm Hv Hit eq_refl) as Hspec.
  destruct (spec_run _ s _ _ k Hspec) as [g s' k' Heq _ (-> & Hundo & Hdone) _|sf Heq -> Hk].
  - right. exists g, (Impl (function s)
                       (guard_in lessA lessV (status_at lessV (function s) it ignore)
                          (deref (function s) it) (localMaxima s))), k'.
    split_and!; [done|done|done|by rewrite Hdone, mx_erase_eq|done|].
    intros _. exists (status_at lessV (function s) it ignore).
    split; [by apply isLocalMaxima_status|].
    intros x. rewrite Hdone, mx_erase_eq. simpl.
    assert (within (function s) (deref (function s) it)) as Hw.
    { intros p Hp. destruct it as [i|]; [|done]. by eapply list_elem_of_lookup_2. }
    rewrite (guard_out_elem lessA lessV HA HV (function s) HU); [|done|done| |done].
    2: { by apply (guard_in_within lessA lessV HA HV (function s) HU). }
    rewrite (guard_in_elem lessA lessV HA HV (function s) HU) by done.
    destruct (status_at lessV (function s) it ignore).
    + split.
      * intros [[Hx|[Hx _]] _]; [|by left].
        destruct (target_dec lessA lessV HA HV (function s) HU (deref (function s) it) x Hw)
          as [Ht|Ht]; [by apply Hsub|by left|by right].
      * intros [[Ht _]|[Hx Ht]]; (split; [tauto|]); by intros (_ & ? & _).
    + split.
      * intros [[Hx|[_ ?]] Hn]; [|done]. right. split; [done|]. intros Ht. by apply Hn.
      * intros [[_ ?]|[Hx Ht]]; [done|]. split; [by left|]. by intros (? & _ & _).
  - by left.
Qed.

(** Where the value of a point is not less than any value of the store,
    the point is a local maximum. *)
Lemma greatest_is_maximum (s : impl) (g : point) :
  inv s -> g ∈ function s ->
  (forall q, q ∈ function s -> lessV (value g) (value q) = false) ->
  g ∈ localMaxima s.
Proof.
  intros [Hf Hm Hmax] Hg Hgmax.
  apply Hmax. apply list_elem_of_lookup in Hg as [i Hi]. exists i. split; [done|].
  unfold local_maximum. rewrite Hi. apply andb_true_iff. split.
  - destruct (left_neighbour (function s) i) as [q|] eqn:Hq; simpl; [|done].
    apply (not_less_le lessV), Hgmax. destruct i; simpl in Hq; [done|].
    by eapply list_elem_of_lookup_2.
  - unfold right_neighbour.
    destruct (function s !! S i) as [q|] eqn:Hq; simpl; [|done].
    apply (not_less_le lessV), Hgmax. by eapply list_elem_of_lookup_2.
Qed.

(** X14: in a reachable state the set of maxima is empty, that is
    [mx_begin() == mx_end()], exactly when the function is [empty()]. *)
Theorem maxima_empty_iff (s : impl) :
  reach s -> (mx_begin s = mx_end <-> empty s = true).
Proof.
  intros Hr. pose proof (reachable_inv lessA lessV HA HV s Hr) as Hinv.
  unfold mx_begin, mx_end, empty, size. rewrite bool_decide_eq_true. split.
  - intros Hhd. destruct (function s) as [|p f] eqn:Hf; [done|]. exfalso.
    destruct (greatest_value lessV HV (function s)) as (g & Hg & Hgmax); [by rewrite Hf|].
    pose proof (greatest_is_maximum s g Hinv Hg Hgmax) as Hin.
    destruct (localMaxima s); [by apply elem_of_nil in Hin|done].
  - intros Hlen. destruct (localMaxima s) as [|x m] eqn:Hm; [done|]. exfalso.
    assert (x ∈ function s) as Hx.
    { apply (Inv_maxima_subseteq lessA lessV s Hinv). rewrite Hm. by left. }
    destruct (function s); [by apply elem_of_nil in Hx|done].
Qed.

End Transactions.

(** ** Ownership of the implementation objects *)

Section Ownership.
Context {A V : Type} (lessA : A -> A -> bool) (lessV : V -> V -> bool).
Context (HA : StrictWeak lessA) (HV : StrictWeak lessV).

Local Abbreviation point := (point_type A V).
Local Abbreviation impl := (FunctionMaximaImpl A V).
Local Abbreviation world := (@World A V).
Local Abbreviation eqA := (equivalentArguments lessA).
Local Abbreviation eqV := (equivalentValues lessV).
Local Abbreviation inv := (Inv lessA lessV).
Local Abbreviation reach := (reachable lessA lessV).

(** No handle owns an address at which no object lives. *)
Lemma use_count_fresh (w : world) p : wf w -> heap w !! p = None -> use_count w p = 0.
Proof.
  intros Hwf Hp. unfold use_count.
  rewrite (map_empty_filter_2 (fun hp : nat * nat => hp.2 = p) (handles w));
    [apply map_size_empty|].
  intros h q Hh. simpl. intros ->.
  destruct (Hwf _ _ Hh) as [s Hs]. congruence.
Qed.

(** The use counts once the handle [h], an owner of [p], has been made the
    owner of [p']. *)
Lemma use_count_moved (w : world) h p p' :
  handles w !! h = Some p -> p' <> p -> use_count w p' = 0 ->
  use_count (set_handle h p' w) p' = 1 /\
  S (use_count (set_handle h p' w) p) = use_count w p.
Proof.
  intros Hh Hne Hzero. unfold use_count in *. simpl. split.
  - rewrite map_filter_insert_True by done.
    apply map_size_empty_inv in Hzero. rewrite Hzero, insert_empty.
    apply map_size_singleton.
  - rewrite map_filter_insert_False by done.
    rewrite map_filter_delete.
    assert (filter (fun hp : nat * nat => hp.2 = p) (handles w) !! h = Some p) as Hin
      by (by apply map_lookup_filter_Some).
    rewrite map_size_delete, Hin. simpl.
    assert (base.size (filter (fun hp : nat * nat => hp.2 = p) (handles w)) <> 0) as Hnz.
    { intros Hz. apply map_size_empty_inv in Hz. by rewrite Hz, lookup_empty in Hin. }
    lia.
Qed.

(** X15: after a [set_value a v] through a handle that returned, [value_at
    a] through the same handle returns a value equivalent to [v] and
    changes nothing, whether the handle shared its implementation or
    not. *)
Theorem handle_set_then_get (w : world) (h : nat) (a : A) (v : V)
    (k : faults) (w' : world) (k' : faults) :
  wreachable lessA lessV w -> is_Some (handles w !! h) ->
  h_set_value lessA lessV h a v w k = (Returns tt, w', k') ->
  exists x, h_value_at lessA h a w' None = (Returns x, w', None) /\ eqV x v = true.
Proof.
  intros Hw [p Hh] Hrun.
  pose proof (wreachable_wf lessA lessV w Hw) as Hwf.
  pose proof (wreachable_heap lessA lessV w Hw) as Hok.
  assert (exists q s s1 l l',
            handles w' !! h = Some q /\ heap w' !! q = Some s1 /\
            inv s /\ set_value lessA lessV a v s l = (Returns tt, s1, l')) as
    (q & s & s1 & l & l' & Hq & Hs1 & Hinv & Hset).
  { unfold h_set_value in Hrun.
    destruct (cowMutator_cases (set_value lessA lessV a v) h w k Hwf) as
      [p0 s Hp Hs Hc Hk Heq|p0 s p' x s' l' Hp Hs Hc Hk Hfresh Hfs Heq
      |p0 s e' s' l' Hp Hs Hc Hk Hfs Heq|p0 s Hp Hs Hc Heq];
      [by eexists|..]; rewrite Heq in Hrun; try done.
    - injection Hrun as <- <- <-.
      exists p', s, s', (after_alloc k), l'. simpl. rewrite !lookup_insert_eq.
      split_and!; [done..| |done].
      apply (reachable_inv lessA lessV HA HV). by eapply Hok.
    - injection Hrun as Hout <- <-.
      exists p0, s, (run_state (set_value lessA lessV a v s k)), k,
        (run_plan (set_value lessA lessV a v s k)). simpl. rewrite lookup_insert_eq.
      split_and!; [done..| |].
      + apply (reachable_inv lessA lessV HA HV). by eapply Hok.
      + destruct (set_value lessA lessV a v s k) as [[o s2] l2].
        unfold run_out, run_state, run_plan in *. simpl in *. by subst. }
  destruct (set_value_run lessA lessV HA HV a v s l Hinv)
    as [x s3 k3 Heq _ Hpost _|sf Heq -> _]; rewrite Heq in Hset; [|done].
  injection Hset as -> ->.
  destruct (set_value_post_lookup lessA lessV HA HV a v s s1 Hinv Hpost)
    as (pt & Hpt & _ & _ & HeV).
  exists (value pt). split; [|done].
  unfold h_value_at, bind, gets, call. simpl. rewrite Hq, Hs1.
  rewrite value_at_run, Hpt. simpl.
  rewrite insert_id by done. by destruct w'.
Qed.

(** X16: [cowMutator] clones exactly when the implementation is shared.
    A handle that is the only owner is mutated in place: no handle is
    redirected and no object is allocated or freed.  A mutation through a
    handle that shares its implementation, when it returns, has moved the
    handle to a fresh object of which it is the only owner; the other
    objects, the previously shared one included, are untouched, and the
    shared one has lost one owner. *)
Theorem cow_clones_only_when_shared (f : M impl unit) (w : world) (h p : nat) (k : faults) :
  wf w -> handles w !! h = Some p ->
  (use_count w p <= 1 ->
     handles (run_state (cowMutator f h w k)) = handles w /\
     dom (heap (run_state (cowMutator f h w k))) = dom (heap w)) /\
  (1 < use_count w p ->
     forall x w' k', cowMutator f h w k = (Returns x, w', k') ->
       exists p', heap w !! p' = None /\ is_Some (heap w' !! p') /\
         handles w' = <[h := p']> (handles w) /\
         (forall q, q <> p' -> heap w' !! q = heap w !! q) /\
         use_count w' p' = 1 /\ S (use_count w' p) = use_count w p).
Proof.
  intros Hwf Hh.
  assert (is_Some (handles w !! h)) as Hsome by (by eexists).
  destruct (cowMutator_cases f h w k Hwf Hsome) as
    [p0 s Hp Hs Hc Hk Heq|p0 s p' x s' l' Hp Hs Hc Hk Hfresh Hfs Heq
    |p0 s e' s' l' Hp Hs Hc Hk Hfs Heq|p0 s Hp Hs Hc Heq];
    assert (p0 = p) as -> by congruence; rewrite Heq.
  - split; [lia|done].
  - split; [lia|]. intros _ y w' k' [= <- <- <-].
    exists p'. simpl. rewrite lookup_insert_eq. split_and!; [done|by eexists|done| |..].
    + intros q Hq. by rewrite lookup_insert_ne.
    + assert (p' <> p) as Hne by congruence.
      pose proof (use_count_fresh w p' Hwf Hfresh) as Hzero.
      destruct (use_count_moved w h p p' Hh Hne Hzero) as [H1 _].
      unfold use_count in *. simpl in *. done.
    + assert (p' <> p) as Hne by congruence.
      pose proof (use_count_fresh w p' Hwf Hfresh) as Hzero.
      destruct (use_count_moved w h p p' Hh Hne Hzero) as [_ H2].
      unfold use_count in *. simpl in *. done.
  - split; [lia|done].
  - split; [|lia]. intros _. simpl. split; [done|].
    apply dom_insert_lookup_L. by eexists.
Qed.

(** X17: every handle of a world built through the public interface
    designates a live implementation object in a reachable state; what
    the handle shows as maxima is what a rescan of the function it shows
    computes. *)
Theorem handles_show_reachable_states (w : world) (h : nat) :
  wreachable lessA lessV w -> is_Some (handles w !! h) ->
  exists s, view w h = Some s /\ reach s /\
    h_mx_traversal w h = Some (rescan lessA lessV (traversal s)) /\
    h_traversal w h = Some (traversal s) /\ h_size w h = Some (size s).
Proof.
  intros Hw [p Hh].
  pose proof (wreachable_wf lessA lessV w Hw) as Hwf.
  pose proof (wreachable_heap lessA lessV w Hw) as Hok.
  destruct (Hwf _ _ Hh) as [s Hs].
  assert (view w h = Some s) as Hview by (unfold view; by rewrite Hh).
  exists s. pose proof (Hok _ _ Hs) as Hr. split_and!; [done..| | |].
  - unfold h_mx_traversal. rewrite Hview. simpl. f_equal.
    apply (inv_rescan lessA lessV HA HV). by apply (reachable_inv lessA lessV HA HV).
  - unfold h_traversal. by rewrite Hview.
  - unfold h_size. by rewrite Hview.
Qed.

(** X21: a mutation through a handle acts on the function the handle
    shows exactly as the member function of the implementation does: unless
    the allocation of the clone fails, which leaves the world as it was,
    the outcome is that of the member function run on the shown function
    (with the fault plan left by the allocation of the clone, if one was
    made), and the handle shows the state that run leaves. *)
Theorem handle_mutation_simulates (w : world) (h : nat) (s : impl)
    (c : mutation A V) (k : faults) :
  wf w -> view w h = Some s -> reach s ->
  (k = Some 0 /\
   cowMutator (mutate lessA lessV c) h w k = (Throws Failure, w, None)) \/
  exists l, (l = k \/ l = after_alloc k) /\
    run_out (cowMutator (mutate lessA lessV c) h w k) =
      run_out (mutate lessA lessV c s l) /\
    run_plan (cowMutator (mutate lessA lessV c) h w k) =
      run_plan (mutate lessA lessV c s l) /\
    view (run_state (cowMutator (mutate lessA lessV c) h w k)) h =
      Some (run_state (mutate lessA lessV c s l)).
Proof.
  intros Hwf Hview Hr. pose proof (reachable_inv lessA lessV HA HV s Hr) as Hinv.
  destruct (handles w !! h) as [p|] eqn:Hh; cycle 1.
  { unfold view in Hview. by rewrite Hh in Hview. }
  assert (heap w !! p = Some s) as Hs by (unfold view in Hview; by rewrite Hh in Hview).
  assert (is_Some (handles w !! h)) as Hsome by (by eexists).
  destruct (cowMutator_cases (mutate lessA lessV c) h w k Hwf Hsome) as
    [p0 s0 Hp Hs0 Hc Hk Heq|p0 s0 p' x s' l' Hp Hs0 Hc Hk Hfresh Hfs Heq
    |p0 s0 e' s' l' Hp Hs0 Hc Hk Hfs Heq|p0 s0 Hp Hs0 Hc Heq];
    assert (p0 = p) as -> by congruence; assert (s0 = s) as -> by congruence.
  - by left.
  - right. exists (after_alloc k). rewrite Heq, Hfs. split_and!; [by right|done|done|].
    unfold view. simpl. by rewrite !lookup_insert_eq.
  - right. exists (after_alloc k). rewrite Heq, Hfs. split_and!; [by right|done|done|].
    unfold run_state. simpl. rewrite Hview. f_equal. symmetry.
    by eapply (mutate_throws lessA lessV HA HV).
  - right. exists k. rewrite Heq. split_and!; [by left|done|done|].
    unfold view. simpl. by rewrite Hh, lookup_insert_eq.
Qed.

End Ownership.

(** ** Neighbours, equivalent arguments and construction *)

Section Neighbours.
Context {A V : Type}.

Local Abbreviation point := (point_type A V).

(** X18: [safeNextWithAvoid] and [safePrevWithAvoid] give the right and
    the left neighbour of a position in the store from which the avoided
    element is left out, and [end()] where there is none. *)
Theorem avoid_skips_ignored (f : list point) (j : nat) (ignore : iterator) :
  j < length f -> valid_iter f ignore -> Some j <> ignore ->
  deref f (safeNextWithAvoid f (Some j) ignore) =
    right_neighbour (without ignore f) (shift ignore j) /\
  deref f (safePrevWithAvoid f (Some j) ignore) =
    left_neighbour (without ignore f) (shift ignore j).
Proof.
  intros Hj Hv Hne. unfold safeNextWithAvoid, safePrevWithAvoid, right_neighbour.
  rewrite safeNext_Some, safePrev_Some by done. split.
  - destruct ignore as [i|]; simpl in *.
    + assert (i <> j) as Hij by congruence.
      destruct (decide (S j < length f)) as [Hlt|Hge].
      * case_decide as Hn.
        -- injection Hn as <-. rewrite safeNext_Some, deref_iter_next.
           rewrite decide_True by lia.
           rewrite list_lookup_delete_ge by lia. done.
        -- simpl. assert (i <> S j) by congruence.
           case_decide.
           ++ by rewrite list_lookup_delete_lt by lia.
           ++ rewrite list_lookup_delete_ge by lia. f_equal. lia.
      * case_decide as Hn; [done|]. simpl.
        case_decide; [lia|].
        rewrite list_lookup_delete_ge by lia.
        symmetry. apply lookup_ge_None. lia.
    + destruct (decide (S j < length f)) as [Hlt|Hge].
      * by case_decide.
      * case_decide; [|done]. simpl.
        symmetry. apply lookup_ge_None. lia.
  - destruct j as [|j]; simpl.
    + destruct ignore as [i|]; simpl in *.
      * by destruct (decide (0 < i)).
      * unfold safePrev. case_decide as H; [by destruct H|done].
    + destruct ignore as [i|]; simpl in *; [|done].
      assert (i <> S j) as Hij by congruence.
      case_decide as Hn.
      * injection Hn as <-. rewrite safePrev_Some by lia. rewrite deref_prev_pos.
        case_decide; [lia|]. simpl.
        destruct j as [|j]; simpl; [done|].
        by rewrite list_lookup_delete_lt by lia.
      * simpl. assert (i <> j) by congruence.
        case_decide; simpl.
        -- by rewrite list_lookup_delete_lt by lia.
        -- destruct j as [|j]; simpl; [lia|].
           by rewrite list_lookup_delete_ge by lia.
Qed.

End Neighbours.

Section Equivalence.
Context {A V : Type} (lessA : A -> A -> bool) (lessV : V -> V -> bool).
Context (HA : StrictWeak lessA) (HV : StrictWeak lessV).

Local Abbreviation point := (point_type A V).
Local Abbreviation impl := (FunctionMaximaImpl A V).
Local Abbreviation world := (@World A V).
Local Abbreviation eqA := (equivalentArguments lessA).
Local Abbreviation reach := (reachable lessA lessV).

(** X19: lookups do not tell equivalent arguments apart: in a reachable
    state [find] and [value_at] behave in the same way on [a] and on any
    [a'] equivalent to [a]. *)
Theorem lookups_respect_equivalence (s : impl) (a a' : A) (k : faults) :
  reach s -> eqA a a' = true ->
  find lessA a s k = find lessA a' s k /\
  value_at lessA a s k = value_at lessA a' s k.
Proof.
  intros Hr He. pose proof (reachable_inv lessA lessV HA HV s Hr) as [Hf _ _].
  assert (fn_find lessA a (function s) = fn_find lessA a' (function s)) as Hfind.
  { destruct (fn_split_total lessA HA a (function s) Hf)
      as [l1 l2 Hfeq Hfind _ Hb Ha|l1 old l2 Hfeq Hfind _ Heo Hb Ha].
    - rewrite Hfind. symmetry. apply (fn_find_absent lessA HA); [done|].
      intros p Hp. apply (eqA_other lessA HA a); [done|].
      rewrite Hfeq in Hp. by apply (absent_split lessA HA a l1 l2).
    - rewrite Hfind.
      assert (old ∈ function s) as Hold by (rewrite Hfeq, elem_of_app, elem_of_cons; tauto).
      assert (eqA a' (arg old) = true) as Heo'.
      { apply (eqA_trans lessA HA _ a); [by rewrite equivalentArguments_sym|done]. }
      destruct (fn_find_present lessA HA a' (function s) old Hf Hold Heo') as (i & -> & Hi).
      f_equal. eapply (fn_sorted_lookup_inj lessA); eauto.
      + rewrite Hfeq. by apply list_lookup_middle.
      + apply (eqA_refl lessA HA). }
  split.
  - unfold find, bind, gets. simpl. by rewrite Hfind.
  - by rewrite !value_at_run, Hfind.
Qed.

(** X20: the constructor allocates an empty implementation for the new
    handle, or throws and leaves the world as it was when the allocation
    fails.  The new function has no point and no maximum, [value_at]
    throws [InvalidArg] on every argument, and what the other handles
    show is not affected. *)
Theorem construct_empty (w : world) (h : nat) (k : faults) :
  wf w ->
  (k = Some 0 -> construct h w k = (Throws Failure, w, None)) /\
  (k <> Some 0 ->
     run_out (construct h w k) = Returns tt /\
     view (run_state (construct h w k)) h = Some (empty_impl A V) /\
     h_size (run_state (construct h w k)) h = Some 0 /\
     h_traversal (run_state (construct h w k)) h = Some [] /\
     h_mx_traversal (run_state (construct h w k)) h = Some [] /\
     (forall a, run_out (h_value_at lessA h a (run_state (construct h w k)) None) =
                Throws InvalidArg) /\
     forall h', h' <> h -> view (run_state (construct h w k)) h' = view w h').
Proof.
  intros Hwf. split.
  - intros ->. by rewrite construct_run.
  - intros Hk.
    set (w' := MkWorld (<[fresh (dom (heap w)) := empty_impl A V]> (heap w))
                       (<[h := fresh (dom (heap w))]> (handles w))).
    assert (construct h w k = (Returns tt, w', after_alloc k)) as ->
      by (rewrite construct_run; by destruct k as [[|n]|]).
    change (run_state (Returns tt, w', after_alloc k)) with w'.
    assert (view w' h = Some (empty_impl A V)) as Hview.
    { unfold view. simpl. by rewrite !lookup_insert_eq. }
    assert (heap w !! fresh (dom (heap w)) = None) as Hfresh.
    { apply not_elem_of_dom, is_fresh. }
    split_and!; [done|done|unfold h_size; by rewrite Hview
                |unfold h_traversal; by rewrite Hview
                |unfold h_mx_traversal; by rewrite Hview
                |intros a; by rewrite (h_value_at_out lessA), Hview|].
    intros h' Hne. unfold view. simpl. rewrite lookup_insert_ne by done.
    destruct (handles w !! h') as [q|] eqn:Hq; [|done].
    rewrite lookup_insert_ne; [done|].
    intros <-. destruct (Hwf _ _ Hq) as [? ?]. congruence.
Qed.

End Equivalence.

(** ** Further statements at concrete functions over the integers *)

(** The scenario's function with the point (6,7) added. *)
Definition after_six : FunctionMaximaImpl Z Z :=
  Eval vm_compute in run_state (set_value Z.ltb Z.ltb 6%Z 7%Z after_inserts None).

(** The scenario's function with the value at 3 raised to 40 and the point
    at 4 erased. *)
Definition after_raise_erase : FunctionMaximaImpl Z Z :=
  Eval vm_compute in run_state (erase Z.ltb Z.ltb 4%Z after_raise None).

(** The state inside [set_value 3 40] on the scenario's function, right
    after [function.insert]: the old and the new point at 3 are both in
    the store and the maxima are still the old ones. *)
Definition inside_raise : FunctionMaximaImpl Z Z :=
  Impl [Point 1 10; Point 2 20; Point 3 10; Point 3 40; Point 4 30; Point 5 5]%Z
       [Point 4 30; Point 2 20]%Z.

(** A world built through the public interface: the handle 0 is
    constructed, given the point (1,10) and copied to the handle 1. *)
Definition built_world : @World Z Z :=
  run_state (copy_construct 0 1
    (run_state (h_set_value Z.ltb Z.ltb 0 1%Z 10%Z
       (run_state (construct 0 empty_world None)) None)) None).

Lemma built_world_wreachable : wreachable Z.ltb Z.ltb built_world.
Proof. apply wr_copy, wr_set_value, wr_construct, wr_empty. Qed.

Lemma built_world_wf : wf built_world.
Proof. apply (wreachable_wf Z.ltb Z.ltb), built_world_wreachable. Qed.

Lemma absent_6 : absent Z.ltb 6%Z after_inserts.
Proof.
  intros p Hp. simpl in Hp.
  repeat (apply elem_of_cons in Hp as [->|Hp]; [reflexivity|]).
  by apply elem_of_nil in Hp.
Qed.

Lemma inside_raise_sorted : mx_sorted Z.ltb Z.ltb (localMaxima inside_raise).
Proof. repeat constructor. Qed.

Lemma inside_raise_coherent : coherent Z.ltb Z.ltb (function inside_raise).
Proof.
  intros x y Hx Hy. simpl in Hx, Hy.
  repeat (apply elem_of_cons in Hx as [->|Hx]);
    try (by apply elem_of_nil in Hx);
    repeat (apply elem_of_cons in Hy as [->|Hy]);
    try (by apply elem_of_nil in Hy); vm_compute; congruence.
Qed.

Lemma inside_raise_within : localMaxima inside_raise ⊆ function inside_raise.
Proof.
  intros x Hx. simpl in *.
  repeat (apply elem_of_cons in Hx as [->|Hx]; [set_solver|]).
  by apply elem_of_nil in Hx.
Qed.

Lemma set_value_store_witness :
  reachable Z.ltb Z.ltb after_inserts /\
  set_value Z.ltb Z.ltb 3%Z 40%Z after_inserts None = (Returns tt, after_raise, None) /\
  exists l1 l2, below Z.ltb 3%Z l1 /\ above Z.ltb 3%Z l2 /\
    ((traversal after_inserts = l1 ++ l2 /\
      traversal after_raise = l1 ++ Point 3%Z 40%Z :: l2) \/
     exists old, traversal after_inserts = l1 ++ old :: l2 /\
       equivalentArguments Z.ltb 3%Z (arg old) = true /\
       traversal after_raise =
         l1 ++ (if equivalentValues Z.ltb (value old) 40%Z then old
                else Point 3%Z 40%Z) :: l2).
Proof.
  split; [apply after_inserts_reachable|]. split; [vm_compute; reflexivity|].
  apply (set_value_store Z.ltb Z.ltb Zltb_StrictWeak Zltb_StrictWeak
           after_inserts 3%Z 40%Z None after_raise None).
  - apply after_inserts_reachable.
  - vm_compute; reflexivity.
Defined.

Lemma erase_store_witness :
  reachable Z.ltb Z.ltb after_inserts /\
  erase Z.ltb Z.ltb 4%Z after_inserts None = (Returns tt, after_erase, None) /\
  exists l1 l2, below Z.ltb 4%Z l1 /\ above Z.ltb 4%Z l2 /\
    ((traversal after_inserts = l1 ++ l2 /\ after_erase = after_inserts) \/
     exists old, traversal after_inserts = l1 ++ old :: l2 /\
       equivalentArguments Z.ltb 4%Z (arg old) = true /\
       traversal after_erase = l1 ++ l2).
Proof.
  split; [apply after_inserts_reachable|]. split; [vm_compute; reflexivity|].
  apply (erase_store Z.ltb Z.ltb Zltb_StrictWeak Zltb_StrictWeak
           after_inserts 4%Z None after_erase None).
  - apply after_inserts_reachable.
  - vm_compute; reflexivity.
Defined.

Lemma traversal_increasing_witness :
  reachable Z.ltb Z.ltb after_inserts /\
  traversal after_inserts !! 1 = Some (Point 2 20)%Z /\
  traversal after_inserts !! 3 = Some (Point 4 30)%Z /\
  (1 < 3 <-> Z.ltb (arg (Point 2 20)%Z) (arg (Point 4 30)%Z) = true).
Proof.
  split; [apply after_inserts_reachable|]. split; [reflexivity|]. split; [reflexivity|].
  apply (traversal_increasing Z.ltb Z.ltb Zltb_StrictWeak Zltb_StrictWeak after_inserts).
  - apply after_inserts_reachable.
  - reflexivity.
  - reflexivity.
Defined.

Lemma find_locates_witness :
  reachable Z.ltb Z.ltb after_inserts /\
  exists it, find Z.ltb 3%Z after_inserts None = (Returns it, after_inserts, None) /\
    (it = None <-> absent Z.ltb 3%Z after_inserts) /\
    (forall i, it = Some i ->
       exists p, traversal after_inserts !! i = Some p /\
                 equivalentArguments Z.ltb 3%Z (arg p) = true) /\
    forall k, run_state (find Z.ltb 3%Z after_inserts k) = after_inserts.
Proof.
  split; [apply after_inserts_reachable|].
  apply (find_locates Z.ltb Z.ltb Zltb_StrictWeak Zltb_StrictWeak after_inserts 3%Z).
  apply after_inserts_reachable.
Defined.

Lemma size_change_witness :
  reachable Z.ltb Z.ltb after_inserts /\
  forall k s' k', erase Z.ltb Z.ltb 4%Z after_inserts k = (Returns tt, s', k') ->
    (absent Z.ltb 4%Z after_inserts -> size s' = size after_inserts) /\
    (forall p, p ∈ traversal after_inserts ->
       equivalentArguments Z.ltb 4%Z (arg p) = true -> S (size s') = size after_inserts).
Proof.
  split; [apply after_inserts_reachable|].
  apply (size_change Z.ltb Z.ltb Zltb_StrictWeak Zltb_StrictWeak after_inserts 4%Z).
  apply after_inserts_reachable.
Defined.

Lemma other_arguments_untouched_witness :
  reachable Z.ltb Z.ltb after_inserts /\
  equivalentArguments Z.ltb (mutation_arg (MSet 3 40)%Z) 4%Z = false /\
  run_out (value_at Z.ltb 4%Z
             (run_state (mutate Z.ltb Z.ltb (MSet 3 40)%Z after_inserts (Some 9))) None) =
  run_out (value_at Z.ltb 4%Z after_inserts None).
Proof.
  split; [apply after_inserts_reachable|]. split; [reflexivity|].
  apply (other_arguments_untouched Z.ltb Z.ltb Zltb_StrictWeak Zltb_StrictWeak
           after_inserts (MSet 3 40)%Z 4%Z (Some 9) None).
  - apply after_inserts_reachable.
  - reflexivity.
Defined.

Lemma set_value_then_erase_witness :
  reachable Z.ltb Z.ltb after_inserts /\ absent Z.ltb 6%Z after_inserts /\
  set_value Z.ltb Z.ltb 6%Z 7%Z after_inserts None = (Returns tt, after_six, None) /\
  erase Z.ltb Z.ltb 6%Z after_six None = (Returns tt, after_inserts, None) /\
  after_inserts = after_inserts.
Proof.
  split; [apply after_inserts_reachable|]. split; [apply absent_6|].
  split; [vm_compute; reflexivity|]. split; [vm_compute; reflexivity|].
  apply (set_value_then_erase Z.ltb Z.ltb Zltb_StrictWeak Zltb_StrictWeak
           after_inserts 6%Z 7%Z None after_six None None after_inserts None).
  - apply after_inserts_reachable.
  - apply absent_6.
  - vm_compute; reflexivity.
  - vm_compute; reflexivity.
Defined.

Lemma erase_then_set_value_witness :
  reachable Z.ltb Z.ltb after_inserts /\
  Point 4%Z 30%Z ∈ traversal after_inserts /\
  equivalentArguments Z.ltb 4%Z (arg (Point 4 30)%Z) = true /\
  erase Z.ltb Z.ltb 4%Z after_inserts None = (Returns tt, after_erase, None) /\
  set_value Z.ltb Z.ltb (arg (Point 4 30)%Z) (value (Point 4 30)%Z) after_erase None =
    (Returns tt, after_inserts, None) /\
  after_inserts = after_inserts.
Proof.
  assert (Point 4%Z 30%Z ∈ traversal after_inserts) as Hin.
  { by apply (list_elem_of_lookup_2 _ 3). }
  split; [apply after_inserts_reachable|]. split; [exact Hin|].
  split; [reflexivity|]. split; [vm_compute; reflexivity|]. split; [vm_compute; reflexivity|].
  apply (erase_then_set_value Z.ltb Z.ltb Zltb_StrictWeak Zltb_StrictWeak
           after_inserts 4%Z (Point 4 30)%Z None after_erase None None after_inserts None).
  - apply after_inserts_reachable.
  - exact Hin.
  - reflexivity.
  - vm_compute; reflexivity.
  - vm_compute; reflexivity.
Defined.

Lemma mutations_commute_witness :
  reachable Z.ltb Z.ltb after_inserts /\
  equivalentArguments Z.ltb (mutation_arg (MSet 3 40)%Z) (mutation_arg (@MErase Z Z 4%Z))
    = false /\
  mutate Z.ltb Z.ltb (MSet 3 40)%Z after_inserts None = (Returns tt, after_raise, None) /\
  mutate Z.ltb Z.ltb (MErase 4%Z) after_raise None = (Returns tt, after_raise_erase, None) /\
  mutate Z.ltb Z.ltb (MErase 4%Z) after_inserts None = (Returns tt, after_erase, None) /\
  mutate Z.ltb Z.ltb (MSet 3 40)%Z after_erase None =
    (Returns tt, after_raise_erase, None) /\
  after_raise_erase = after_raise_erase.
Proof.
  split; [apply after_inserts_reachable|]. split; [reflexivity|].
  do 4 (split; [vm_compute; reflexivity|]).
  apply (mutations_commute Z.ltb Z.ltb Zltb_StrictWeak Zltb_StrictWeak
           after_inserts (MSet 3 40)%Z (MErase 4%Z)
           None None None None None None None None
           after_raise after_raise_erase after_erase after_raise_erase).
  - apply after_inserts_reachable.
  - reflexivity.
  - vm_compute; reflexivity.
  - vm_compute; reflexivity.
  - vm_compute; reflexivity.
  - vm_compute; reflexivity.
Defined.

Lemma mutators_return_witness :
  reachable Z.ltb Z.ltb after_inserts /\
  (exists s', mutate Z.ltb Z.ltb (MErase 4%Z) after_inserts None = (Returns tt, s', None)) /\
  (forall k x s' k', mutate Z.ltb Z.ltb (MErase 4%Z) after_inserts k = (Returns x, s', k') ->
     mutate Z.ltb Z.ltb (MErase 4%Z) after_inserts None = (Returns x, s', None)).
Proof.
  split; [apply after_inserts_reachable|].
  apply (mutators_return Z.ltb Z.ltb Zltb_StrictWeak Zltb_StrictWeak
           after_inserts (MErase 4%Z)).
  apply after_inserts_reachable.
Defined.

Lemma maxima_order_strict_weak_witness :
  StrictWeak Z.ltb /\
  StrictWeak (ComparePointsByMaximaOrder Z.ltb Z.ltb) /\
  forall p q : point_type Z Z,
    negb (ComparePointsByMaximaOrder Z.ltb Z.ltb p q) &&
    negb (ComparePointsByMaximaOrder Z.ltb Z.ltb q p) =
    equivalentPoints Z.ltb Z.ltb p q.
Proof.
  split; [apply Zltb_StrictWeak|].
  apply (maxima_order_strict_weak Z.ltb Z.ltb Zltb_StrictWeak Zltb_StrictWeak).
Defined.

Lemma isLocalMaxima_ignoring_witness :
  valid_iter (function inside_raise) (Some 2) /\ Some 3 <> Some 2 /\
  isLocalMaxima Z.ltb (Some 3) (Some 2) inside_raise None =
    (Returns (local_maximum Z.ltb (without (Some 2) (function inside_raise))
                (shift (Some 2) 3)), inside_raise, None) /\
  (forall k, isLocalMaxima Z.ltb (Some 2) (Some 2) inside_raise k =
             (Returns false, inside_raise, k)) /\
  (forall k, run_state (isLocalMaxima Z.ltb (Some 3) (Some 2) inside_raise k) =
             inside_raise).
Proof.
  assert (valid_iter (function inside_raise) (Some 2)) as Hv by (simpl; lia).
  assert (Some 3 <> Some 2) as Hne by discriminate.
  split; [exact Hv|]. split; [exact Hne|].
  apply (isLocalMaxima_ignoring Z.ltb inside_raise 3 (Some 2) Hv Hne).
Defined.

Lemma guard_transaction_witness :
  mx_sorted Z.ltb Z.ltb (localMaxima inside_raise) /\
  coherent Z.ltb Z.ltb (function inside_raise) /\
  localMaxima inside_raise ⊆ function inside_raise /\
  valid_iter (function inside_raise) (Some 2) /\
  ((guard_ctor Z.ltb Z.ltb (Some 3) (Some 2) inside_raise None =
      (Throws Failure, inside_raise, None) /\ @None nat <> None) \/
   exists g s' k',
     guard_ctor Z.ltb Z.ltb (Some 3) (Some 2) inside_raise None = (Returns g, s', k') /\
     function s' = function inside_raise /\
     guard_dtor Z.ltb Z.ltb g s' = inside_raise /\
     function (guard_dtor Z.ltb Z.ltb (done g) s') = function inside_raise /\
     (Some 3 = Some 2 ->
      s' = inside_raise /\ k' = None /\ guard_dtor Z.ltb Z.ltb (done g) s' = inside_raise) /\
     (Some 3 <> Some 2 ->
      exists b, isLocalMaxima Z.ltb (Some 3) (Some 2) inside_raise None =
                  (Returns b, inside_raise, None) /\
        forall x, x ∈ localMaxima (guard_dtor Z.ltb Z.ltb (done g) s') <->
          (deref (function inside_raise) (Some 3) = Some x /\ b = true) \/
          (x ∈ localMaxima inside_raise /\
           deref (function inside_raise) (Some 3) <> Some x))).
Proof.
  assert (valid_iter (function inside_raise) (Some 2)) as Hv by (simpl; lia).
  split; [apply inside_raise_sorted|]. split; [apply inside_raise_coherent|].
  split; [apply inside_raise_within|]. split; [exact Hv|].
  apply (guard_transaction Z.ltb Z.ltb Zltb_StrictWeak Zltb_StrictWeak
           inside_raise (Some 3) (Some 2) None
           inside_raise_sorted inside_raise_coherent inside_raise_within Hv).
Defined.

Lemma maxima_empty_iff_witness :
  reachable Z.ltb Z.ltb after_inserts /\
  (mx_begin after_inserts = mx_end <-> empty after_inserts = true).
Proof.
  split; [apply after_inserts_reachable|].
  apply (maxima_empty_iff Z.ltb Z.ltb Zltb_StrictWeak Zltb_StrictWeak after_inserts).
  apply after_inserts_reachable.
Defined.

Lemma handle_set_then_get_witness :
  wreachable Z.ltb Z.ltb built_world /\ is_Some (handles built_world !! 0) /\
  h_set_value Z.ltb Z.ltb 0 2%Z 20%Z built_world None =
    (Returns tt, run_state (h_set_value Z.ltb Z.ltb 0 2%Z 20%Z built_world None), None) /\
  exists x,
    h_value_at Z.ltb 0 2%Z
      (run_state (h_set_value Z.ltb Z.ltb 0 2%Z 20%Z built_world None)) None =
      (Returns x, run_state (h_set_value Z.ltb Z.ltb 0 2%Z 20%Z built_world None), None) /\
    equivalentValues Z.ltb x 20%Z = true.
Proof.
  assert (is_Some (handles built_world !! 0)) as Hh by (exists 0; vm_compute; reflexivity).
  split; [apply built_world_wreachable|]. split; [exact Hh|].
  split; [vm_compute; reflexivity|].
  apply (handle_set_then_get Z.ltb Z.ltb Zltb_StrictWeak Zltb_StrictWeak
           built_world 0 2%Z 20%Z None _ None built_world_wreachable Hh).
  vm_compute; reflexivity.
Defined.

Lemma cow_clones_only_when_shared_witness :
  wf built_world /\ handles built_world !! 0 = Some 0 /\
  (1 < use_count built_world 0 ->
   forall x w' k',
     cowMutator (set_value Z.ltb Z.ltb 2%Z 20%Z) 0 built_world None = (Returns x, w', k') ->
     exists p', heap built_world !! p' = None /\ is_Some (heap w' !! p') /\
       handles w' = <[0 := p']> (handles built_world) /\
       (forall q, q <> p' -> heap w' !! q = heap built_world !! q) /\
       use_count w' p' = 1 /\ S (use_count w' 0) = use_count built_world 0).
Proof.
  assert (handles built_world !! 0 = Some 0) as Hh by (vm_compute; reflexivity).
  split; [apply built_world_wf|]. split; [exact Hh|].
  apply (cow_clones_only_when_shared (set_value Z.ltb Z.ltb 2%Z 20%Z)
           built_world 0 0 None built_world_wf Hh).
Defined.

Lemma handles_show_reachable_states_witness :
  wreachable Z.ltb Z.ltb built_world /\ is_Some (handles built_world !! 1) /\
  exists s, view built_world 1 = Some s /\ reachable Z.ltb Z.ltb s /\
    h_mx_traversal built_world 1 = Some (rescan Z.ltb Z.ltb (traversal s)) /\
    h_traversal built_world 1 = Some (traversal s) /\
    h_size built_world 1 = Some (size s).
Proof.
  assert (is_Some (handles built_world !! 1)) as Hh by (exists 0; vm_compute; reflexivity).
  split; [apply built_world_wreachable|]. split; [exact Hh|].
  apply (handles_show_reachable_states Z.ltb Z.ltb Zltb_StrictWeak Zltb_StrictWeak
           built_world 1 built_world_wreachable Hh).
Defined.

Lemma avoid_skips_ignored_witness :
  3 < length (function inside_raise) /\
  valid_iter (function inside_raise) (Some 2) /\ Some 3 <> Some 2 /\
  deref (function inside_raise) (safeNextWithAvoid (function inside_raise) (Some 3) (Some 2)) =
    right_neighbour (without (Some 2) (function inside_raise)) (shift (Some 2) 3) /\
  deref (function inside_raise) (safePrevWithAvoid (function inside_raise) (Some 3) (Some 2)) =
    left_neighbour (without (Some 2) (function inside_raise)) (shift (Some 2) 3).
Proof.
  assert (3 < length (function inside_raise)) as Hj by (simpl; lia).
  assert (valid_iter (function inside_raise) (Some 2)) as Hv by (simpl; lia).
  assert (Some 3 <> Some 2) as Hne by discriminate.
  split; [exact Hj|]. split; [exact Hv|]. split; [exact Hne|].
  apply (avoid_skips_ignored (function inside_raise) 3 (Some 2) Hj Hv Hne).
Defined.

(** An ordering of pairs by their first component alone, as a caller may
    give for [std::less<A>]: pairs with the same first component are
    equivalent without being equal. *)
Definition less_fst (x y : Z * Z) : bool := Z.ltb x.1 y.1.

Lemma less_fst_StrictWeak : StrictWeak less_fst.
Proof.
  split; unfold less_fst.
  - intros x. apply (sw_irrefl Zltb_StrictWeak).
  - intros x y z. apply (sw_trans Zltb_StrictWeak).
  - intros x y z. apply (sw_negtrans Zltb_StrictWeak).
Qed.

(** The function that maps the argument (3,0) to 10 and (5,0) to 20. *)
Definition keyed : FunctionMaximaImpl (Z * Z) Z :=
  run_state (set_value less_fst Z.ltb (5, 0)%Z 20%Z
    (run_state (set_value less_fst Z.ltb (3, 0)%Z 10%Z (empty_impl (Z * Z) Z) None)) None).

Lemma keyed_reachable : reachable less_fst Z.ltb keyed.
Proof. apply reach_set_value, reach_set_value, reach_empty. Qed.

Lemma lookups_respect_equivalence_witness :
  reachable less_fst Z.ltb keyed /\
  equivalentArguments less_fst (3, 0)%Z (3, 1)%Z = true /\
  (3, 0)%Z <> (3, 1)%Z /\
  value_at less_fst (3, 1)%Z keyed None = (Returns 10%Z, keyed, None) /\
  find less_fst (3, 0)%Z keyed None = find less_fst (3, 1)%Z keyed None /\
  value_at less_fst (3, 0)%Z keyed None = value_at less_fst (3, 1)%Z keyed None.
Proof.
  split; [apply keyed_reachable|]. split; [reflexivity|]. split; [discriminate|].
  split; [vm_compute; reflexivity|].
  apply (lookups_respect_equivalence less_fst Z.ltb less_fst_StrictWeak Zltb_StrictWeak
           keyed (3, 0)%Z (3, 1)%Z None).
  - apply keyed_reachable.
  - reflexivity.
Defined.

Lemma construct_empty_witness :
  wf built_world /\
  (@None nat <> Some 0 ->
   run_out (construct 2 built_world None) = Returns tt /\
   view (run_state (construct 2 built_world None)) 2 = Some (empty_impl Z Z) /\
   h_size (run_state (construct 2 built_world None)) 2 = Some 0 /\
   h_traversal (run_state (construct 2 built_world None)) 2 = Some [] /\
   h_mx_traversal (run_state (construct 2 built_world None)) 2 = Some [] /\
   (forall a, run_out (h_value_at Z.ltb 2 a (run_state (construct 2 built_world None)) None) =
              Throws InvalidArg) /\
   forall h', h' <> 2 -> view (run_state (construct 2 built_world None)) h' =
                         view built_world h').
Proof.
  split; [apply built_world_wf|].
  apply (construct_empty Z.ltb built_world 2 None built_world_wf).
Defined.

Lemma handle_mutation_simulates_witness :
  wf (one_handle after_inserts) /\ view (one_handle after_inserts) 0 = Some after_inserts /\
  reachable Z.ltb Z.ltb after_inserts /\
  ((Some 3 = Some 0 /\
    cowMutator (mutate Z.ltb Z.ltb (MSet 3 40)%Z) 0 (one_handle after_inserts) (Some 3) =
      (Throws Failure, one_handle after_inserts, None)) \/
   exists l, (l = Some 3 \/ l = after_alloc (Some 3)) /\
     run_out (cowMutator (mutate Z.ltb Z.ltb (MSet 3 40)%Z) 0
                (one_handle after_inserts) (Some 3)) =
       run_out (mutate Z.ltb Z.ltb (MSet 3 40)%Z after_inserts l) /\
     run_plan (cowMutator (mutate Z.ltb Z.ltb (MSet 3 40)%Z) 0
                 (one_handle after_inserts) (Some 3)) =
       run_plan (mutate Z.ltb Z.ltb (MSet 3 40)%Z after_inserts l) /\
     view (run_state (cowMutator (mutate Z.ltb Z.ltb (MSet 3 40)%Z) 0
                        (one_handle after_inserts) (Some 3))) 0 =
       Some (run_state (mutate Z.ltb Z.ltb (MSet 3 40)%Z after_inserts l))).
Proof.
  assert (view (one_handle after_inserts) 0 = Some after_inserts) as Hview
    by (vm_compute; reflexivity).
  split; [apply wf_one_handle|]. split; [exact Hview|].
  split; [apply after_inserts_reachable|].
  apply (handle_mutation_simulates Z.ltb Z.ltb Zltb_StrictWeak Zltb_StrictWeak
           (one_handle after_inserts) 0 after_inserts (MSet 3 40)%Z (Some 3)
           (wf_one_handle after_inserts) Hview after_inserts_reachable).
Defined.
